(** * goaesctr: a seekable counter-mode reader

    A shallow embedding of the two Go engines of the repository,

    - [src/aesctr/ctr.go]: every [ReadAt] builds its own [ctrState]
      (module [Stateless]);
    - [src/unnamed/part_000]: one counter and one keystream buffer live in the
      engine and are reset by [setCTR] under a mutex (module [Shared]);

    and the properties of the specification proved or refuted on them.

    Go values are modelled as follows.  A [byte] is [Init.Byte.byte] with the
    arithmetic of coqutil ([byte.unsigned], [byte.of_Z], which reduces modulo
    256, [byte.xor]).  An [int64] is a [Z] whose wrap-around is written
    [wrap64].  A slice is the part of its backing array that starts at its
    first element, together with its length.  A Go function that can panic or
    loop returns a [result]. *)

From Stdlib Require Import ZArith List Lia String Bool.
From stdpp Require Import base list.
From coqutil Require Import Byte.
Import ListNotations.

Local Open Scope nat_scope.

(** ** Outcomes of a Go call *)

Inductive result (A : Type) : Type :=
| Ok (a : A)            (* the call returned *)
| Panic (msg : string)  (* the call panicked *)
| Timeout.              (* the loop did not leave within the turns allowed *)

Arguments Ok {A} a.
Arguments Panic {A} msg.
Arguments Timeout {A}.

Definition bind {A B : Type} (m : result A) (k : A -> result B) : result B :=
  match m with
  | Ok a => k a
  | Panic msg => Panic msg
  | Timeout => Timeout
  end.

Notation "'do' x <- m ; k" := (bind m (fun x => k))
  (at level 10, x name, m at level 100, k at level 200).
Notation "'do' ' p <- m ; k" := (bind m (fun x => match x with p => k end))
  (at level 10, p pattern, m at level 100, k at level 200).

(** ** Bytes and 64-bit integers *)

Definition byte_zero : byte := byte.of_Z 0.
Definition byte_ff : byte := byte.of_Z 255.

(** [b++] and [a += m] on a [byte]: the sum reduced modulo 256. *)
Definition byte_inc (a : byte) : byte := byte.of_Z (byte.unsigned a + 1).
Definition byte_add (a m : byte) : byte :=
  byte.of_Z (byte.unsigned a + byte.unsigned m).

Definition byte_is_zero (a : byte) : bool := (byte.unsigned a =? 0)%Z.
Definition byte_ltb (a c : byte) : bool := (byte.unsigned a <? byte.unsigned c)%Z.

(** Two's complement reduction of an [int64] result. *)
Definition wrap64 (z : Z) : Z :=
  ((z + 2 ^ 63) mod 2 ^ 64 - 2 ^ 63)%Z.

(** The value of a byte sequence read as a big-endian unsigned integer. *)
Definition be_value (l : list byte) : Z :=
  fold_left (fun acc a => (acc * 256 + byte.unsigned a)%Z) l 0%Z.

(** ** The counter increment

    [[
      for i := len(x.ctr) - 1; i >= 0; i-- {
          x.ctr[i]++
          if x.ctr[i] != 0 { break }
      }
    ]]
    [incr_loop n c] runs the loop from [i = n - 1]; the index stays below
    [len(x.ctr)], so no access is out of range. *)
Fixpoint incr_loop (n : nat) (c : list byte) : list byte :=
  match n with
  | O => c
  | S i =>
      let c' := <[i := byte_inc (nth i c byte_zero)]> c in
      if byte_is_zero (nth i c' byte_zero) then incr_loop i c' else c'
  end.

Definition incr (c : list byte) : list byte := incr_loop (length c) c.

(** ** The two capabilities the engine is given

    [cipher.Block]: a block size and [Encrypt(dst, src)], which writes one
    block to the front of [dst]; [Encrypt blk src] is the block written.
    [io.ReaderAt]: [ReadAt(p, off)] fills [p] and returns a count and an
    error; [read_at r p off] is the buffer after the call, the count and the
    error ([None] for [nil]). *)

Record Block : Type := { BlockSize : nat; Encrypt : list byte -> list byte }.

Definition Block_ok (blk : Block) : Prop :=
  forall src, length src = BlockSize blk -> length (Encrypt blk src) = BlockSize blk.

Definition error : Type := string.

Record ReaderAt : Type :=
  { read_at : list byte -> Z -> list byte * Z * option error }.

Definition ReaderAt_ok (rd : ReaderAt) : Prop :=
  forall p off, length (read_at rd p off).1.1 = length p.

(** ** Slices *)

Record slice : Type := { arr : list byte; len : nat }.

Definition cap (s : slice) : nat := length (arr s).

(** The elements of a slice, [s[0] .. s[len(s)-1]]. *)
Definition elems (s : slice) : list byte := take (len s) (arr s).

(** [s[i:]], which panics unless [0 <= i <= len(s)]. *)
Definition slice_from (s : slice) (i : Z) : result slice :=
  if ((0 <=? i) && (i <=? Z.of_nat (len s)))%Z
  then Ok {| arr := drop (Z.to_nat i) (arr s); len := len s - Z.to_nat i |}
  else Panic "slice bounds out of range".

(** The builtin [copy(dst, src)] on the elements of [dst]. *)
Definition copy (dst src : list byte) : list byte :=
  let n := Nat.min (length dst) (length src) in
  take n src ++ drop n dst.

(** [copy(s, src)] seen on the backing array of [s]. *)
Definition copy_slice (s : slice) (src : list byte) : slice :=
  let n := Nat.min (len s) (length src) in
  {| arr := take n src ++ drop n (arr s); len := len s |}.

(** [[
      func dup(p []byte) []byte {
          q := make([]byte, len(p))
          copy(q, p)
          return q
      }
    ]] *)
Definition dup (p : list byte) : list byte :=
  let q := replicate (length p) byte_zero in
  copy q p.

(** [[
      func xorBytes(dst, a, b []byte) int {
          n := len(a)
          if len(b) < n { n = len(b) }
          for i := 0; i < n; i++ { dst[i] = a[i] ^ b[i] }
          return n
      }
    ]]
    The result is [dst] after the call and [n]; [dst[i]] panics when [dst] is
    shorter than [n]. *)
Definition xorBytes (dst a c : list byte) : result (list byte * nat) :=
  let n := length a in
  let n := if length c <? n then length c else n in
  if n <=? length dst
  then Ok (zip_with byte.xor (take n a) (take n c) ++ drop n dst, n)
  else Panic "index out of range".

(** ** The keystream state

    [ctrState] of [src/aesctr/ctr.go]; in [src/unnamed/part_000] the same three
    fields are part of the engine itself, and [refill] and [XORKeyStream] have
    the same bodies there, with [x.b] for [c.b]. *)

Module State.
Record ctrState : Type :=
  { ctr : list byte; out : slice; outUsed : nat }.
End State.
Abbreviation ctrState := State.ctrState.

(** [b.Encrypt(o[i:], c)]: one block written at index [i] of [o]. *)
Definition encrypt_into (o : slice) (i : nat) (block : list byte) : slice :=
  {| arr := take i (arr o) ++ block ++ drop (i + length block) (arr o);
     len := len o |}.

(** [[
      for remain <= len(x.out)-bs {
          c.b.Encrypt(x.out[remain:], x.ctr)
          remain += bs
          // Increment counter
          ...
      }
    ]]
    The loop is common to [refill] and to [setCTR].  [fuel] bounds the number
    of turns. *)
Fixpoint refill_loop (fuel : nat) (blk : Block) (c : list byte) (o : slice)
    (remain : nat) : result (list byte * slice * nat) :=
  if (Z.of_nat remain <=? Z.of_nat (len o) - Z.of_nat (BlockSize blk))%Z then
    match fuel with
    | O => Timeout
    | S fuel' =>
        let o' := encrypt_into o remain (Encrypt blk c) in
        let remain' := remain + BlockSize blk in
        refill_loop fuel' blk (incr c) o' remain'
    end
  else Ok (c, o, remain).

(** [[
      func (x *ctrState) refill(c *ctr) {
          remain := len(x.out) - x.outUsed
          copy(x.out, x.out[x.outUsed:])
          x.out = x.out[:cap(x.out)]
          bs := c.b.BlockSize()
          for remain <= len(x.out)-bs { ... }
          x.out = x.out[:remain]
          x.outUsed = 0
      }
    ]]
    Every turn of the loop adds [bs] to [remain], which starts at or below
    [cap(x.out)]: with [bs > 0] the loop leaves within [cap(x.out) + 1] turns,
    and with [bs = 0] it never does ([refill_loop_enough],
    [refill_loop_zero_block]). *)
Definition refill (blk : Block) (x : ctrState) : result ctrState :=
  if State.outUsed x <=? len (State.out x) then
    let remain := len (State.out x) - State.outUsed x in
    let o1 :=
      copy_slice (State.out x) (drop (State.outUsed x) (elems (State.out x))) in
    let o2 := {| arr := arr o1; len := cap o1 |} in
    do '(c, o3, remain') <- refill_loop (S (cap o2)) blk (State.ctr x) o2 remain;
    Ok {| State.ctr := c;
          State.out := {| arr := arr o3; len := remain' |};
          State.outUsed := 0 |}
  else Panic "slice bounds out of range".

(** One turn of the loop of [XORKeyStream]:
    [[
      if x.outUsed >= len(x.out)-c.b.BlockSize() {
          x.refill(c)
      }
      n := xorBytes(dst, src, x.out[x.outUsed:])
      ...
      x.outUsed += n
    ]]
    [top_up] is the conditional refill and [consume] the rest. *)
Definition needs_refill (blk : Block) (x : ctrState) : bool :=
  (Z.of_nat (State.outUsed x) >=?
   Z.of_nat (len (State.out x)) - Z.of_nat (BlockSize blk))%Z.

Definition top_up (blk : Block) (x : ctrState) : result ctrState :=
  if needs_refill blk x then refill blk x else Ok x.

Definition consume (x : ctrState) (dst src : list byte)
    : result (ctrState * list byte * nat) :=
  do tail <- slice_from (State.out x) (Z.of_nat (State.outUsed x));
  do '(dst', n) <- xorBytes dst src (elems tail);
  Ok ({| State.ctr := State.ctr x;
         State.out := State.out x;
         State.outUsed := State.outUsed x + n |}, dst', n).

Definition XORKeyStream_step (blk : Block) (x : ctrState) (dst src : list byte)
    : result (ctrState * list byte * nat) :=
  do x1 <- top_up blk x;
  consume x1 dst src.

(** [[
      func (x *ctrState) XORKeyStream(dst, src []byte, c *ctr) {
          for len(src) > 0 {
              ...
              dst = dst[n:]
              src = src[n:]
              x.outUsed += n
          }
      }
    ]]
    The result is the final state and the bytes of the caller's [dst].  In
    [ReadAt] both [dst] and [src] are the buffer [p]: a turn reads and writes
    the same [n] leading bytes and both slices then move past them, so the
    bytes still to be read are never written before. *)
Fixpoint XORKeyStream (fuel : nat) (blk : Block) (x : ctrState)
    (dst src : list byte) : result (ctrState * list byte) :=
  match src with
  | [] => Ok (x, dst)
  | _ :: _ =>
      match fuel with
      | O => Timeout
      | S fuel' =>
          do '(x1, dst1, n) <- XORKeyStream_step blk x dst src;
          do '(x2, rest) <- XORKeyStream fuel' blk x1 (drop n dst1) (drop n src);
          Ok (x2, take n dst1 ++ rest)
      end
  end.

(** [const streamBufferSize = 512], and the buffer size that
    [NewCTRReaderAt] derives from it. *)
Definition streamBufferSize : nat := 512.

Definition bufSize_for (block : Block) : nat :=
  let bufSize := streamBufferSize in
  if bufSize <? BlockSize block then BlockSize block else bufSize.

(** ** The engine of [src/aesctr/ctr.go] *)

Module Stateless.

Record ctr : Type :=
  { b : Block; iv : list byte; bs : nat; r : ReaderAt }.

(** [[
      func NewCTRReaderAt(block cipher.Block, iv []byte, reader io.ReaderAt) io.ReaderAt {
          if len(iv) != block.BlockSize() {
              panic("cipher.NewCTR: IV length must equal block size")
          }
          bufSize := streamBufferSize
          if bufSize < block.BlockSize() { bufSize = block.BlockSize() }
          return &ctr{b: block, iv: dup(iv), bs: bufSize, r: reader}
      }
    ]] *)
Definition NewCTRReaderAt (block : Block) (iv0 : list byte) (reader : ReaderAt)
    : result ctr :=
  if negb (length iv0 =? BlockSize block)
  then Panic "cipher.NewCTR: IV length must equal block size"
  else Ok {| b := block; iv := dup iv0; bs := bufSize_for block; r := reader |}.

(** [[
      for i := len(x.ctr) - 1; bN != 0 && i >= 0; i-- {
          mod := byte(bN % 256)
          bN >>= 8
          tmp := x.ctr[i]
          x.ctr[i] += mod
          if x.ctr[i] < tmp { // carry over
              bN++
          }
      }
    ]]
    [initCTR_loop n c bN] runs the loop from [i = n - 1]. *)
Fixpoint initCTR_loop (n : nat) (c : list byte) (bN : Z) : list byte :=
  match n with
  | O => c
  | S i =>
      if (bN =? 0)%Z then c else
      let mod_ := byte.of_Z (Z.rem bN 256) in
      let bN1 := Z.shiftr bN 8 in
      let tmp := nth i c byte_zero in
      let c' := <[i := byte_add tmp mod_]> c in
      let bN2 :=
        if byte_ltb (nth i c' byte_zero) tmp then wrap64 (bN1 + 1) else bN1 in
      initCTR_loop i c' bN2
  end.

(** The counter [initCTR] hands to [refill]. *)
Definition initCTR_counter (c : ctr) (bN : Z) : list byte :=
  let x_ctr := dup (iv c) in
  let x_ctr := copy x_ctr (iv c) in
  initCTR_loop (length x_ctr) x_ctr bN.

(** [[
      func initCTR(c *ctr, bN, bOff int64) *ctrState {
          x := &ctrState{ctr: dup(c.iv), out: make([]byte, 0, c.bs), outUsed: 0}
          copy(x.ctr, c.iv)
          for ... { ... }
          x.refill(c)
          x.out = x.out[bOff:]
          return x
      }
    ]] *)
Definition initCTR (c : ctr) (bN bOff : Z) : result ctrState :=
  let x := {| State.ctr := initCTR_counter c bN;
              State.out := {| arr := replicate (bs c) byte_zero; len := 0 |};
              State.outUsed := 0 |} in
  do x1 <- refill (b c) x;
  do o <- slice_from (State.out x1) bOff;
  Ok {| State.ctr := State.ctr x1; State.out := o;
        State.outUsed := State.outUsed x1 |}.

(** [[
      func (c *ctr) ReadAt(p []byte, off int64) (n int, err error) {
          bOff := off % int64(c.b.BlockSize())
          bStart := off - bOff
          bN := bStart / int64(c.b.BlockSize())
          state := initCTR(c, bN, bOff)
          n, err = c.r.ReadAt(p, off)
          if err != nil { return }
          state.XORKeyStream(p, p, c)
          return
      }
    ]]
    The result is [p] after the call, [n] and [err].  [%] and [/] truncate
    toward zero ([Z.rem], [Z.quot]) and panic on a zero divisor; neither
    they nor the subtraction can leave the [int64] range.  [fuel] bounds the
    turns of the loop of [XORKeyStream]. *)
Definition ReadAt (fuel : nat) (c : ctr) (p : list byte) (off : Z)
    : result (list byte * Z * option error) :=
  if BlockSize (b c) =? 0 then Panic "integer divide by zero" else
  let bOff := Z.rem off (Z.of_nat (BlockSize (b c))) in
  let bStart := (off - bOff)%Z in
  let bN := Z.quot bStart (Z.of_nat (BlockSize (b c))) in
  do state <- initCTR c bN bOff;
  let '(p1, n, err) := read_at (r c) p off in
  match err with
  | Some e => Ok (p1, n, Some e)
  | None =>
      do '(_, p2) <- XORKeyStream fuel (b c) state p1 p1;
      Ok (p2, n, None)
  end.

(** What [NewCTRReaderAt] establishes: the initial counter is one block
    long and the buffer size is at least one block. *)
Definition engine_ok (c : ctr) : Prop :=
  length (iv c) = BlockSize (b c) /\ BlockSize (b c) <= bs c.

End Stateless.

(** ** The engine of [src/unnamed/part_000]

    The fields [ctr], [out] and [outUsed] of the struct are the component [st];
    the mutex [rl] is held for the whole of [ReadAt], so calls run one after
    the other and each takes the engine the previous one left. *)

Module Shared.

Record ctr : Type :=
  { b : Block; iv : list byte; st : ctrState; r : ReaderAt }.

(** As in the other engine, with
    [[
      return &ctr{b: block, iv: dup(iv), ctr: dup(iv),
                  out: make([]byte, 0, bufSize), outUsed: 0, r: reader}
    ]] *)
Definition NewCTRReaderAt (block : Block) (iv0 : list byte) (reader : ReaderAt)
    : result ctr :=
  if negb (length iv0 =? BlockSize block)
  then Panic "cipher.NewCTR: IV length must equal block size"
  else Ok {| b := block;
             iv := dup iv0;
             st := {| State.ctr := dup iv0;
                      State.out := {| arr := replicate (bufSize_for block) byte_zero;
                                      len := 0 |};
                      State.outUsed := 0 |};
             r := reader |}.

(** The counter after the first loop of [setCTR]:
    [[
      copy(x.ctr, x.iv)
      for j := int64(0); j < bN; j++ {
          for i := len(x.ctr) - 1; i >= 0; i-- { ... }
      }
    ]] *)
Definition setCTR_counter (x : ctr) (bN : Z) : list byte :=
  let x_ctr := copy (State.ctr (st x)) (iv x) in
  Nat.iter (Z.to_nat bN) incr x_ctr.

(** [[
      func (x *ctr) setCTR(bN int64) {
          x.outUsed = 0
          copy(x.ctr, x.iv)
          for j := int64(0); j < bN; j++ { ... }
          remain := 0
          bs := x.b.BlockSize()
          for remain <= len(x.out)-bs { ... }
          x.out = x.out[:remain]
      }
    ]] *)
Definition setCTR (x : ctr) (bN : Z) : result ctr :=
  let o := State.out (st x) in
  do '(c, o', remain) <- refill_loop (S (len o)) (b x) (setCTR_counter x bN) o 0;
  Ok {| b := b x; iv := iv x;
        st := {| State.ctr := c;
                 State.out := {| arr := arr o'; len := remain |};
                 State.outUsed := 0 |};
        r := r x |}.

(** [[
      func (x *ctr) ReadAt(p []byte, off int64) (n int, err error) {
          bOff := off % int64(x.b.BlockSize())
          bStart := off - bOff
          bN := bStart / int64(x.b.BlockSize())
          x.rl.Lock()
          defer x.rl.Unlock()
          x.setCTR(bN)
          n, err = x.r.ReadAt(p, off)
          if err != nil { return }
          x.XORKeyStream(p, p)
          return
      }
    ]]
    The result is the engine after the call, [p] after the call, [n] and
    [err]. *)
Definition ReadAt (fuel : nat) (x : ctr) (p : list byte) (off : Z)
    : result (ctr * list byte * Z * option error) :=
  if BlockSize (b x) =? 0 then Panic "integer divide by zero" else
  let bOff := Z.rem off (Z.of_nat (BlockSize (b x))) in
  let bStart := (off - bOff)%Z in
  let bN := Z.quot bStart (Z.of_nat (BlockSize (b x))) in
  do x1 <- setCTR x bN;
  let '(p1, n, err) := read_at (r x1) p off in
  match err with
  | Some e => Ok (x1, p1, n, Some e)
  | None =>
      do '(s2, p2) <- XORKeyStream fuel (b x1) (st x1) p1 p1;
      Ok ({| b := b x1; iv := iv x1; st := s2; r := r x1 |}, p2, n, None)
  end.

(** The engines that a sequence of calls of [ReadAt] can produce from [x0]. *)
Inductive reachable (x0 : ctr) : ctr -> Prop :=
| reach_init : reachable x0 x0
| reach_read fuel x p off x' q n e :
    reachable x0 x ->
    ReadAt fuel x p off = Ok (x', q, n, e) ->
    reachable x0 x'.

(** What every engine made by [NewCTRReaderAt] and used through [ReadAt]
    satisfies: the counter has the length of the initial counter, which is
    the block size, and the buffer can hold a block. *)
Definition engine_ok (x : ctr) : Prop :=
  length (iv x) = BlockSize (b x) /\
  length (State.ctr (st x)) = BlockSize (b x) /\
  len (State.out (st x)) <= cap (State.out (st x)) /\
  BlockSize (b x) <= cap (State.out (st x)).

End Shared.

(** ** Reference definitions

    Counter mode as the specification states it: the keystream is the cipher
    applied to the initial counter, to its successor, and so on; the data is
    combined with it byte by byte. *)

Fixpoint blocks (blk : Block) (k : nat) (c : list byte) : list byte :=
  match k with
  | O => []
  | S k' => Encrypt blk c ++ blocks blk k' (incr c)
  end.

(** The first [n] bytes of the keystream that starts at counter [c]. *)
Definition keystream (blk : Block) (c : list byte) (n : nat) : list byte :=
  take n (blocks blk n c).

Definition xor_with (data ks : list byte) : list byte :=
  zip_with byte.xor data ks.

(** Sequential counter-mode encryption of [data] under [iv0]. *)
Definition stdCTR (blk : Block) (iv0 : list byte) (data : list byte) : list byte :=
  xor_with data (keystream blk iv0 (length data)).

(** Bytes [off, off + n) of the keystream of [iv0]. *)
Definition keystream_at (blk : Block) (iv0 : list byte) (off n : nat) : list byte :=
  drop off (keystream blk iv0 (off + n)).

(** The counter for block [k]: [k] increments of the initial counter. *)
Definition counter_at (iv0 : list byte) (k : nat) : list byte :=
  Nat.iter k incr iv0.

(** The counter of a block as the specification states it: the initial
    counter plus the block index, both read as big-endian unsigned integers,
    reduced modulo [2^(8*B)] and written on the [B] bytes of the initial
    counter.  [be_bytes B v] is [v] modulo [2^(8*B)] on [B] bytes, most
    significant byte first. *)
Fixpoint be_bytes (B : nat) (v : Z) : list byte :=
  match B with
  | O => []
  | S B' => be_bytes B' (v / 256) ++ [byte.of_Z v]
  end.

Definition counter_plus (iv0 : list byte) (n : Z) : list byte :=
  be_bytes (length iv0) (be_value iv0 + n).

(** The cipher applied to the counters of the [k] blocks from block [j0]
    on, one after the other. *)
Definition counter_blocks (blk : Block) (iv0 : list byte) (j0 : Z) (k : nat)
    : list byte :=
  flat_map (fun j => Encrypt blk (counter_plus iv0 (j0 + Z.of_nat j))) (seq 0 k).

(** What a read on the shared engine returns, stated on the cipher, the
    initial counter, the source, the buffer and the offset alone: the source's
    outcome, with the buffer combined with the keystream of block
    [off / BlockSize] on when the source reports no error. *)
Definition Shared_outcome (blk : Block) (iv0 : list byte) (rd : ReaderAt)
    (p : list byte) (off : Z) : list byte * Z * option error :=
  let bOff := Z.rem off (Z.of_nat (BlockSize blk)) in
  let bN := Z.quot (off - bOff) (Z.of_nat (BlockSize blk)) in
  let '(p1, n, err) := read_at rd p off in
  match err with
  | Some e => (p1, n, Some e)
  | None =>
      (xor_with p1 (keystream blk (counter_at iv0 (Z.to_nat bN)) (length p1)), n, None)
  end.

(** The number of whole blocks that fit between [remain] and [limit]. *)
Definition fitting (blk : Block) (limit remain : nat) : nat :=
  (limit - remain) / BlockSize blk.

(** The unconsumed bytes of the keystream buffer, [x.out[x.outUsed:]]. *)
Definition unconsumed (x : ctrState) : list byte :=
  drop (State.outUsed x) (elems (State.out x)).

(** The next [n] bytes of keystream a state will hand out: its unconsumed
    bytes, then the blocks from its counter on. *)
Definition pending (blk : Block) (x : ctrState) (n : nat) : list byte :=
  take n (unconsumed x ++ blocks blk n (State.ctr x)).

(** The states the engines keep: the cursor is inside the slice, the slice
    inside its array. *)
Definition state_ok (x : ctrState) : Prop :=
  State.outUsed x <= len (State.out x) /\ len (State.out x) <= cap (State.out x).

(** The panics of the Go runtime that the code of the engines can raise. *)
Definition runtime_panic (msg : string) : Prop :=
  msg = "integer divide by zero"%string \/
  msg = "slice bounds out of range"%string \/
  msg = "index out of range"%string.

Definition iv_length_panic : string :=
  "cipher.NewCTR: IV length must equal block size"%string.

(** ** Concrete capabilities, for the examples

    A source over a byte string, after [bytes.Reader.ReadAt], which the
    repository's test uses: a negative offset is an error, an offset at or past
    the end returns [0, io.EOF], a short copy returns [io.EOF] with the count. *)

Definition EOF : error := "EOF"%string.

Definition bytesReader (s : list byte) : ReaderAt :=
  {| read_at p off :=
       if (off <? 0)%Z then
         (p, 0%Z, Some "bytes.Reader.ReadAt: negative offset"%string)
       else if (off >=? Z.of_nat (length s))%Z then (p, 0%Z, Some EOF)
       else
         let src := drop (Z.to_nat off) s in
         let n := Nat.min (length p) (length src) in
         (copy p src, Z.of_nat n, if n <? length p then Some EOF else None) |}.

(** A toy cipher with blocks of [n] bytes: every byte of the block plus 7. *)
Definition toyBlock (n : nat) : Block :=
  {| BlockSize := n; Encrypt src := map (fun a => byte_add a (byte.of_Z 7)) src |}.

Definition bytes_of (l : list Z) : list byte := map byte.of_Z l.


(** The example of the repository's test, scaled down: blocks of 4 bytes, an
    initial counter that ends in [0xFF], the plaintext [0, 1, ..., 11]
    encrypted sequentially, and a source over the ciphertext. *)
Definition ex_blk : Block := toyBlock 4.
Definition ex_iv : list byte := bytes_of [0; 0; 0; 255]%Z.
Definition ex_plain : list byte := bytes_of [0; 1; 2; 3; 4; 5; 6; 7; 8; 9; 10; 11]%Z.
Definition ex_cipher : list byte := stdCTR ex_blk ex_iv ex_plain.
Definition ex_src : ReaderAt := bytesReader ex_cipher.

Definition ex_stateless : Stateless.ctr :=
  {| Stateless.b := ex_blk; Stateless.iv := ex_iv;
     Stateless.bs := 512; Stateless.r := ex_src |}.

Definition ex_shared : Shared.ctr :=
  {| Shared.b := ex_blk; Shared.iv := ex_iv;
     Shared.st := {| State.ctr := ex_iv;
                     State.out := {| arr := replicate 512 byte_zero; len := 0 |};
                     State.outUsed := 0 |};
     Shared.r := ex_src |}.

(** A cipher with blocks of 1024 bytes, for which [NewCTRReaderAt] raises the
    buffer size to one block. *)
Definition big_blk : Block := toyBlock 1024.
Definition big_iv : list byte := replicate 1024 byte_zero.
Definition big_src : ReaderAt := bytesReader (replicate 4096 byte_zero).

Definition big_stateless : Stateless.ctr :=
  {| Stateless.b := big_blk; Stateless.iv := big_iv;
     Stateless.bs := 1024; Stateless.r := big_src |}.

(** A keystream state in mid-use: a buffer of six bytes in an array of ten,
    five of them consumed. *)
Definition ex_state : ctrState :=
  {| State.ctr := ex_iv;
     State.out := {| arr := bytes_of [9; 8; 7; 6; 5; 4; 3; 2; 1; 0]%Z; len := 6 |};
     State.outUsed := 5 |}.


(** A source over the plaintext of the example, for reads that encrypt. *)
Definition ex_plain_src : ReaderAt := bytesReader ex_plain.

Definition ex_stateless_plain : Stateless.ctr :=
  {| Stateless.b := ex_blk; Stateless.iv := ex_iv;
     Stateless.bs := 512; Stateless.r := ex_plain_src |}.
(** ** Lemmas on bytes *)

Lemma byte_unsigned_zero : byte.unsigned byte_zero = 0%Z.
Proof. reflexivity. Qed.

Lemma byte_unsigned_ff : byte.unsigned byte_ff = 255%Z.
Proof. reflexivity. Qed.

Lemma byte_inc_unsigned a :
  byte.unsigned (byte_inc a) = ((byte.unsigned a + 1) mod 256)%Z.
Proof. unfold byte_inc. now rewrite byte.unsigned_of_Z. Qed.

Lemma byte_add_unsigned a m :
  byte.unsigned (byte_add a m) = ((byte.unsigned a + byte.unsigned m) mod 256)%Z.
Proof. unfold byte_add. now rewrite byte.unsigned_of_Z. Qed.

Lemma byte_range a : (0 <= byte.unsigned a < 256)%Z.
Proof. apply byte.unsigned_range. Qed.

Lemma byte_inc_zero_iff a : byte_is_zero (byte_inc a) = true <-> a = byte_ff.
Proof.
  unfold byte_is_zero. rewrite byte_inc_unsigned, Z.eqb_eq.
  pose proof (byte_range a) as Ha. split.
  - intros H. apply byte.unsigned_inj. rewrite byte_unsigned_ff.
    destruct (Z.eq_dec (byte.unsigned a) 255%Z) as [|Hne]; [assumption|].
    rewrite Z.mod_small in H by lia. lia.
  - intros ->. reflexivity.
Qed.

Lemma byte_inc_ff : byte_inc byte_ff = byte_zero.
Proof. reflexivity. Qed.

Lemma byte_xor_involutive (a k : byte) : byte.xor (byte.xor a k) k = a.
Proof.
  unfold byte.xor. apply byte.unsigned_inj.
  rewrite !byte.unsigned_of_Z. unfold byte.wrap.
  pose proof (byte_range a) as Ha. pose proof (byte_range k) as Hk.
  assert (Hx : (0 <= Z.lxor (byte.unsigned a) (byte.unsigned k) < 2 ^ 8)%Z).
  { split.
    - apply Z.lxor_nonneg. lia.
    - destruct (Z.eq_dec (Z.lxor (byte.unsigned a) (byte.unsigned k)) 0%Z) as [->|Hne];
        [reflexivity|].
      apply Z.log2_lt_pow2.
      + pose proof (Z.lxor_nonneg (byte.unsigned a) (byte.unsigned k)). lia.
      + eapply Z.le_lt_trans; [apply Z.log2_lxor; lia|].
        destruct (Z.eq_dec (byte.unsigned a) 0%Z) as [Ha0|Ha0];
        destruct (Z.eq_dec (byte.unsigned k) 0%Z) as [Hk0|Hk0].
        * rewrite Ha0, Hk0 in Hne. now elim Hne.
        * rewrite Ha0. simpl Z.log2 at 1. rewrite Z.max_r by apply Z.log2_nonneg.
          apply Z.log2_lt_pow2; lia.
        * rewrite Hk0. simpl Z.log2 at 2. rewrite Z.max_l by apply Z.log2_nonneg.
          apply Z.log2_lt_pow2; lia.
        * apply Z.max_lub_lt; apply Z.log2_lt_pow2; lia. }
  rewrite (Z.mod_small _ _ Hx).
  rewrite Z.lxor_assoc, Z.lxor_nilpotent, Z.lxor_0_r.
  apply Z.mod_small. change (2 ^ 8)%Z with 256%Z. lia.
Qed.

(** ** Lemmas on the increment *)

Lemma length_incr_loop n c : length (incr_loop n c) = length c.
Proof.
  revert c. induction n as [|i IH]; intros c; simpl; [reflexivity|].
  destruct (byte_is_zero _); [rewrite IH|]; apply length_insert.
Qed.

Lemma length_incr c : length (incr c) = length c.
Proof. apply length_incr_loop. Qed.

(** The loop never looks to the right of its starting index. *)
Lemma incr_loop_app n l suf :
  n <= length l -> incr_loop n (l ++ suf) = incr_loop n l ++ suf.
Proof.
  revert l. induction n as [|i IH]; intros l Hn; simpl; [reflexivity|].
  rewrite (app_nth1 l suf) by lia.
  rewrite insert_app_l by lia.
  rewrite (app_nth1 (<[i:=_]> l) suf) by (rewrite length_insert; lia).
  destruct (byte_is_zero _); [|reflexivity].
  apply IH. rewrite length_insert. lia.
Qed.

Lemma incr_nil : incr [] = [].
Proof. reflexivity. Qed.

(** One turn of the loop, seen on the last byte. *)
Lemma incr_snoc pre a :
  incr (pre ++ [a]) =
  if byte_is_zero (byte_inc a) then incr pre ++ [byte_zero] else pre ++ [byte_inc a].
Proof.
  unfold incr. rewrite length_app, Nat.add_1_r. simpl incr_loop.
  rewrite nth_middle.
  replace (<[length pre:=byte_inc a]> (pre ++ [a])) with (pre ++ [byte_inc a]).
  2:{ rewrite insert_app_r_alt by lia. now rewrite Nat.sub_diag. }
  rewrite nth_middle.
  destruct (byte_is_zero (byte_inc a)) eqn:Hz; [|reflexivity].
  rewrite incr_loop_app by lia. do 2 f_equal.
  apply byte.unsigned_inj. unfold byte_is_zero in Hz.
  apply Z.eqb_eq in Hz. now rewrite Hz.
Qed.

Lemma incr_all_ff n : incr (repeat byte_ff n) = repeat byte_zero n.
Proof.
  induction n as [|n IH]; [reflexivity|].
  cbn [repeat]. rewrite !repeat_cons, incr_snoc, byte_inc_ff. simpl. now rewrite IH.
Qed.

Lemma incr_carry_chain pre a k :
  incr (pre ++ a :: repeat byte_ff k) =
  (if byte_is_zero (byte_inc a) then incr pre ++ [byte_zero] else pre ++ [byte_inc a])
    ++ repeat byte_zero k.
Proof.
  induction k as [|k IH].
  - simpl. rewrite app_nil_r. apply incr_snoc.
  - cbn [repeat]. rewrite !repeat_cons.
    replace (pre ++ a :: repeat byte_ff k ++ [byte_ff])
      with ((pre ++ a :: repeat byte_ff k) ++ [byte_ff])
      by (now rewrite <- app_assoc).
    rewrite incr_snoc, byte_inc_ff. simpl. rewrite IH.
    now rewrite <- !app_assoc.
Qed.

(** ** Lemmas on the big-endian value *)

Lemma be_value_nil : be_value [] = 0%Z.
Proof. reflexivity. Qed.

Lemma be_value_snoc l a :
  be_value (l ++ [a]) = (be_value l * 256 + byte.unsigned a)%Z.
Proof. unfold be_value. now rewrite fold_left_app. Qed.

Lemma be_value_range l : (0 <= be_value l < 256 ^ Z.of_nat (length l))%Z.
Proof.
  induction l as [|a l IH] using rev_ind.
  - simpl. rewrite be_value_nil. lia.
  - rewrite be_value_snoc, length_app, Nat2Z.inj_add, Z.pow_add_r by lia.
    simpl length. change (256 ^ Z.of_nat 1)%Z with 256%Z.
    pose proof (byte_range a). nia.
Qed.

Lemma be_value_inj l1 l2 :
  length l1 = length l2 -> be_value l1 = be_value l2 -> l1 = l2.
Proof.
  revert l2. induction l1 as [|a l1 IH] using rev_ind; intros l2 Hlen Hv.
  - destruct l2; [reflexivity|discriminate].
  - destruct l2 as [|c l2 _] using rev_ind.
    { rewrite length_app in Hlen. simpl in Hlen. lia. }
    rewrite !length_app in Hlen. simpl in Hlen.
    rewrite !be_value_snoc in Hv.
    pose proof (byte_range a). pose proof (byte_range c).
    assert (be_value l1 = be_value l2 /\ byte.unsigned a = byte.unsigned c) as [Hq Hr]
      by lia.
    f_equal; [apply IH; [lia|assumption]|].
    f_equal. now apply byte.unsigned_inj.
Qed.

Lemma be_value_incr c :
  be_value (incr c) = ((be_value c + 1) mod 256 ^ Z.of_nat (length c))%Z.
Proof.
  induction c as [|a pre IH] using rev_ind; [reflexivity|].
  rewrite incr_snoc, length_app, Nat2Z.inj_add, Z.pow_add_r by lia.
  simpl length. change (256 ^ Z.of_nat 1)%Z with 256%Z.
  pose proof (be_value_range pre) as Hpre. pose proof (byte_range a) as Ha.
  destruct (byte_is_zero (byte_inc a)) eqn:Hz.
  - apply byte_inc_zero_iff in Hz. subst a.
    rewrite !be_value_snoc, IH, byte_unsigned_zero, byte_unsigned_ff.
    replace (be_value pre * 256 + 255 + 1)%Z with ((be_value pre + 1) * 256)%Z by lia.
    rewrite Z.mul_mod_distr_r by lia. lia.
  - assert (a <> byte_ff) as Hne.
    { intros ->. rewrite byte_inc_ff in Hz. discriminate. }
    assert (byte.unsigned a <> 255%Z) as Hne'.
    { intros E. apply Hne. apply byte.unsigned_inj. now rewrite byte_unsigned_ff. }
    rewrite !be_value_snoc, byte_inc_unsigned.
    rewrite (Z.mod_small (byte.unsigned a + 1)) by lia.
    rewrite Z.mod_small by nia. lia.
Qed.

Lemma pow256_pow2 n : (256 ^ Z.of_nat n = 2 ^ (8 * Z.of_nat n))%Z.
Proof. rewrite Z.pow_mul_r by lia. reflexivity. Qed.

Lemma be_value_iter_incr k c :
  be_value (Nat.iter k incr c) =
  ((be_value c + Z.of_nat k) mod 256 ^ Z.of_nat (length c))%Z.
Proof.
  induction k as [|k IH].
  - simpl. rewrite Z.add_0_r. symmetry. apply Z.mod_small, be_value_range.
  - assert (Hlen : length (Nat.iter k incr c) = length c).
    { clear IH. induction k; simpl; [reflexivity|]. now rewrite length_incr. }
    change (Nat.iter (S k) incr c) with (incr (Nat.iter k incr c)).
    rewrite be_value_incr, Hlen, IH.
    rewrite Zplus_mod_idemp_l. f_equal. lia.
Qed.

Lemma length_iter_incr k c : length (Nat.iter k incr c) = length c.
Proof. induction k; simpl; [reflexivity|]. now rewrite length_incr. Qed.

(** ** Lemmas on [copy] and [dup] *)

Lemma copy_same_length dst src : length dst = length src -> copy dst src = src.
Proof.
  intros H. unfold copy. rewrite H, Nat.min_id.
  rewrite firstn_all, <- H, drop_all. apply app_nil_r.
Qed.

Lemma dup_id p : dup p = p.
Proof. unfold dup. apply copy_same_length. apply length_replicate. Qed.

(** C4.  The increment is a big-endian increment: it keeps the length and
    adds one to the big-endian value modulo [2^(8*len)] without ever failing
    ([incr] is a total function); on a counter that ends in [k] bytes [0xFF]
    after a byte [a] it zeroes those [k] bytes, adds one to [a] and, unless
    [a] itself wrapped to zero, leaves the bytes before [a] as they were; and
    the counter of all [0xFF] becomes the counter of all zero. *)
Theorem incr_big_endian_carry :
  forall (c pre : list byte) (a : byte) (k n : nat),
    length (incr c) = length c /\
    be_value (incr c) = ((be_value c + 1) mod 2 ^ (8 * Z.of_nat (length c)))%Z /\
    incr (pre ++ a :: repeat byte_ff k) =
      (if byte_is_zero (byte_inc a)
       then incr pre ++ [byte_zero]
       else pre ++ [byte_inc a]) ++ repeat byte_zero k /\
    (byte_is_zero (byte_inc a) = true <-> a = byte_ff) /\
    incr (repeat byte_ff n) = repeat byte_zero n.
Proof.
  intros c pre a k n. repeat split.
  - apply length_incr.
  - rewrite <- pow256_pow2. apply be_value_incr.
  - apply incr_carry_chain.
  - apply byte_inc_zero_iff.
  - apply byte_inc_zero_iff.
  - apply incr_all_ff.
Qed.

(** ** The direct addition of [initCTR] *)

Lemma initCTR_loop_app n l suf bN :
  n <= length l ->
  Stateless.initCTR_loop n (l ++ suf) bN = Stateless.initCTR_loop n l bN ++ suf.
Proof.
  revert l bN. induction n as [|i IH]; intros l bN Hn; simpl; [reflexivity|].
  destruct (bN =? 0)%Z; [reflexivity|].
  rewrite (app_nth1 l suf) by lia.
  rewrite insert_app_l by lia.
  rewrite (app_nth1 (<[i:=_]> l) suf) by (rewrite length_insert; lia).
  apply IH. rewrite length_insert. lia.
Qed.

Lemma initCTR_loop_snoc pre a bN :
  Stateless.initCTR_loop (length (pre ++ [a])) (pre ++ [a]) bN =
  if (bN =? 0)%Z then pre ++ [a] else
    let a' := byte_add a (byte.of_Z (Z.rem bN 256)) in
    let bN1 := Z.shiftr bN 8 in
    Stateless.initCTR_loop (length pre) pre
      (if byte_ltb a' a then wrap64 (bN1 + 1) else bN1) ++ [a'].
Proof.
  rewrite length_app, Nat.add_1_r. simpl Stateless.initCTR_loop.
  destruct (bN =? 0)%Z; [reflexivity|].
  rewrite nth_middle.
  replace (<[length pre:=byte_add a (byte.of_Z (Z.rem bN 256))]> (pre ++ [a]))
    with (pre ++ [byte_add a (byte.of_Z (Z.rem bN 256))]).
  2:{ rewrite insert_app_r_alt by lia. now rewrite Nat.sub_diag. }
  rewrite nth_middle. cbv zeta.
  apply initCTR_loop_app. lia.
Qed.

Lemma length_initCTR_loop n c bN : length (Stateless.initCTR_loop n c bN) = length c.
Proof.
  revert c bN. induction n as [|i IH]; intros c bN; simpl; [reflexivity|].
  destruct (bN =? 0)%Z; [reflexivity|]. rewrite IH. apply length_insert.
Qed.

Lemma wrap64_small z : (- 2 ^ 63 <= z < 2 ^ 63)%Z -> wrap64 z = z.
Proof. intros H. unfold wrap64. rewrite Z.mod_small; lia. Qed.

Lemma mod_shift_byte X M r :
  (0 < M)%Z -> (0 <= r < 256)%Z ->
  ((X * 256 + r) mod (M * 256) = (X mod M) * 256 + r)%Z.
Proof.
  intros HM Hr.
  pose proof (Z.div_mod X M ltac:(lia)) as HX.
  pose proof (Z.mod_pos_bound X M HM) as Hs.
  symmetry. apply (Z.mod_unique _ _ (X / M)); [left; nia|]. nia.
Qed.

Lemma be_value_initCTR_loop c bN :
  (0 <= bN < 2 ^ 63)%Z ->
  be_value (Stateless.initCTR_loop (length c) c bN) =
  ((be_value c + bN) mod 256 ^ Z.of_nat (length c))%Z.
Proof.
  revert bN. induction c as [|a pre IH] using rev_ind; intros bN HbN.
  - simpl. rewrite be_value_nil. now rewrite Z.mod_1_r.
  - rewrite initCTR_loop_snoc.
    pose proof (be_value_range (pre ++ [a])) as Hrange.
    destruct (Z.eqb_spec bN 0) as [->|Hnz].
    { rewrite Z.add_0_r. symmetry. now apply Z.mod_small. }
    cbv zeta.
    set (m := byte.of_Z (Z.rem bN 256)).
    assert (Hm : byte.unsigned m = (bN mod 256)%Z).
    { unfold m. rewrite byte.unsigned_of_Z. unfold byte.wrap.
      rewrite Z.rem_mod_nonneg by lia. change (2 ^ 8)%Z with 256%Z.
      apply Z.mod_mod. lia. }
    assert (Hshift : Z.shiftr bN 8 = (bN / 256)%Z).
    { rewrite Z.shiftr_div_pow2 by lia. reflexivity. }
    pose proof (byte_range a) as Ha.
    pose proof (Z.mod_pos_bound bN 256 ltac:(lia)) as Hmr.
    pose proof (Z.div_mod bN 256 ltac:(lia)) as Hdm.
    assert (Hq : (0 <= bN / 256 < 2 ^ 55)%Z).
    { split; [apply Z.div_pos; lia|].
      apply Z.div_lt_upper_bound; [lia|].
      change (256 * 2 ^ 55)%Z with (2 ^ 63)%Z. lia. }
    rewrite be_value_snoc, length_app, Nat2Z.inj_add, Z.pow_add_r by lia.
    simpl length. change (256 ^ Z.of_nat 1)%Z with 256%Z.
    assert (HM : (0 < 256 ^ Z.of_nat (length pre))%Z) by (apply Z.pow_pos_nonneg; lia).
    rewrite be_value_snoc, Hshift.
    unfold byte_ltb. rewrite byte_add_unsigned, Hm.
    destruct (Z.ltb_spec ((byte.unsigned a + bN mod 256) mod 256) (byte.unsigned a))
      as [Hc|Hc].
    + (* the byte wrapped: carry *)
      assert (256 <= byte.unsigned a + bN mod 256)%Z as Hge.
      { destruct (Z.lt_ge_cases (byte.unsigned a + bN mod 256) 256) as [Hlt|]; [|assumption].
        rewrite Z.mod_small in Hc by lia. lia. }
      assert ((byte.unsigned a + bN mod 256) mod 256
              = byte.unsigned a + bN mod 256 - 256)%Z as Hval.
      { symmetry. apply (Z.mod_unique _ _ 1); lia. }
      rewrite wrap64_small by (change (2 ^ 55)%Z with 36028797018963968%Z in Hq;
                               change (2 ^ 63)%Z with 9223372036854775808%Z; lia).
      rewrite IH by (change (2 ^ 55)%Z with 36028797018963968%Z in Hq;
                     change (2 ^ 63)%Z with 9223372036854775808%Z; lia).
      rewrite Hval.
      replace (be_value pre * 256 + byte.unsigned a + bN)%Z
        with ((be_value pre + (bN / 256 + 1)) * 256
              + (byte.unsigned a + bN mod 256 - 256))%Z by lia.
      rewrite mod_shift_byte by lia. reflexivity.
    + (* no carry *)
      assert (byte.unsigned a + bN mod 256 < 256)%Z as Hlt.
      { destruct (Z.lt_ge_cases (byte.unsigned a + bN mod 256) 256) as [|Hge]; [assumption|].
        assert ((byte.unsigned a + bN mod 256) mod 256
                = byte.unsigned a + bN mod 256 - 256)%Z as Hval
          by (symmetry; apply (Z.mod_unique _ _ 1); lia).
        lia. }
      rewrite (Z.mod_small (byte.unsigned a + bN mod 256)) by lia.
      rewrite IH by (change (2 ^ 55)%Z with 36028797018963968%Z in Hq;
                     change (2 ^ 63)%Z with 9223372036854775808%Z; lia).
      replace (be_value pre * 256 + byte.unsigned a + bN)%Z
        with ((be_value pre + bN / 256) * 256
              + (byte.unsigned a + bN mod 256))%Z by lia.
      rewrite mod_shift_byte by lia. reflexivity.
Qed.

Lemma initCTR_counter_value c bN :
  (0 <= bN < 2 ^ 63)%Z ->
  be_value (Stateless.initCTR_counter c bN) =
  ((be_value (Stateless.iv c) + bN) mod 256 ^ Z.of_nat (length (Stateless.iv c)))%Z.
Proof.
  intros H. unfold Stateless.initCTR_counter.
  rewrite dup_id, copy_same_length by reflexivity.
  now apply be_value_initCTR_loop.
Qed.

Lemma length_initCTR_counter c bN :
  length (Stateless.initCTR_counter c bN) = length (Stateless.iv c).
Proof.
  unfold Stateless.initCTR_counter.
  rewrite dup_id, copy_same_length by reflexivity.
  apply length_initCTR_loop.
Qed.

(** The direct addition yields the counter that [bN] increments yield. *)
Lemma initCTR_counter_iter c bN :
  (0 <= bN < 2 ^ 63)%Z ->
  Stateless.initCTR_counter c bN = counter_at (Stateless.iv c) (Z.to_nat bN).
Proof.
  intros H. apply be_value_inj.
  - unfold counter_at. now rewrite length_initCTR_counter, length_iter_incr.
  - unfold counter_at. rewrite initCTR_counter_value, be_value_iter_incr by assumption.
    now rewrite Z2Nat.id by lia.
Qed.

Lemma setCTR_counter_iter x bN :
  length (State.ctr (Shared.st x)) = length (Shared.iv x) ->
  Shared.setCTR_counter x bN = counter_at (Shared.iv x) (Z.to_nat bN).
Proof.
  intros H. unfold Shared.setCTR_counter. now rewrite copy_same_length.
Qed.


(** ** The reference keystream *)

Lemma iter_incr_shift k c : Nat.iter k incr (incr c) = incr (Nat.iter k incr c).
Proof. induction k as [|k IH]; simpl; [reflexivity|]. now rewrite IH. Qed.

Lemma counter_at_add c j k : counter_at c (j + k) = counter_at (counter_at c j) k.
Proof.
  unfold counter_at. rewrite Nat.add_comm. apply Nat.iter_add.
Qed.

Lemma length_counter_at c k : length (counter_at c k) = length c.
Proof. apply length_iter_incr. Qed.

Lemma splice_take (a e rest : list byte) i n :
  i <= length a -> length e = n ->
  take (i + n) (take i a ++ e ++ rest) = take i a ++ e.
Proof.
  intros Hi He. rewrite app_assoc. apply take_app_length'.
  rewrite length_app, length_take. lia.
Qed.

Lemma splice_drop (a e rest : list byte) i n j :
  i <= length a -> length e = n ->
  drop (i + n + j) (take i a ++ e ++ rest) = drop j rest.
Proof.
  intros Hi He. rewrite app_assoc, drop_app_ge by (rewrite length_app, length_take; lia).
  f_equal. rewrite length_app, length_take. lia.
Qed.

Lemma unconsumed_length x :
  state_ok x -> length (unconsumed x) = len (State.out x) - State.outUsed x.
Proof.
  intros [H1 H2]. unfold unconsumed, elems, cap in *.
  rewrite length_drop, length_take. lia.
Qed.

Section Keystream.

Variable blk : Block.
Hypothesis blk_ok : Block_ok blk.
Hypothesis blk_pos : 0 < BlockSize blk.

Lemma length_blocks k c :
  length c = BlockSize blk -> length (blocks blk k c) = k * BlockSize blk.
Proof.
  revert c. induction k as [|k IH]; intros c Hc; simpl; [reflexivity|].
  rewrite length_app, blk_ok, IH by (rewrite ?length_incr; assumption).
  reflexivity.
Qed.

Lemma blocks_add j k c :
  blocks blk (j + k) c = blocks blk j c ++ blocks blk k (counter_at c j).
Proof.
  revert c. induction j as [|j IH]; intros c; simpl; [reflexivity|].
  rewrite IH, <- app_assoc. do 3 f_equal.
  unfold counter_at. simpl. apply iter_incr_shift.
Qed.

(** A prefix of the keystream does not depend on how many blocks were
    generated beyond it. *)
Lemma take_blocks_irrel n k1 k2 c :
  length c = BlockSize blk ->
  n <= k1 * BlockSize blk -> n <= k2 * BlockSize blk ->
  take n (blocks blk k1 c) = take n (blocks blk k2 c).
Proof.
  revert n k2 c. induction k1 as [|k1 IH]; intros n k2 c Hc H1 H2.
  - assert (n = 0) as -> by lia. now rewrite !take_0.
  - destruct n as [|n]; [now rewrite !take_0|].
    destruct k2 as [|k2]; [simpl in H2; lia|].
    cbn [blocks]. rewrite !take_app, !blk_ok by assumption.
    destruct (Nat.le_gt_cases (S n) (BlockSize blk)) as [Hle|Hgt].
    + replace (S n - BlockSize blk) with 0 by lia. now rewrite !take_0.
    + f_equal. apply IH; [now rewrite length_incr|simpl in *; lia..].
Qed.

Lemma take_tail_blocks_irrel n k1 k2 (t c : list byte) :
  length c = BlockSize blk ->
  n <= length t + k1 * BlockSize blk -> n <= length t + k2 * BlockSize blk ->
  take n (t ++ blocks blk k1 c) = take n (t ++ blocks blk k2 c).
Proof.
  intros Hc H1 H2. rewrite !take_app. f_equal.
  apply take_blocks_irrel; [assumption|lia..].
Qed.

Lemma keystream_take n k c :
  length c = BlockSize blk -> n <= k * BlockSize blk ->
  take n (blocks blk k c) = keystream blk c n.
Proof.
  intros Hc Hn. unfold keystream. apply take_blocks_irrel; [assumption..|nia].
Qed.

Lemma length_keystream c n :
  length c = BlockSize blk -> length (keystream blk c n) = n.
Proof.
  intros Hc. unfold keystream. rewrite length_take, length_blocks by assumption. nia.
Qed.

(** ** The refill loop *)

Lemma encrypt_into_arr o i c :
  length c = BlockSize blk -> i + BlockSize blk <= cap o ->
  arr (encrypt_into o i (Encrypt blk c)) =
    take i (arr o) ++ Encrypt blk c ++ drop (i + BlockSize blk) (arr o) /\
  cap (encrypt_into o i (Encrypt blk c)) = cap o.
Proof.
  intros Hc Hi. unfold encrypt_into, cap in *. simpl.
  rewrite blk_ok by assumption. split; [reflexivity|].
  rewrite !length_app, length_take, length_drop, blk_ok by assumption. lia.
Qed.

(** With a positive block size the loop writes the [k] blocks that fit
    between [remain] and [len(x.out)], one counter each. *)
Lemma refill_loop_spec k :
  forall fuel c o remain,
    length c = BlockSize blk ->
    len o <= cap o ->
    remain + k * BlockSize blk <= len o < remain + S k * BlockSize blk ->
    k < fuel ->
    refill_loop fuel blk c o remain =
    Ok (counter_at c k,
        {| arr := take remain (arr o) ++ blocks blk k c
                    ++ drop (remain + k * BlockSize blk) (arr o);
           len := len o |},
        remain + k * BlockSize blk).
Proof.
  induction k as [|k IH]; intros fuel c o remain Hc Hcap Hk Hfuel.
  - destruct fuel as [|fuel]; [lia|]. simpl.
    destruct (Z.leb_spec (Z.of_nat remain)
                (Z.of_nat (len o) - Z.of_nat (BlockSize blk))) as [H|H]; [lia|].
    rewrite !Nat.add_0_r, take_drop. destruct o; reflexivity.
  - destruct fuel as [|fuel]; [lia|]. simpl refill_loop.
    destruct (Z.leb_spec (Z.of_nat remain)
                (Z.of_nat (len o) - Z.of_nat (BlockSize blk))) as [H|H];
      [|simpl in Hk; lia].
    destruct (encrypt_into_arr o remain c Hc) as [Harr Hcap'];
      [simpl in Hk; lia|].
    rewrite (IH fuel (incr c) (encrypt_into o remain (Encrypt blk c))
               (remain + BlockSize blk));
      [|now rewrite length_incr|rewrite Hcap'; exact Hcap
       |simpl in *; lia|lia].
    unfold counter_at. rewrite iter_incr_shift.
    replace (remain + BlockSize blk + k * BlockSize blk)
      with (remain + S k * BlockSize blk) at 2 by (simpl; lia).
    do 2 f_equal. f_equal. rewrite Harr. unfold cap in *.
    assert (HE : length (Encrypt blk c) = BlockSize blk) by now apply blk_ok.
    assert (Hr : remain <= length (arr o)) by (simpl in Hk; lia).
    rewrite (splice_take _ _ _ _ _ Hr HE).
    rewrite (splice_drop _ _ _ _ _ (k * BlockSize blk) Hr HE).
    cbn [blocks]. rewrite <- !app_assoc. do 3 f_equal.
    rewrite drop_drop. do 2 f_equal. simpl. lia.
Qed.

Lemma fitting_bounds limit remain :
  remain <= limit ->
  remain + fitting blk limit remain * BlockSize blk <= limit
    < remain + S (fitting blk limit remain) * BlockSize blk.
Proof.
  intros H. unfold fitting.
  pose proof (Nat.div_mod_eq (limit - remain) (BlockSize blk)) as Hdm.
  pose proof (Nat.mod_upper_bound (limit - remain) (BlockSize blk) ltac:(lia)) as Hm.
  simpl. nia.
Qed.

Lemma fitting_le limit remain : fitting blk limit remain <= limit.
Proof.
  unfold fitting.
  pose proof (Nat.div_mod_eq (limit - remain) (BlockSize blk)).
  assert ((limit - remain) / BlockSize blk <= limit - remain); [|lia].
  apply Nat.Div0.div_le_upper_bound. nia.
Qed.

(** The bound on the turns that [refill] and [setCTR] allow is never
    reached. *)
Lemma refill_loop_enough c o remain :
  length c = BlockSize blk -> len o <= cap o -> remain <= len o ->
  refill_loop (S (len o)) blk c o remain =
  Ok (counter_at c (fitting blk (len o) remain),
      {| arr := take remain (arr o) ++ blocks blk (fitting blk (len o) remain) c
                  ++ drop (remain + fitting blk (len o) remain * BlockSize blk) (arr o);
         len := len o |},
      remain + fitting blk (len o) remain * BlockSize blk).
Proof.
  intros Hc Hcap Hr. apply refill_loop_spec; try assumption.
  - now apply fitting_bounds.
  - pose proof (fitting_le (len o) remain). lia.
Qed.

(** ** [refill] *)

Lemma refill_spec x :
  length (State.ctr x) = BlockSize blk -> state_ok x ->
  let k := fitting blk (cap (State.out x)) (length (unconsumed x)) in
  exists x',
    refill blk x = Ok x' /\
    elems (State.out x') = unconsumed x ++ blocks blk k (State.ctr x) /\
    State.ctr x' = counter_at (State.ctr x) k /\
    State.outUsed x' = 0 /\
    cap (State.out x') = cap (State.out x) /\
    len (State.out x') = length (unconsumed x) + k * BlockSize blk /\
    len (State.out x') <= cap (State.out x') /\
    cap (State.out x') - len (State.out x') < BlockSize blk.
Proof.
  intros Hc Hok k. pose proof (unconsumed_length x Hok) as Hlen.
  destruct Hok as [Hused Hcap]. unfold refill.
  destruct (Nat.leb_spec (State.outUsed x) (len (State.out x))) as [_|]; [|lia].
  set (t := unconsumed x) in *.
  set (o1 := copy_slice (State.out x) (drop (State.outUsed x) (elems (State.out x)))).
  assert (Harr1 : arr o1 = t ++ drop (length t) (arr (State.out x))).
  { unfold o1, copy_slice. simpl. fold (unconsumed x). fold t.
    rewrite Nat.min_r by lia. now rewrite firstn_all. }
  assert (Hcap1 : cap o1 = cap (State.out x)).
  { unfold cap in *. rewrite Harr1, length_app, length_drop. lia. }
  clearbody o1.
  set (o2 := {| arr := arr o1; len := cap o1 |}).
  assert (Hfit := fitting_bounds (cap (State.out x)) (length t) ltac:(lia)).
  fold k in Hfit.
  rewrite <- Hlen. change (cap o2) with (len o2).
  rewrite (refill_loop_enough (State.ctr x) o2 (length t));
    [|assumption|exact (Nat.le_refl _)
     |change (len o2) with (cap o1); rewrite Hcap1; lia].
  change (len o2) with (cap o1). change (arr o2) with (arr o1).
  rewrite Hcap1. fold k. cbn [bind].
  eexists. split; [reflexivity|].
  cbn [State.out State.ctr State.outUsed len arr].
  assert (Ht : take (length t) (arr o1) = t).
  { rewrite Harr1. apply take_app_length. }
  assert (Hc' : cap {| arr := take (length t) (arr o1) ++ blocks blk k (State.ctr x)
                         ++ drop (length t + k * BlockSize blk) (arr o1);
                       len := length t + k * BlockSize blk |} = cap (State.out x)).
  { unfold cap in *. cbn [arr]. rewrite Ht.
    rewrite !length_app, length_drop, length_blocks by assumption. lia. }
  rewrite Hc'.
  repeat split; try reflexivity; try lia.
  - unfold elems. cbn [arr len]. rewrite Ht, app_assoc.
    apply take_app_length'.
    rewrite length_app, length_blocks by assumption. reflexivity.
Qed.

End Keystream.

(** With a block size of zero the loop of [refill] never leaves. *)
Lemma refill_loop_zero_block fuel blk c o remain :
  BlockSize blk = 0 -> remain <= len o ->
  refill_loop fuel blk c o remain = Timeout.
Proof.
  intros Hz. revert c o remain.
  induction fuel as [|fuel IH]; intros c o remain Hr; simpl;
    destruct (Z.leb_spec (Z.of_nat remain)
                (Z.of_nat (len o) - Z.of_nat (BlockSize blk))) as [H|H];
    try lia; [reflexivity|].
  apply IH. simpl. lia.
Qed.

(** C7.  From a state of the engine (cursor within the slice, slice within its
    array, counter of block size, cipher with a positive block size), [refill]
    returns a state whose buffer holds the unconsumed tail, unchanged, at its
    front, followed by [k] blocks: the encryptions of the counter, of its
    successor, and so on; the counter has been incremented [k] times; the
    capacity is unchanged and the free space left is smaller than one block;
    and the cursor is zero. *)
Theorem refill_moves_tail_then_fills :
  forall (blk : Block) (x : ctrState),
    Block_ok blk -> 0 < BlockSize blk ->
    length (State.ctr x) = BlockSize blk -> state_ok x ->
    exists (k : nat) (x' : ctrState),
      refill blk x = Ok x' /\
      elems (State.out x') = unconsumed x ++ blocks blk k (State.ctr x) /\
      State.ctr x' = Nat.iter k incr (State.ctr x) /\
      len (State.out x') = length (unconsumed x) + k * BlockSize blk /\
      cap (State.out x') = cap (State.out x) /\
      len (State.out x') <= cap (State.out x') /\
      cap (State.out x') - len (State.out x') < BlockSize blk /\
      State.outUsed x' = 0.
Proof.
  intros blk x Hok Hpos Hc Hst.
  destruct (refill_spec blk Hok Hpos x Hc Hst)
    as (x' & Hr & He & Hctr & Hu & Hcap & Hlen & Hle & Hfree).
  exists (fitting blk (cap (State.out x)) (length (unconsumed x))), x'.
  repeat split; assumption.
Qed.

(** ** One turn of [XORKeyStream] *)

Lemma take_app_take_drop (l rest : list byte) n m :
  n <= length l ->
  take n l ++ take m (drop n l ++ rest) = take (n + m) (l ++ rest).
Proof.
  intros Hn. rewrite <- (take_drop n l) at 3. rewrite <- app_assoc.
  symmetry. apply take_app_add'. rewrite length_take. lia.
Qed.

Lemma XORKeyStream_nil fuel blk x dst :
  XORKeyStream fuel blk x dst [] = Ok (x, dst).
Proof. destruct fuel; reflexivity. Qed.

Lemma XORKeyStream_cons fuel blk x dst s src :
  XORKeyStream (S fuel) blk x dst (s :: src) =
  (do '(x1, dst1, n) <- XORKeyStream_step blk x dst (s :: src);
   do '(x2, rest) <- XORKeyStream fuel blk x1 (drop n dst1) (drop n (s :: src));
   Ok (x2, take n dst1 ++ rest)).
Proof. reflexivity. Qed.

Section Consumption.

Variable blk : Block.
Hypothesis blk_ok : Block_ok blk.
Hypothesis blk_pos : 0 < BlockSize blk.

(** The conditional refill: afterwards the unconsumed bytes are those of
    before followed by [k] fresh blocks ([k = 0] when nothing was done), and
    at least one byte is there when the array can hold a block. *)
Lemma top_up_spec x :
  length (State.ctr x) = BlockSize blk -> state_ok x ->
  exists k x1,
    top_up blk x = Ok x1 /\
    unconsumed x1 = unconsumed x ++ blocks blk k (State.ctr x) /\
    State.ctr x1 = counter_at (State.ctr x) k /\
    state_ok x1 /\
    cap (State.out x1) = cap (State.out x) /\
    (BlockSize blk <= cap (State.out x) -> 1 <= length (unconsumed x1)).
Proof.
  intros Hc Hok. unfold top_up.
  destruct (needs_refill blk x) eqn:Hn.
  - destruct (refill_spec blk blk_ok blk_pos x Hc Hok)
      as (x1 & Hr & He & Hctr & Hu & Hcap & Hlen & Hle & Hfree).
    exists (fitting blk (cap (State.out x)) (length (unconsumed x))), x1.
    split; [exact Hr|].
    assert (Hun : unconsumed x1 = elems (State.out x1)).
    { unfold unconsumed. rewrite Hu. apply drop_0. }
    repeat split; try assumption.
    + rewrite Hun. exact He.
    + rewrite Hu. lia.
    + intros Hbig. rewrite Hun. unfold elems. rewrite length_take.
      unfold cap in *. lia.
  - exists 0, x. cbn [blocks]. rewrite app_nil_r.
    repeat split; try reflexivity; try apply Hok.
    intros _. rewrite (unconsumed_length x Hok).
    unfold needs_refill in Hn. rewrite Z.geb_leb in Hn. apply Z.leb_gt in Hn. lia.
Qed.

Lemma consume_spec x dst src :
  state_ok x -> length dst = length src ->
  let n := Nat.min (length src) (length (unconsumed x)) in
  exists x1,
    consume x dst src =
      Ok (x1, xor_with (take n src) (take n (unconsumed x)) ++ drop n dst, n) /\
    unconsumed x1 = drop n (unconsumed x) /\
    State.ctr x1 = State.ctr x /\
    state_ok x1 /\
    cap (State.out x1) = cap (State.out x).
Proof.
  clear blk_ok blk_pos.
  intros Hok Hlen n. pose proof (unconsumed_length x Hok) as Hun.
  destruct Hok as [Hused Hcap]. unfold consume, slice_from.
  destruct (Z.leb_spec 0 (Z.of_nat (State.outUsed x))) as [_|]; [|lia].
  destruct (Z.leb_spec (Z.of_nat (State.outUsed x)) (Z.of_nat (len (State.out x))))
    as [_|]; [|lia].
  cbn [andb bind]. rewrite Nat2Z.id.
  assert (Ht : elems {| arr := drop (State.outUsed x) (arr (State.out x));
                        len := len (State.out x) - State.outUsed x |}
               = unconsumed x).
  { unfold unconsumed, elems. cbn [arr len]. rewrite take_drop_commute.
    do 2 f_equal. lia. }
  rewrite Ht. unfold xorBytes.
  assert (Hn : (if length (unconsumed x) <? length src
                then length (unconsumed x) else length src) = n).
  { unfold n. destruct (Nat.ltb_spec (length (unconsumed x)) (length src)); lia. }
  rewrite Hn.
  destruct (Nat.leb_spec n (length dst)) as [_|]; [|lia].
  cbn [bind]. eexists. split; [reflexivity|].
  unfold state_ok, unconsumed. cbn [State.out State.outUsed State.ctr].
  repeat split; try reflexivity; try lia.
  rewrite drop_drop. reflexivity.
Qed.

Lemma XORKeyStream_step_spec x dst src :
  length (State.ctr x) = BlockSize blk -> state_ok x ->
  length dst = length src ->
  exists k x1,
    let t1 := unconsumed x ++ blocks blk k (State.ctr x) in
    let n := Nat.min (length src) (length t1) in
    XORKeyStream_step blk x dst src =
      Ok (x1, xor_with (take n src) (take n t1) ++ drop n dst, n) /\
    unconsumed x1 = drop n t1 /\
    State.ctr x1 = counter_at (State.ctr x) k /\
    state_ok x1 /\
    cap (State.out x1) = cap (State.out x) /\
    (BlockSize blk <= cap (State.out x) -> 1 <= length t1) /\
    length t1 <= cap (State.out x).
Proof.
  intros Hc Hok Hlen.
  destruct (top_up_spec x Hc Hok) as (k & x0 & Ht & Hun & Hctr & Hok0 & Hcap & Hpos).
  destruct (consume_spec x0 dst src Hok0 Hlen) as (x1 & Hcs & Hun1 & Hctr1 & Hok1 & Hcap1).
  pose proof (unconsumed_length x0 Hok0) as Hl0.
  exists k, x1. cbv zeta. unfold XORKeyStream_step. rewrite Ht. cbn [bind].
  rewrite Hcs, Hun1, Hctr1, Hctr, Hcap1, Hcap, <- Hun.
  repeat split; try assumption; try reflexivity; try apply Hok1.
  destruct Hok0. lia.
Qed.

(** What one turn hands out and what the state can hand out afterwards add
    up to the keystream pending before the turn. *)
Lemma pending_split (t c : list byte) k L :
  length c = BlockSize blk ->
  let t1 := t ++ blocks blk k c in
  let n := Nat.min L (length t1) in
  take n t1 ++ take (L - n) (drop n t1 ++ blocks blk (L - n) (counter_at c k))
  = take L (t ++ blocks blk L c).
Proof.
  intros Hc t1 n.
  assert (Hl1 : length t1 = length t + k * BlockSize blk).
  { unfold t1. now rewrite length_app, length_blocks. }
  rewrite take_app_take_drop by lia.
  replace (n + (L - n)) with L by lia.
  unfold t1. rewrite <- app_assoc, <- blocks_add.
  apply take_tail_blocks_irrel; try assumption; nia.
Qed.

(** The loop never panics from a state of the engine; when it returns, the
    caller's bytes are the source bytes combined with the pending keystream;
    and it returns within [len(src)] turns when the array of the buffer can
    hold a block. *)
Lemma XORKeyStream_spec fuel :
  forall x dst src,
    length (State.ctr x) = BlockSize blk -> state_ok x ->
    length dst = length src ->
    match XORKeyStream fuel blk x dst src with
    | Ok (x', q) =>
        q = xor_with src (pending blk x (length src)) /\
        state_ok x' /\ length (State.ctr x') = BlockSize blk /\
        cap (State.out x') = cap (State.out x)
    | Panic _ => False
    | Timeout => ~ (BlockSize blk <= cap (State.out x) /\ length src <= fuel)
    end.
Proof.
  induction fuel as [|fuel IH]; intros x dst src Hc Hok Hlen.
  - destruct src as [|s src].
    + destruct dst; [|discriminate]. simpl. auto.
    + simpl. lia.
  - destruct src as [|s src].
    + destruct dst; [|discriminate]. simpl. auto.
    + rewrite XORKeyStream_cons.
      destruct (XORKeyStream_step_spec x dst (s :: src) Hc Hok Hlen)
        as (k & x1 & Hstep & Hun1 & Hctr1 & Hok1 & Hcap1 & Hpos & _).
      cbv zeta in Hstep, Hun1, Hpos.
      set (t1 := unconsumed x ++ blocks blk k (State.ctr x)) in *.
      set (n := Nat.min (length (s :: src)) (length t1)) in *.
      rewrite Hstep. cbn [bind].
      assert (Hz : length (xor_with (take n (s :: src)) (take n t1)) = n).
      { unfold xor_with. rewrite length_zip_with, !length_take. lia. }
      rewrite (drop_app_length' _ _ n (eq_sym Hz)), (take_app_length' _ _ n (eq_sym Hz)).
      assert (Hc1 : length (State.ctr x1) = BlockSize blk).
      { now rewrite Hctr1, length_counter_at. }
      assert (Hlen1 : length (drop n dst) = length (drop n (s :: src))).
      { rewrite !length_drop. lia. }
      specialize (IH x1 (drop n dst) (drop n (s :: src)) Hc1 Hok1 Hlen1).
      destruct (XORKeyStream fuel blk x1 (drop n dst) (drop n (s :: src)))
        as [[x2 rest]| |]; cbn [bind].
      * destruct IH as (Hrest & Hok2 & Hc2 & Hcap2).
        split; [|split; [assumption|split; [assumption|congruence]]].
        rewrite Hrest. unfold xor_with, pending.
        rewrite <- zip_with_app by (rewrite !length_take; lia).
        rewrite take_drop. f_equal.
        rewrite Hun1, Hctr1, length_drop.
        apply (pending_split (unconsumed x) (State.ctr x) k (length (s :: src)) Hc).
      * exact IH.
      * intros [Hbig Hfuel]. apply IH. rewrite Hcap1. split; [assumption|].
        rewrite length_drop. specialize (Hpos Hbig). unfold n.
        cbn [length] in *. lia.
Qed.

(** Total form: with room for a block in the array, [len(src)] turns are
    enough. *)
Lemma XORKeyStream_returns fuel x dst src :
  length (State.ctr x) = BlockSize blk -> state_ok x ->
  length dst = length src ->
  BlockSize blk <= cap (State.out x) -> length src <= fuel ->
  exists x',
    XORKeyStream fuel blk x dst src
      = Ok (x', xor_with src (pending blk x (length src))) /\
    state_ok x' /\ length (State.ctr x') = BlockSize blk /\
    cap (State.out x') = cap (State.out x).
Proof.
  intros Hc Hok Hlen Hbig Hfuel.
  pose proof (XORKeyStream_spec fuel x dst src Hc Hok Hlen) as H.
  destruct (XORKeyStream fuel blk x dst src) as [[x' q]| |].
  - destruct H as (-> & H). exists x'. split; [reflexivity|exact H].
  - contradiction.
  - exfalso. apply H. split; assumption.
Qed.

End Consumption.

(** ** The shared engine *)

Lemma bufSize_for_ge blk : BlockSize blk <= bufSize_for blk.
Proof.
  unfold bufSize_for. destruct (Nat.ltb_spec streamBufferSize (BlockSize blk)); lia.
Qed.

Lemma bufSize_for_min blk : streamBufferSize <= bufSize_for blk.
Proof.
  unfold bufSize_for. destruct (Nat.ltb_spec streamBufferSize (BlockSize blk)); lia.
Qed.

Lemma Shared_new_ok blk iv0 rd :
  length iv0 = BlockSize blk ->
  exists x0,
    Shared.NewCTRReaderAt blk iv0 rd = Ok x0 /\
    Shared.b x0 = blk /\ Shared.iv x0 = iv0 /\ Shared.r x0 = rd /\
    Shared.engine_ok x0.
Proof.
  intros Hlen. unfold Shared.NewCTRReaderAt.
  rewrite (proj2 (Nat.eqb_eq _ _) Hlen). cbn [negb]. rewrite dup_id.
  eexists. split; [reflexivity|]. unfold Shared.engine_ok, cap. simpl.
  rewrite length_replicate. pose proof (bufSize_for_ge blk). repeat split; auto; lia.
Qed.

Section SharedEngine.

Variable blk : Block.
Hypothesis blk_ok : Block_ok blk.
Hypothesis blk_pos : 0 < BlockSize blk.

(** [setCTR] leaves a buffer of whole blocks from the counter of block [bN]
    on, whatever the buffer held before; only the number of blocks depends
    on the length the buffer had. *)
Lemma setCTR_spec x bN :
  Shared.b x = blk -> Shared.engine_ok x ->
  exists x1,
    Shared.setCTR x bN = Ok x1 /\
    Shared.b x1 = blk /\ Shared.iv x1 = Shared.iv x /\ Shared.r x1 = Shared.r x /\
    Shared.engine_ok x1 /\ state_ok (Shared.st x1) /\
    (forall n, pending blk (Shared.st x1) n
               = keystream blk (counter_at (Shared.iv x) (Z.to_nat bN)) n).
Proof.
  intros Hb (Hiv & Hctr & Hlen & Hcap). rewrite Hb in *.
  unfold Shared.setCTR. rewrite Hb.
  rewrite setCTR_counter_iter by congruence.
  set (c0 := counter_at (Shared.iv x) (Z.to_nat bN)).
  assert (Hc0 : length c0 = BlockSize blk)
    by (unfold c0; now rewrite length_counter_at).
  set (o := State.out (Shared.st x)) in *.
  rewrite (refill_loop_enough blk blk_ok blk_pos c0 o 0 Hc0 Hlen ltac:(lia)).
  set (k := fitting blk (len o) 0).
  pose proof (fitting_bounds blk blk_pos (len o) 0 ltac:(lia)) as Hk. fold k in Hk.
  cbn [bind]. eexists. split; [reflexivity|].
  cbn [Shared.b Shared.iv Shared.r Shared.st State.ctr State.out State.outUsed
       arr len].
  rewrite take_0. cbn [app]. rewrite !Nat.add_0_l in *.
  assert (Hlenb : length (blocks blk k c0) = k * BlockSize blk)
    by now apply length_blocks.
  assert (Hcap' : length (blocks blk k c0 ++ drop (k * BlockSize blk) (arr o))
                  = cap o).
  { rewrite length_app, length_drop, Hlenb. unfold cap in *. lia. }
  unfold Shared.engine_ok, state_ok, cap.
  cbn [Shared.b Shared.iv Shared.r Shared.st State.ctr State.out State.outUsed
       arr len].
  rewrite Hcap'.
  repeat split; try reflexivity; try assumption; try lia.
  - now rewrite length_counter_at.
  - intros n. unfold pending, unconsumed, elems.
    cbn [State.ctr State.out State.outUsed arr len].
    rewrite drop_0.
    rewrite (take_app_length' (blocks blk k c0) _ (k * BlockSize blk) (eq_sym Hlenb)).
    rewrite <- blocks_add. unfold keystream.
    apply take_blocks_irrel; try assumption; nia.
Qed.

Lemma Shared_ReadAt_spec fuel x p off :
  Shared.b x = blk -> Shared.engine_ok x -> ReaderAt_ok (Shared.r x) ->
  length p <= fuel ->
  exists x',
    Shared.ReadAt fuel x p off
      = Ok (x', (Shared_outcome blk (Shared.iv x) (Shared.r x) p off).1.1,
                (Shared_outcome blk (Shared.iv x) (Shared.r x) p off).1.2,
                (Shared_outcome blk (Shared.iv x) (Shared.r x) p off).2) /\
    Shared.b x' = blk /\ Shared.iv x' = Shared.iv x /\ Shared.r x' = Shared.r x /\
    Shared.engine_ok x'.
Proof.
  intros Hb Hok Hrd Hfuel. unfold Shared.ReadAt, Shared_outcome.
  rewrite Hb. destruct (Nat.eqb_spec (BlockSize blk) 0) as [|_]; [lia|].
  set (bN := Z.quot _ _).
  destruct (setCTR_spec x bN Hb Hok)
    as (x1 & Hset & Hb1 & Hiv1 & Hr1 & Hok1 & Hst1 & Hpend).
  rewrite Hset. cbn [bind]. rewrite Hr1, Hb1.
  pose proof (Hrd p off) as Hlenp.
  destruct (read_at (Shared.r x) p off) as [[p1 n] err]. cbn [fst snd] in *.
  destruct err as [e|].
  - exists x1. auto.
  - destruct Hok1 as (Hiv' & Hctr' & Hlen' & Hcap'). rewrite Hb1 in *.
    destruct (XORKeyStream_returns blk blk_ok blk_pos fuel (Shared.st x1) p1 p1
                Hctr' Hst1 eq_refl Hcap' ltac:(lia))
      as (s2 & Hx & Hok2 & Hc2 & Hcap2).
    rewrite Hx. cbn [bind]. rewrite Hpend.
    eexists. split; [reflexivity|].
    unfold Shared.engine_ok. cbn [Shared.b Shared.iv Shared.r Shared.st].
    repeat split; try assumption; try reflexivity; [apply Hok2|].
    now rewrite Hcap2.
Qed.

End SharedEngine.

Section SharedHistory.

Variable blk : Block.
Hypothesis blk_ok : Block_ok blk.
Hypothesis blk_pos : 0 < BlockSize blk.

(** A read that returns leaves an engine with the same cipher, initial
    counter and source, and again well formed. *)
Lemma Shared_ReadAt_inv fuel x p off x' q n e :
  Shared.b x = blk -> Shared.engine_ok x ->
  Shared.ReadAt fuel x p off = Ok (x', q, n, e) ->
  Shared.b x' = blk /\ Shared.iv x' = Shared.iv x /\ Shared.r x' = Shared.r x /\
  Shared.engine_ok x'.
Proof.
  intros Hb Hok. unfold Shared.ReadAt.
  rewrite Hb. destruct (Nat.eqb_spec (BlockSize blk) 0) as [|_]; [lia|].
  set (bN := Z.quot _ _).
  destruct (setCTR_spec blk blk_ok blk_pos x bN Hb Hok)
    as (x1 & Hset & Hb1 & Hiv1 & Hr1 & Hok1 & Hst1 & Hpend).
  rewrite Hset. cbn [bind].
  destruct (read_at (Shared.r x1) p off) as [[p1 n1] err].
  destruct err as [e1|].
  - intros [= <- _ _ _]. auto.
  - destruct Hok1 as (Hiv' & Hctr' & Hlen' & Hcap'). rewrite Hb1 in *.
    pose proof (XORKeyStream_spec blk blk_ok blk_pos fuel (Shared.st x1) p1 p1
                  Hctr' Hst1 eq_refl) as Hx.
    destruct (XORKeyStream fuel blk (Shared.st x1) p1 p1) as [[s2 q2]| |];
      cbn [bind]; try discriminate.
    destruct Hx as (_ & Hok2 & Hc2 & Hcap2).
    intros [= <- _ _ _]. unfold Shared.engine_ok.
    cbn [Shared.b Shared.iv Shared.r Shared.st].
    repeat split; try assumption; try reflexivity; [apply Hok2|].
    now rewrite Hcap2.
Qed.

Lemma Shared_reachable_inv x0 x :
  Shared.b x0 = blk -> Shared.engine_ok x0 -> Shared.reachable x0 x ->
  Shared.b x = blk /\ Shared.iv x = Shared.iv x0 /\ Shared.r x = Shared.r x0 /\
  Shared.engine_ok x.
Proof.
  intros Hb Hok Hreach. induction Hreach as [|fuel x p off x' q n e _ IH Hread].
  - auto.
  - destruct IH as (Hbx & Hivx & Hrx & Hokx).
    destruct (Shared_ReadAt_inv fuel x p off x' q n e Hbx Hokx Hread)
      as (Hb' & Hiv' & Hr' & Hok').
    split; [assumption|]. split; [congruence|]. split; [congruence|assumption].
Qed.

(** Every engine reached from [x0] answers a read as [x0] itself does. *)
Lemma Shared_reachable_outcome x0 x fuel p off :
  Shared.b x0 = blk -> Shared.engine_ok x0 -> ReaderAt_ok (Shared.r x0) ->
  Shared.reachable x0 x -> length p <= fuel ->
  exists x',
    Shared.ReadAt fuel x p off
      = Ok (x', (Shared_outcome blk (Shared.iv x0) (Shared.r x0) p off).1.1,
                (Shared_outcome blk (Shared.iv x0) (Shared.r x0) p off).1.2,
                (Shared_outcome blk (Shared.iv x0) (Shared.r x0) p off).2) /\
    Shared.reachable x0 x'.
Proof.
  intros Hb Hok Hrd Hreach Hfuel.
  destruct (Shared_reachable_inv x0 x Hb Hok Hreach) as (Hbx & Hivx & Hrx & Hokx).
  destruct (Shared_ReadAt_spec blk blk_ok blk_pos fuel x p off Hbx Hokx
              ltac:(now rewrite Hrx) Hfuel) as (x' & Hread & _).
  rewrite Hivx, Hrx in Hread. exists x'. split; [exact Hread|].
  eapply Shared.reach_read; eassumption.
Qed.

End SharedHistory.

(** C5.  On the shared engine made by [NewCTRReaderAt] over a source that
    answers a given request always in the same way, with a cipher of positive
    block size: (1) every engine that earlier reads have left answers a read
    of any buffer at any offset with the bytes, the count and the error that
    the fresh engine gives; (2) reading at [o2] then at [o1] and reading at
    [o1] then at [o2] both return, with the same bytes, count and error for
    each of the two offsets.  [fuel] is any bound on the turns of the loop of
    [XORKeyStream] at least the length of the buffers.  (The stateless engine
    takes no state from one call to the next: its [ReadAt] is a function of
    the engine given at construction.) *)
Theorem shared_reads_do_not_depend_on_history :
  forall (blk : Block) (iv0 : list byte) (rd : ReaderAt) (x0 : Shared.ctr),
    Block_ok blk -> 0 < BlockSize blk -> ReaderAt_ok rd ->
    Shared.NewCTRReaderAt blk iv0 rd = Ok x0 ->
    (forall (x : Shared.ctr) (fuel : nat) (p : list byte) (off : Z),
        Shared.reachable x0 x -> length p <= fuel ->
        exists x' x0' q n e,
          Shared.ReadAt fuel x p off = Ok (x', q, n, e) /\
          Shared.ReadAt fuel x0 p off = Ok (x0', q, n, e)) /\
    (forall (fuel : nat) (p1 p2 : list byte) (o1 o2 : Z),
        (o1 < o2)%Z -> length p1 <= fuel -> length p2 <= fuel ->
        exists xa xb xa' xb' q1 n1 e1 q2 n2 e2,
          Shared.ReadAt fuel x0 p2 o2 = Ok (xa, q2, n2, e2) /\
          Shared.ReadAt fuel xa p1 o1 = Ok (xb, q1, n1, e1) /\
          Shared.ReadAt fuel x0 p1 o1 = Ok (xa', q1, n1, e1) /\
          Shared.ReadAt fuel xa' p2 o2 = Ok (xb', q2, n2, e2)).
Proof.
  intros blk iv0 rd x0 Hblk Hpos Hrd Hnew.
  assert (Hlen : length iv0 = BlockSize blk).
  { unfold Shared.NewCTRReaderAt in Hnew.
    destruct (Nat.eqb_spec (length iv0) (BlockSize blk)); [assumption|discriminate]. }
  destruct (Shared_new_ok blk iv0 rd Hlen) as (x0' & Hnew' & Hb & Hiv & Hr & Hok).
  rewrite Hnew in Hnew'. injection Hnew' as <-.
  assert (Hrd0 : ReaderAt_ok (Shared.r x0)) by now rewrite Hr.
  pose proof (Shared_reachable_outcome blk Hblk Hpos x0) as Hout.
  split.
  - intros x fuel p off Hreach Hfuel.
    destruct (Hout x fuel p off Hb Hok Hrd0 Hreach Hfuel) as (x' & Hx & _).
    destruct (Hout x0 fuel p off Hb Hok Hrd0 (Shared.reach_init x0) Hfuel)
      as (x0' & Hx0 & _).
    do 5 eexists. split; eassumption.
  - intros fuel p1 p2 o1 o2 _ Hf1 Hf2.
    destruct (Hout x0 fuel p2 o2 Hb Hok Hrd0 (Shared.reach_init x0) Hf2)
      as (xa & Ha & Hra).
    destruct (Hout xa fuel p1 o1 Hb Hok Hrd0 Hra Hf1) as (xb & Hbb & _).
    destruct (Hout x0 fuel p1 o1 Hb Hok Hrd0 (Shared.reach_init x0) Hf1)
      as (xa' & Ha' & Hra').
    destruct (Hout xa' fuel p2 o2 Hb Hok Hrd0 Hra' Hf2) as (xb' & Hbb' & _).
    do 10 eexists. repeat split; eassumption.
Qed.

(** ** The stateless engine *)

Lemma Stateless_new_ok blk iv0 rd :
  length iv0 = BlockSize blk ->
  Stateless.NewCTRReaderAt blk iv0 rd
    = Ok {| Stateless.b := blk; Stateless.iv := iv0;
            Stateless.bs := bufSize_for blk; Stateless.r := rd |}.
Proof.
  intros Hlen. unfold Stateless.NewCTRReaderAt.
  rewrite (proj2 (Nat.eqb_eq _ _) Hlen). cbn [negb]. now rewrite dup_id.
Qed.

Lemma Stateless_new_inv blk iv0 rd c :
  Stateless.NewCTRReaderAt blk iv0 rd = Ok c ->
  length iv0 = BlockSize blk /\
  c = {| Stateless.b := blk; Stateless.iv := iv0;
         Stateless.bs := bufSize_for blk; Stateless.r := rd |}.
Proof.
  intros H. assert (Hlen : length iv0 = BlockSize blk).
  { unfold Stateless.NewCTRReaderAt in H.
    destruct (Nat.eqb_spec (length iv0) (BlockSize blk)); [assumption|discriminate]. }
  rewrite (Stateless_new_ok _ _ _ Hlen) in H. injection H as <-. auto.
Qed.

(** The offset arithmetic of [ReadAt] on a non-negative offset. *)
Lemma offset_split (off : Z) (bsz : nat) :
  0 < bsz -> (0 <= off)%Z ->
  let bOff := Z.rem off (Z.of_nat bsz) in
  let bN := Z.quot (off - bOff) (Z.of_nat bsz) in
  (0 <= bOff < Z.of_nat bsz)%Z /\ (0 <= bN <= off)%Z /\
  Z.to_nat off = Z.to_nat bN * bsz + Z.to_nat bOff.
Proof.
  intros Hpos Hoff bOff bN.
  assert (HbOff : bOff = (off mod Z.of_nat bsz)%Z)
    by (unfold bOff; apply Z.rem_mod_nonneg; lia).
  pose proof (Z.mod_pos_bound off (Z.of_nat bsz) ltac:(lia)) as Hm.
  pose proof (Z.div_mod off (Z.of_nat bsz) ltac:(lia)) as Hdm.
  pose proof (Z.mod_le off (Z.of_nat bsz) ltac:(lia) ltac:(lia)) as Hle.
  assert (HbN : bN = (off / Z.of_nat bsz)%Z).
  { unfold bN. rewrite Z.quot_div_nonneg by lia. rewrite HbOff.
    replace (off - off mod Z.of_nat bsz)%Z with (off / Z.of_nat bsz * Z.of_nat bsz)%Z by lia.
    apply Z.div_mul. lia. }
  assert (0 <= off / Z.of_nat bsz)%Z by (apply Z.div_pos; lia).
  rewrite HbOff, HbN. repeat split; try lia; try nia.
Qed.

Section StatelessEngine.

Variable blk : Block.
Hypothesis blk_ok : Block_ok blk.
Hypothesis blk_pos : 0 < BlockSize blk.

(** The bytes of the keystream from offset [j * BlockSize + i] on are those
    of the blocks from counter [j] on, without their first [i] bytes. *)
Lemma keystream_at_block iv0 j i n K :
  length iv0 = BlockSize blk -> i + n <= K * BlockSize blk ->
  keystream_at blk iv0 (j * BlockSize blk + i) n
  = take n (drop i (blocks blk K (counter_at iv0 j))).
Proof.
  intros Hiv HK. unfold keystream_at, keystream.
  rewrite (take_blocks_irrel blk blk_ok blk_pos _ _ (j + K) iv0 Hiv) by nia.
  rewrite blocks_add.
  assert (Hj : length (blocks blk j iv0) = j * BlockSize blk)
    by now apply length_blocks.
  replace (j * BlockSize blk + i + n) with (length (blocks blk j iv0) + (i + n)) by lia.
  rewrite take_app_add.
  rewrite <- Hj, drop_app_add.
  rewrite take_drop_commute. reflexivity.
Qed.

(** [initCTR] on the block index and the offset in the block of a
    non-negative offset: the state is well formed, its array is the buffer
    size less the offset in the block, and the keystream it will hand out
    is the keystream from that offset on. *)
Lemma initCTR_spec c off :
  Stateless.b c = blk -> Stateless.engine_ok c -> (0 <= off < 2 ^ 63)%Z ->
  let bOff := Z.rem off (Z.of_nat (BlockSize blk)) in
  let bN := Z.quot (off - bOff) (Z.of_nat (BlockSize blk)) in
  exists x,
    Stateless.initCTR c bN bOff = Ok x /\
    state_ok x /\ length (State.ctr x) = BlockSize blk /\
    cap (State.out x) = Stateless.bs c - Z.to_nat bOff /\
    length (unconsumed x)
      = fitting blk (Stateless.bs c) 0 * BlockSize blk - Z.to_nat bOff /\
    0 < length (unconsumed x) /\
    (forall n, pending blk x n = keystream_at blk (Stateless.iv c) (Z.to_nat off) n).
Proof.
  intros Hb [Hiv Hbs] Hoff bOff bN. rewrite Hb in *.
  destruct (offset_split off (BlockSize blk) blk_pos ltac:(lia))
    as (HbOff & HbN & Hsplit). fold bOff bN in HbOff, HbN, Hsplit.
  unfold Stateless.initCTR. rewrite Hb.
  rewrite initCTR_counter_iter by lia.
  set (c0 := counter_at (Stateless.iv c) (Z.to_nat bN)).
  assert (Hc0 : length c0 = BlockSize blk)
    by (unfold c0; now rewrite length_counter_at).
  set (x0 := {| State.ctr := c0;
                State.out := {| arr := replicate (Stateless.bs c) byte_zero; len := 0 |};
                State.outUsed := 0 |}).
  assert (Hok0 : state_ok x0) by (unfold state_ok, x0; simpl; lia).
  assert (Hun0 : unconsumed x0 = []) by reflexivity.
  destruct (refill_spec blk blk_ok blk_pos x0 Hc0 Hok0)
    as (x1 & Hr & He & Hctr & Hu & Hcap & Hlen & Hle & Hfree).
  rewrite Hun0 in *. cbn [length app] in *.
  change (State.ctr x0) with c0 in *.
  assert (Hcap0 : cap (State.out x0) = Stateless.bs c)
    by (unfold cap, x0; simpl; apply length_replicate).
  rewrite Hcap0 in *.
  set (k0 := fitting blk (Stateless.bs c) 0) in *.
  pose proof (fitting_bounds blk blk_pos (Stateless.bs c) 0 ltac:(lia)) as Hk0.
  fold k0 in Hk0. rewrite !Nat.add_0_l in *.
  assert (1 <= k0) by (destruct k0; [simpl in Hk0; lia|lia]).
  rewrite Hr. cbn [bind]. unfold slice_from.
  destruct (Z.leb_spec 0 bOff) as [_|]; [|lia].
  destruct (Z.leb_spec bOff (Z.of_nat (len (State.out x1)))) as [_|]; [|nia].
  cbn [andb bind]. eexists. split; [reflexivity|].
  assert (Hun : unconsumed
                  {| State.ctr := State.ctr x1;
                     State.out := {| arr := drop (Z.to_nat bOff) (arr (State.out x1));
                                     len := len (State.out x1) - Z.to_nat bOff |};
                     State.outUsed := State.outUsed x1 |}
                = drop (Z.to_nat bOff) (blocks blk k0 c0)).
  { unfold unconsumed, elems. cbn [State.out State.outUsed arr len].
    rewrite Hu, drop_0, take_drop_commute, <- He. unfold elems.
    do 2 f_equal. nia. }
  assert (Hlb : length (blocks blk k0 c0) = k0 * BlockSize blk)
    by now apply length_blocks.
  unfold state_ok, cap in *. unfold pending. rewrite Hun.
  cbn [State.ctr State.out State.outUsed arr len].
  rewrite !length_drop, Hlb, Hcap, Hu.
  repeat split; try lia; try nia.
  - now rewrite Hctr, length_counter_at.
  - intros n. rewrite Hsplit, Hctr.
    rewrite (keystream_at_block _ _ _ _ (k0 + n)) by (assumption || nia).
    rewrite blocks_add. fold c0.
    rewrite (drop_app_le (blocks blk k0 c0)) by nia. reflexivity.
Qed.

(** A read on the stateless engine at a non-negative offset.  When the
    source reports an error the outcome is the source's; otherwise, when the
    buffer size less the offset in the block is at least one block, the
    read returns the source's bytes combined with the keystream from [off]
    on. *)
Lemma Stateless_ReadAt_error fuel c p off p1 n e :
  Stateless.b c = blk -> Stateless.engine_ok c -> (0 <= off < 2 ^ 63)%Z ->
  read_at (Stateless.r c) p off = (p1, n, Some e) ->
  Stateless.ReadAt fuel c p off = Ok (p1, n, Some e).
Proof.
  intros Hb Hok Hoff Hread. unfold Stateless.ReadAt. rewrite Hb.
  destruct (Nat.eqb_spec (BlockSize blk) 0) as [|_]; [lia|].
  destruct (initCTR_spec c off Hb Hok Hoff) as (x & Hinit & _).
  cbv zeta in Hinit. rewrite Hinit. cbn [bind]. now rewrite Hread.
Qed.

Lemma Stateless_ReadAt_spec fuel c p off p1 n :
  Stateless.b c = blk -> Stateless.engine_ok c -> (0 <= off < 2 ^ 63)%Z ->
  read_at (Stateless.r c) p off = (p1, n, None) ->
  BlockSize blk + Z.to_nat (Z.rem off (Z.of_nat (BlockSize blk))) <= Stateless.bs c ->
  length p1 <= fuel ->
  Stateless.ReadAt fuel c p off
    = Ok (xor_with p1 (keystream_at blk (Stateless.iv c) (Z.to_nat off) (length p1)),
          n, None).
Proof.
  intros Hb Hok Hoff Hread Hroom Hfuel. unfold Stateless.ReadAt. rewrite Hb.
  destruct (Nat.eqb_spec (BlockSize blk) 0) as [|_]; [lia|].
  destruct (initCTR_spec c off Hb Hok Hoff)
    as (x & Hinit & Hokx & Hcx & Hcap & _ & _ & Hpend).
  cbv zeta in Hinit, Hcap. rewrite Hinit. cbn [bind]. rewrite Hread.
  destruct (XORKeyStream_returns blk blk_ok blk_pos fuel x p1 p1
              Hcx Hokx eq_refl ltac:(lia) Hfuel) as (x' & Hx & _).
  rewrite Hx. cbn [bind]. now rewrite Hpend.
Qed.


End StatelessEngine.

(** ** Preservation of the cursor invariant *)

(** C8.  From a state of the engine with the cursor within the buffer
    ([outUsed <= len(out) <= cap(out)]): [refill] returns and keeps the
    invariant; a consumption step returns and keeps it; a turn of the loop of
    [XORKeyStream] refills before it consumes whenever fewer than one block
    of unconsumed bytes remains, and keeps the invariant; and the state in
    which a run of [XORKeyStream] ends satisfies it. *)
Theorem cursor_within_buffer_is_preserved :
  forall (blk : Block) (x : ctrState) (dst src : list byte),
    Block_ok blk -> 0 < BlockSize blk ->
    length (State.ctr x) = BlockSize blk -> state_ok x ->
    length dst = length src ->
    (exists x', refill blk x = Ok x' /\ state_ok x') /\
    (exists x' dst' n, consume x dst src = Ok (x', dst', n) /\ state_ok x') /\
    (length (unconsumed x) < BlockSize blk ->
     XORKeyStream_step blk x dst src = (do x1 <- refill blk x; consume x1 dst src)) /\
    (exists x' dst' n,
        XORKeyStream_step blk x dst src = Ok (x', dst', n) /\ state_ok x') /\
    (forall fuel x' q, XORKeyStream fuel blk x dst src = Ok (x', q) -> state_ok x').
Proof.
  intros blk x dst src Hblk Hpos Hc Hok Hlen.
  split; [|split; [|split; [|split]]].
  - destruct (refill_spec blk Hblk Hpos x Hc Hok)
      as (x' & Hr & _ & _ & Hu & _ & _ & Hle & _).
    exists x'. split; [exact Hr|]. unfold state_ok. rewrite Hu. lia.
  - destruct (consume_spec x dst src Hok Hlen) as (x' & Hcs & _ & _ & Hok' & _).
    do 3 eexists. split; [exact Hcs|exact Hok'].
  - intros Hfew. unfold XORKeyStream_step, top_up, needs_refill.
    rewrite (unconsumed_length x Hok) in Hfew.
    destruct (Z.geb_spec (Z.of_nat (State.outUsed x))
                (Z.of_nat (len (State.out x)) - Z.of_nat (BlockSize blk)));
      [reflexivity|lia].
  - destruct (XORKeyStream_step_spec blk Hblk Hpos x dst src Hc Hok Hlen)
      as (k & x' & Hstep & _ & _ & Hok' & _).
    do 3 eexists. split; [exact Hstep|exact Hok'].
  - intros fuel x' q Hrun.
    pose proof (XORKeyStream_spec blk Hblk Hpos fuel x dst src Hc Hok Hlen) as H.
    rewrite Hrun in H. apply H.
Qed.

(** ** Panics *)

Lemma refill_loop_no_panic fuel blk c o remain msg :
  refill_loop fuel blk c o remain <> Panic msg.
Proof.
  revert c o remain. induction fuel as [|fuel IH]; intros c o remain; simpl;
    destruct (_ <=? _)%Z; try discriminate. apply IH.
Qed.

Lemma refill_panic blk x msg : refill blk x = Panic msg -> runtime_panic msg.
Proof.
  unfold refill. destruct (_ <=? _).
  - destruct (refill_loop _ _ _ _ _) as [[[c o] n]| |] eqn:E; cbn [bind];
      try discriminate.
    now apply refill_loop_no_panic in E.
  - intros [= <-]. right; left; reflexivity.
Qed.

Lemma slice_from_panic s i msg : slice_from s i = Panic msg -> runtime_panic msg.
Proof.
  unfold slice_from. destruct (_ && _); [discriminate|].
  intros [= <-]. right; left; reflexivity.
Qed.

Lemma xorBytes_panic dst a c msg : xorBytes dst a c = Panic msg -> runtime_panic msg.
Proof.
  unfold xorBytes. destruct (_ <=? _); [discriminate|].
  intros [= <-]. right; right; reflexivity.
Qed.

Lemma XORKeyStream_step_panic blk x dst src msg :
  XORKeyStream_step blk x dst src = Panic msg -> runtime_panic msg.
Proof.
  unfold XORKeyStream_step, top_up, consume.
  destruct (needs_refill blk x).
  - destruct (refill blk x) as [x1| |] eqn:E; cbn [bind]; try discriminate.
    + destruct (slice_from _ _) as [t| |] eqn:Es; cbn [bind]; try discriminate.
      * destruct (xorBytes _ _ _) as [[d n]| |] eqn:Ex; cbn [bind]; try discriminate.
        intros [= <-]. eapply xorBytes_panic; eassumption.
      * intros [= <-]. eapply slice_from_panic; eassumption.
    + intros [= <-]. eapply refill_panic; eassumption.
  - cbn [bind].
    destruct (slice_from _ _) as [t| |] eqn:Es; cbn [bind]; try discriminate.
    + destruct (xorBytes _ _ _) as [[d n]| |] eqn:Ex; cbn [bind]; try discriminate.
      intros [= <-]. eapply xorBytes_panic; eassumption.
    + intros [= <-]. eapply slice_from_panic; eassumption.
Qed.

Lemma XORKeyStream_panic fuel blk x dst src msg :
  XORKeyStream fuel blk x dst src = Panic msg -> runtime_panic msg.
Proof.
  revert x dst src. induction fuel as [|fuel IH]; intros x dst src.
  - destruct src; simpl; discriminate.
  - destruct src as [|s src]; [simpl; discriminate|].
    rewrite XORKeyStream_cons.
    destruct (XORKeyStream_step blk x dst (s :: src)) as [[[x1 d1] n]| |] eqn:E;
      cbn [bind]; try discriminate.
    + destruct (XORKeyStream fuel blk x1 _ _) as [[x2 rest]| |] eqn:E2;
        cbn [bind]; try discriminate.
      intros [= <-]. eapply IH; eassumption.
    + intros [= <-]. eapply XORKeyStream_step_panic; eassumption.
Qed.

Lemma Stateless_ReadAt_panic fuel c p off msg :
  Stateless.ReadAt fuel c p off = Panic msg -> runtime_panic msg.
Proof.
  unfold Stateless.ReadAt. destruct (_ =? 0).
  { intros [= <-]. left; reflexivity. }
  unfold Stateless.initCTR.
  destruct (refill _ _) as [x1| |] eqn:E; cbn [bind]; try discriminate.
  2:{ intros [= <-]. eapply refill_panic; eassumption. }
  destruct (slice_from _ _) as [o| |] eqn:Es; cbn [bind]; try discriminate.
  2:{ intros [= <-]. eapply slice_from_panic; eassumption. }
  destruct (read_at _ _ _) as [[p1 n] [e|]]; [discriminate|].
  destruct (XORKeyStream _ _ _ _ _) as [[x2 q]| |] eqn:Ex; cbn [bind];
    try discriminate.
  intros [= <-]. eapply XORKeyStream_panic; eassumption.
Qed.

Lemma Shared_ReadAt_panic fuel x p off msg :
  Shared.ReadAt fuel x p off = Panic msg -> runtime_panic msg.
Proof.
  unfold Shared.ReadAt. destruct (_ =? 0).
  { intros [= <-]. left; reflexivity. }
  unfold Shared.setCTR.
  destruct (refill_loop _ _ _ _ _) as [[[c o] n]| |] eqn:E; cbn [bind];
    try discriminate.
  2:{ now apply refill_loop_no_panic in E. }
  cbn [Shared.r Shared.b Shared.st].
  destruct (read_at _ _ _) as [[p1 n1] [e|]]; [discriminate|].
  destruct (XORKeyStream _ _ _ _ _) as [[x2 q]| |] eqn:Ex; cbn [bind];
    try discriminate.
  intros [= <-]. eapply XORKeyStream_panic; eassumption.
Qed.

Lemma runtime_panic_not_iv_length msg : runtime_panic msg -> msg <> iv_length_panic.
Proof. intros [-> | [-> | ->]]; discriminate. Qed.

(** The errors a read returns are the source's. *)
Lemma Stateless_ReadAt_error_source fuel c p off q n e :
  Stateless.ReadAt fuel c p off = Ok (q, n, Some e) ->
  read_at (Stateless.r c) p off = (q, n, Some e).
Proof.
  unfold Stateless.ReadAt. destruct (_ =? 0); [discriminate|].
  destruct (Stateless.initCTR _ _ _) as [x| |]; cbn [bind]; try discriminate.
  destruct (read_at _ _ _) as [[p1 n1] [e1|]].
  - now intros [= <- <- <-].
  - destruct (XORKeyStream _ _ _ _ _) as [[x2 q2]| |]; cbn [bind]; discriminate.
Qed.

Lemma Shared_ReadAt_error_source fuel x p off x' q n e :
  Shared.ReadAt fuel x p off = Ok (x', q, n, Some e) ->
  read_at (Shared.r x) p off = (q, n, Some e).
Proof.
  unfold Shared.ReadAt. destruct (_ =? 0); [discriminate|].
  unfold Shared.setCTR.
  destruct (refill_loop _ _ _ _ _) as [[[c o] m]| |]; cbn [bind]; try discriminate.
  cbn [Shared.r Shared.b Shared.st].
  destruct (read_at _ _ _) as [[p1 n1] [e1|]].
  - now intros [= _ <- <- <-].
  - destruct (XORKeyStream _ _ _ _ _) as [[x2 q2]| |]; cbn [bind]; discriminate.
Qed.

(** C6.  Construction panics, with the message on the length of the IV, if
    and only if the length of the initial counter differs from the block
    size of the cipher; with equal lengths it returns the engine over the
    given cipher, counter and source.  No later read surfaces the mismatch:
    an error that [ReadAt] returns is the error the source returned for that
    request, and a panic of [ReadAt] is a panic of the Go runtime, never the
    one of the construction.  Both engines. *)
Theorem construction_fails_iff_iv_length_differs :
  forall (blk : Block) (iv0 : list byte) (rd : ReaderAt),
    (Stateless.NewCTRReaderAt blk iv0 rd = Panic iv_length_panic
       <-> length iv0 <> BlockSize blk) /\
    (Shared.NewCTRReaderAt blk iv0 rd = Panic iv_length_panic
       <-> length iv0 <> BlockSize blk) /\
    (length iv0 = BlockSize blk <->
       exists c, Stateless.NewCTRReaderAt blk iv0 rd = Ok c /\
                 Stateless.b c = blk /\ Stateless.iv c = iv0 /\ Stateless.r c = rd) /\
    (length iv0 = BlockSize blk <->
       exists x, Shared.NewCTRReaderAt blk iv0 rd = Ok x /\
                 Shared.b x = blk /\ Shared.iv x = iv0 /\ Shared.r x = rd) /\
    (forall fuel c p off,
        (forall q n e, Stateless.ReadAt fuel c p off = Ok (q, n, Some e) ->
                       read_at (Stateless.r c) p off = (q, n, Some e)) /\
        Stateless.ReadAt fuel c p off <> Panic iv_length_panic) /\
    (forall fuel x p off,
        (forall x' q n e, Shared.ReadAt fuel x p off = Ok (x', q, n, Some e) ->
                          read_at (Shared.r x) p off = (q, n, Some e)) /\
        Shared.ReadAt fuel x p off <> Panic iv_length_panic).
Proof.
  intros blk iv0 rd.
  split; [|split; [|split; [|split; [|split]]]].
  - unfold Stateless.NewCTRReaderAt.
    destruct (Nat.eqb_spec (length iv0) (BlockSize blk)) as [He|Hne]; cbn [negb].
    + split; [intros H; discriminate H|intros H; contradiction].
    + split; [intros _; exact Hne|reflexivity].
  - unfold Shared.NewCTRReaderAt.
    destruct (Nat.eqb_spec (length iv0) (BlockSize blk)) as [He|Hne]; cbn [negb].
    + split; [intros H; discriminate H|intros H; contradiction].
    + split; [intros _; exact Hne|reflexivity].
  - split.
    + intros Hlen. eexists. split; [now apply Stateless_new_ok|]. auto.
    + intros (c & Hnew & _). now apply Stateless_new_inv in Hnew.
  - split.
    + intros Hlen. destruct (Shared_new_ok blk iv0 rd Hlen) as (x & H1 & H2 & H3 & H4 & _).
      exists x. auto.
    + intros (x & Hnew & _). unfold Shared.NewCTRReaderAt in Hnew.
      destruct (Nat.eqb_spec (length iv0) (BlockSize blk)); [assumption|discriminate].
  - intros fuel c p off. split.
    + intros q n e. apply Stateless_ReadAt_error_source.
    + intros H. apply Stateless_ReadAt_panic in H.
      now apply runtime_panic_not_iv_length in H.
  - intros fuel x p off. split.
    + intros x' q n e. apply Shared_ReadAt_error_source.
    + intros H. apply Shared_ReadAt_panic in H.
      now apply runtime_panic_not_iv_length in H.
Qed.

(** ** Combination with the keystream *)

Lemma xor_with_involutive (a k : list byte) :
  length a <= length k -> xor_with (xor_with a k) k = a.
Proof.
  unfold xor_with. revert k. induction a as [|x a IH]; intros [|y k] Hlen;
    simpl in *; try reflexivity; try lia.
  rewrite byte_xor_involutive. f_equal. apply IH. lia.
Qed.

Lemma length_xor_with (a k : list byte) :
  length a <= length k -> length (xor_with a k) = length a.
Proof. intros H. unfold xor_with. rewrite length_zip_with. lia. Qed.

Lemma bytesReader_read (s p : list byte) (off : nat) :
  off < length s -> off + length p <= length s ->
  read_at (bytesReader s) p (Z.of_nat off)
  = (take (length p) (drop off s), Z.of_nat (length p), None).
Proof.
  intros Hoff Hend. unfold bytesReader. cbn [read_at].
  destruct (Z.ltb_spec (Z.of_nat off) 0) as [|_]; [lia|].
  destruct (Z.geb_spec (Z.of_nat off) (Z.of_nat (length s))) as [|_]; [lia|].
  rewrite Nat2Z.id, length_drop.
  replace (Nat.min (length p) (length s - off)) with (length p) by lia.
  rewrite Nat.ltb_irrefl. f_equal. f_equal.
  unfold copy. rewrite length_drop.
  replace (Nat.min (length p) (length s - off)) with (length p) by lia.
  rewrite drop_all. apply app_nil_r.
Qed.

Lemma bytesReader_ok s : ReaderAt_ok (bytesReader s).
Proof.
  intros p off. unfold bytesReader. cbn [read_at].
  destruct (_ <? _)%Z; [reflexivity|]. destruct (_ >=? _)%Z; [reflexivity|].
  cbn. unfold copy. rewrite length_app, length_take, !length_drop. lia.
Qed.

Section Roundtrip.

Variable blk : Block.
Hypothesis blk_ok : Block_ok blk.
Hypothesis blk_pos : 0 < BlockSize blk.

Lemma length_keystream_at iv0 off n :
  length iv0 = BlockSize blk -> length (keystream_at blk iv0 off n) = n.
Proof.
  intros Hiv. unfold keystream_at.
  rewrite length_drop, length_keystream by assumption. lia.
Qed.

Lemma take_keystream iv0 m n :
  length iv0 = BlockSize blk -> m <= n ->
  take m (keystream blk iv0 n) = keystream blk iv0 m.
Proof.
  intros Hiv Hmn. unfold keystream at 1. rewrite take_take, Nat.min_l by lia.
  apply keystream_take; try assumption. nia.
Qed.

(** A slice of the ciphertext is the slice of the plaintext combined with
    the keystream of the same positions. *)
Lemma stdCTR_slice iv0 pt off n :
  length iv0 = BlockSize blk -> off + n <= length pt ->
  take n (drop off (stdCTR blk iv0 pt))
  = xor_with (take n (drop off pt)) (keystream_at blk iv0 off n).
Proof.
  intros Hiv Hend. unfold stdCTR, xor_with.
  rewrite zip_with_drop, zip_with_take. f_equal.
  unfold keystream_at. rewrite take_drop_commute. f_equal.
  now apply take_keystream.
Qed.

(** The stateless engine gives back the plaintext, whenever its buffer
    size less the offset in the block leaves room for a block: in
    particular for every cipher with blocks of at most 256 bytes. *)
Lemma Stateless_roundtrip iv0 pt c (p : list byte) (off fuel : nat) :
  Stateless.NewCTRReaderAt blk iv0 (bytesReader (stdCTR blk iv0 pt)) = Ok c ->
  off < length pt -> off + length p <= length pt ->
  (Z.of_nat off < 2 ^ 63)%Z ->
  BlockSize blk + off mod BlockSize blk <= bufSize_for blk ->
  length p <= fuel ->
  Stateless.ReadAt fuel c p (Z.of_nat off)
  = Ok (take (length p) (drop off pt), Z.of_nat (length p), None).
Proof.
  intros Hnew Hoff Hend Hint Hroom Hfuel.
  destruct (Stateless_new_inv _ _ _ _ Hnew) as [Hiv ->].
  pose proof (bufSize_for_ge blk) as Hge.
  assert (Hct : length (stdCTR blk iv0 pt) = length pt).
  { unfold stdCTR. apply length_xor_with. now rewrite length_keystream. }
  assert (Hlt : length (take (length p) (drop off (stdCTR blk iv0 pt))) = length p).
  { rewrite length_take, length_drop. lia. }
  rewrite (Stateless_ReadAt_spec blk blk_ok blk_pos fuel _ p (Z.of_nat off)
             (take (length p) (drop off (stdCTR blk iv0 pt)))
             (Z.of_nat (length p))); cbn [Stateless.b Stateless.iv Stateless.bs
                                          Stateless.r]; try reflexivity.
  - rewrite Hlt, Nat2Z.id, stdCTR_slice by assumption.
    rewrite xor_with_involutive; [reflexivity|].
    rewrite length_keystream_at, length_take, length_drop by assumption. lia.
  - split; assumption.
  - lia.
  - apply bytesReader_read; lia.
  - rewrite Z.rem_mod_nonneg by lia. rewrite <- Nat2Z.inj_mod, Nat2Z.id. exact Hroom.
  - lia.
Qed.

Lemma Stateless_roundtrip_small_blocks iv0 pt c (p : list byte) (off fuel : nat) :
  BlockSize blk <= 256 ->
  Stateless.NewCTRReaderAt blk iv0 (bytesReader (stdCTR blk iv0 pt)) = Ok c ->
  off < length pt -> off + length p <= length pt ->
  (Z.of_nat off < 2 ^ 63)%Z ->
  length p <= fuel ->
  Stateless.ReadAt fuel c p (Z.of_nat off)
  = Ok (take (length p) (drop off pt), Z.of_nat (length p), None).
Proof.
  intros Hsmall Hnew Hoff Hend Hint Hfuel.
  apply (Stateless_roundtrip iv0 pt c p off fuel); try assumption.
  pose proof (bufSize_for_min blk) as Hmin. unfold streamBufferSize in Hmin.
  pose proof (Nat.mod_upper_bound off (BlockSize blk) ltac:(lia)). lia.
Qed.

End Roundtrip.

(** ** Reads that the source fails, and reads of no byte *)

Section PassThrough.

Variable blk : Block.
Hypothesis blk_ok : Block_ok blk.
Hypothesis blk_pos : 0 < BlockSize blk.



(** A read into a buffer of no byte asks the source and runs no turn of the
    loop. *)
Lemma Stateless_ReadAt_empty fuel c off :
  Stateless.b c = blk -> Stateless.engine_ok c -> ReaderAt_ok (Stateless.r c) ->
  (0 <= off < 2 ^ 63)%Z ->
  Stateless.ReadAt fuel c [] off = Ok (read_at (Stateless.r c) [] off).
Proof.
  intros Hb Hok Hrd Hoff. unfold Stateless.ReadAt. rewrite Hb.
  destruct (Nat.eqb_spec (BlockSize blk) 0) as [|_]; [lia|].
  destruct (initCTR_spec blk blk_ok blk_pos c off Hb Hok Hoff) as (x & Hinit & _).
  cbv zeta in Hinit. rewrite Hinit. cbn [bind].
  pose proof (Hrd [] off) as Hlen.
  destruct (read_at (Stateless.r c) [] off) as [[p1 n] [e|]]; [reflexivity|].
  cbn [fst length] in Hlen. destruct p1; [|discriminate].
  now rewrite XORKeyStream_nil.
Qed.

Lemma Shared_ReadAt_empty fuel x off :
  Shared.b x = blk -> Shared.engine_ok x -> ReaderAt_ok (Shared.r x) ->
  exists x',
    Shared.ReadAt fuel x [] off
    = Ok (x', (read_at (Shared.r x) [] off).1.1,
              (read_at (Shared.r x) [] off).1.2,
              (read_at (Shared.r x) [] off).2).
Proof.
  intros Hb Hok Hrd. unfold Shared.ReadAt. rewrite Hb.
  destruct (Nat.eqb_spec (BlockSize blk) 0) as [|_]; [lia|].
  set (bN := Z.quot _ _).
  destruct (setCTR_spec blk blk_ok blk_pos x bN Hb Hok)
    as (x1 & Hset & Hb1 & Hiv1 & Hr1 & _).
  rewrite Hset. cbn [bind]. rewrite Hr1.
  pose proof (Hrd [] off) as Hlen.
  destruct (read_at (Shared.r x) [] off) as [[p1 n] [e|]]; cbn [fst snd] in *.
  - now exists x1.
  - destruct p1; [|discriminate]. rewrite XORKeyStream_nil. cbn [bind].
    eexists. reflexivity.
Qed.

End PassThrough.

(** ** A buffer that cannot hold a block *)

(** Once the buffer is used up and its array is shorter than a block, a turn
    of the loop refills nothing and consumes nothing. *)
Lemma refill_nothing blk x :
  State.outUsed x = len (State.out x) ->
  cap (State.out x) < BlockSize blk ->
  refill blk x
  = Ok {| State.ctr := State.ctr x;
          State.out := {| arr := arr (State.out x); len := 0 |};
          State.outUsed := 0 |}.
Proof.
  intros Hused Hcap. unfold refill. rewrite Hused, Nat.leb_refl, Nat.sub_diag.
  assert (Htail : drop (len (State.out x)) (elems (State.out x)) = []).
  { apply drop_ge. unfold elems. rewrite length_take. lia. }
  rewrite Htail. unfold copy_slice. cbn [length arr len].
  rewrite Nat.min_0_r, take_0, drop_0. cbn [app].
  unfold cap in *. cbn [arr]. cbn [refill_loop len].
  destruct (Z.of_nat 0 <=? _)%Z eqn:E; [apply Z.leb_le in E; lia|].
  reflexivity.
Qed.

Lemma consume_nothing x dst s src :
  State.outUsed x = 0 -> len (State.out x) = 0 ->
  consume x dst (s :: src) = Ok (x, dst, 0).
Proof.
  intros Hused Hlen. unfold consume, slice_from. rewrite Hused, Hlen.
  change (Z.of_nat 0) with 0%Z. change (Z.to_nat 0) with 0.
  cbn [Z.leb Z.compare andb bind Nat.sub].
  unfold elems, xorBytes. cbn [len arr]. rewrite take_0.
  cbn [length Nat.ltb Nat.leb bind take zip_with app Nat.add]. rewrite !drop_0.
  destruct x as [c o u]. cbn in *. subst u. reflexivity.
Qed.

Lemma XORKeyStream_stuck fuel blk :
  forall x dst s src,
    State.outUsed x = len (State.out x) ->
    cap (State.out x) < BlockSize blk ->
    XORKeyStream fuel blk x dst (s :: src) = Timeout.
Proof.
  induction fuel as [|fuel IH]; intros x dst s src Hused Hcap; [reflexivity|].
  rewrite XORKeyStream_cons.
  unfold XORKeyStream_step, top_up, needs_refill.
  destruct (Z.of_nat (State.outUsed x) >=? _)%Z eqn:E;
    [|rewrite Z.geb_leb in E; apply Z.leb_gt in E; lia].
  rewrite refill_nothing by assumption. cbn [bind].
  rewrite consume_nothing by reflexivity. cbn [bind].
  rewrite !drop_0. rewrite IH; [reflexivity|reflexivity|exact Hcap].
Qed.

Section RunsDry.

Variable blk : Block.
Hypothesis blk_ok : Block_ok blk.
Hypothesis blk_pos : 0 < BlockSize blk.

(** When the array of the buffer is shorter than a block and the source
    bytes outnumber the unconsumed bytes, the loop hands out what it has
    and then turns forever. *)
Lemma XORKeyStream_runs_dry fuel x dst src :
  length (State.ctr x) = BlockSize blk -> state_ok x ->
  length dst = length src ->
  cap (State.out x) < BlockSize blk ->
  length (unconsumed x) < length src ->
  XORKeyStream fuel blk x dst src = Timeout.
Proof.
  intros Hc Hok Hlen Hcap Hmore.
  destruct src as [|s src]; [simpl in Hmore; lia|].
  destruct fuel as [|fuel]; [reflexivity|].
  rewrite XORKeyStream_cons.
  destruct (XORKeyStream_step_spec blk blk_ok blk_pos x dst (s :: src) Hc Hok Hlen)
    as (k & x1 & Hstep & Hun1 & Hctr1 & Hok1 & Hcap1 & _ & Hbound).
  cbv zeta in Hstep, Hun1, Hbound.
  assert (Hk : k = 0).
  { rewrite length_app, length_blocks in Hbound by assumption.
    destruct k; [reflexivity|]. simpl in Hbound. lia. }
  subst k. cbn [blocks] in *. rewrite app_nil_r in *.
  replace (Nat.min (length (s :: src)) (length (unconsumed x)))
    with (length (unconsumed x)) in * by lia.
  rewrite Hstep. cbn [bind].
  rewrite drop_all in Hun1.
  pose proof (unconsumed_length x1 Hok1) as Hl1. rewrite Hun1 in Hl1.
  cbn [length] in Hl1.
  destruct (drop (length (unconsumed x)) (s :: src)) as [|s' src'] eqn:Hd.
  { apply (f_equal length) in Hd. rewrite length_drop in Hd. simpl in *. lia. }
  rewrite XORKeyStream_stuck; [reflexivity| |lia].
  destruct Hok1. lia.
Qed.

(** The stateless engine: a read that asks for more bytes than [initCTR]
    buffered, at an offset that leaves the array of the buffer shorter
    than a block, never returns. *)
Lemma Stateless_ReadAt_diverges fuel c p off p1 n :
  Stateless.b c = blk -> Stateless.engine_ok c -> (0 <= off < 2 ^ 63)%Z ->
  read_at (Stateless.r c) p off = (p1, n, None) ->
  Stateless.bs c - Z.to_nat (Z.rem off (Z.of_nat (BlockSize blk))) < BlockSize blk ->
  fitting blk (Stateless.bs c) 0 * BlockSize blk
    - Z.to_nat (Z.rem off (Z.of_nat (BlockSize blk))) < length p1 ->
  Stateless.ReadAt fuel c p off = Timeout.
Proof.
  intros Hb Hok Hoff Hread Hcap Hmore. unfold Stateless.ReadAt. rewrite Hb.
  destruct (Nat.eqb_spec (BlockSize blk) 0) as [|_]; [lia|].
  destruct (initCTR_spec blk blk_ok blk_pos c off Hb Hok Hoff)
    as (x & Hinit & Hokx & Hcx & Hcapx & Hlenx & _).
  cbv zeta in Hinit, Hcapx, Hlenx. rewrite Hinit. cbn [bind]. rewrite Hread.
  rewrite XORKeyStream_runs_dry; try assumption; try reflexivity; lia.
Qed.

End RunsDry.

(** ** The examples *)

Lemma toyBlock_ok n : Block_ok (toyBlock n).
Proof. intros src Hlen. unfold toyBlock. cbn [Encrypt BlockSize]. now rewrite length_map. Qed.

Lemma ex_stateless_new :
  Stateless.NewCTRReaderAt ex_blk ex_iv ex_src = Ok ex_stateless.
Proof. reflexivity. Qed.

Lemma ex_shared_new : Shared.NewCTRReaderAt ex_blk ex_iv ex_src = Ok ex_shared.
Proof. reflexivity. Qed.

Lemma big_stateless_new :
  Stateless.NewCTRReaderAt big_blk big_iv big_src = Ok big_stateless.
Proof. vm_compute. reflexivity. Qed.

(** C1 (the shared engine).  The plaintext [0 .. 11] is encrypted
    sequentially under the toy cipher and read back at offset 5, one byte
    after a block boundary: the engine of [src/unnamed/part_000] returns
    [5 9 8 8 9], not the plaintext [5 6 7 8 9], which the engine of
    [src/aesctr/ctr.go] does return. *)
Theorem shared_read_after_block_boundary_is_wrong :
  Shared.NewCTRReaderAt ex_blk ex_iv (bytesReader (stdCTR ex_blk ex_iv ex_plain))
    = Ok ex_shared /\
  (exists x',
      Shared.ReadAt 5 ex_shared (replicate 5 byte_zero) 5
      = Ok (x', bytes_of [5; 9; 8; 8; 9]%Z, 5%Z, None)) /\
  take 5 (drop 5 ex_plain) = bytes_of [5; 6; 7; 8; 9]%Z /\
  bytes_of [5; 9; 8; 8; 9]%Z <> take 5 (drop 5 ex_plain) /\
  Stateless.ReadAt 5 ex_stateless (replicate 5 byte_zero) 5
    = Ok (bytes_of [5; 6; 7; 8; 9]%Z, 5%Z, None).
Proof.
  split; [reflexivity|]. split.
  - eexists. vm_compute. reflexivity.
  - split; [reflexivity|]. split; [|vm_compute; reflexivity].
    vm_compute. discriminate.
Qed.

(** C10 (the stateless engine).  With a cipher of 1024-byte blocks,
    [NewCTRReaderAt] raises the buffer size to one block; a read of 1024
    bytes at offset 1 makes [initCTR] drop the first byte of the buffer, whose
    array is then one byte short of a block: [XORKeyStream] hands out the
    1023 bytes it has and then turns forever, whatever the number of turns
    allowed. *)
Theorem stateless_xor_loop_never_returns :
  Stateless.NewCTRReaderAt big_blk big_iv big_src = Ok big_stateless /\
  (exists x,
      Stateless.initCTR big_stateless 0 1 = Ok x /\
      cap (State.out x) = 1023 /\
      forall fuel,
        XORKeyStream fuel big_blk x (replicate 1024 byte_zero) (replicate 1024 byte_zero)
        = Timeout) /\
  (forall fuel,
      Stateless.ReadAt fuel big_stateless (replicate 1024 byte_zero) 1 = Timeout).
Proof.
  assert (Hok : Stateless.engine_ok big_stateless).
  { split; vm_compute; [reflexivity|]. lia. }
  split; [exact big_stateless_new|]. split.
  - destruct (initCTR_spec big_blk (toyBlock_ok 1024) ltac:(vm_compute; lia)
                big_stateless 1 eq_refl Hok ltac:(lia))
      as (x & Hinit & Hokx & Hcx & Hcapx & Hlenx & _).
    exists x. split; [exact Hinit|]. split; [exact Hcapx|].
    intros fuel.
    apply (XORKeyStream_runs_dry big_blk (toyBlock_ok 1024) ltac:(vm_compute; lia));
      try assumption; try reflexivity.
    + rewrite Hcapx. vm_compute. lia.
    + rewrite Hlenx, length_replicate. vm_compute. lia.
  - intros fuel.
    apply (Stateless_ReadAt_diverges big_blk (toyBlock_ok 1024) ltac:(vm_compute; lia)
             fuel big_stateless (replicate 1024 byte_zero) 1
             (replicate 1024 byte_zero) 1024%Z eq_refl Hok ltac:(lia)).
    + vm_compute. reflexivity.
    + vm_compute. lia.
    + rewrite length_replicate. vm_compute. lia.
Qed.



(** C9 (amended).  At a non-negative offset, on an engine made by
    [NewCTRReaderAt] over a source that keeps the length of the buffer (for
    the shared engine, also after any earlier reads): a read into a buffer of
    length zero returns what the source returns for that request, count and
    error, whatever the number of turns allowed; hence zero bytes and no
    error exactly when the source reports so. *)
Theorem zero_length_read_returns_what_the_source_returns :
  forall (blk : Block) (iv0 : list byte) (rd : ReaderAt)
         (c : Stateless.ctr) (x0 x : Shared.ctr) (fuel : nat) (off : Z),
    Block_ok blk -> 0 < BlockSize blk -> ReaderAt_ok rd -> (0 <= off < 2 ^ 63)%Z ->
    Stateless.NewCTRReaderAt blk iv0 rd = Ok c ->
    Shared.NewCTRReaderAt blk iv0 rd = Ok x0 -> Shared.reachable x0 x ->
    Stateless.ReadAt fuel c [] off = Ok (read_at rd [] off) /\
    (exists x',
        Shared.ReadAt fuel x [] off
        = Ok (x', (read_at rd [] off).1.1, (read_at rd [] off).1.2,
                  (read_at rd [] off).2)) /\
    (read_at rd [] off = ([], 0%Z, None) ->
     Stateless.ReadAt fuel c [] off = Ok ([], 0%Z, None) /\
     exists x', Shared.ReadAt fuel x [] off = Ok (x', [], 0%Z, None)).
Proof.
  intros blk iv0 rd c x0 x fuel off Hblk Hpos Hrd Hoff HnewA HnewB Hreach.
  destruct (Stateless_new_inv _ _ _ _ HnewA) as [Hiv ->].
  destruct (Shared_new_ok blk iv0 rd Hiv) as (x0' & Hnew' & Hb0 & Hiv0 & Hr0 & Hok0).
  rewrite HnewB in Hnew'. injection Hnew' as <-.
  destruct (Shared_reachable_inv blk Hblk Hpos x0 x Hb0 Hok0 Hreach)
    as (Hbx & Hivx & Hrx & Hokx).
  set (cA := {| Stateless.b := blk; Stateless.iv := iv0;
                Stateless.bs := bufSize_for blk; Stateless.r := rd |}).
  assert (HA : Stateless.ReadAt fuel cA [] off = Ok (read_at rd [] off)).
  { apply (Stateless_ReadAt_empty blk Hblk Hpos fuel cA off eq_refl); try assumption.
    split; [exact Hiv|apply bufSize_for_ge]. }
  assert (HB : exists x',
             Shared.ReadAt fuel x [] off
             = Ok (x', (read_at rd [] off).1.1, (read_at rd [] off).1.2,
                       (read_at rd [] off).2)).
  { destruct (Shared_ReadAt_empty blk Hblk Hpos fuel x off Hbx Hokx) as (x' & Hx).
    - now rewrite Hrx, Hr0.
    - exists x'. now rewrite Hrx, Hr0 in Hx. }
  split; [exact HA|]. split; [exact HB|].
  intros Hsrc. rewrite Hsrc in HA, HB. split; [exact HA|exact HB].
Qed.

(** C9 as stated fails: a read of no byte at offset 12, the end of the 12
    ciphertext bytes, returns the error [io.EOF] of the source. *)
Lemma zero_length_read_at_end_returns_eof :
  Stateless.NewCTRReaderAt ex_blk ex_iv ex_src = Ok ex_stateless /\
  Stateless.ReadAt 0 ex_stateless [] 12 = Ok ([], 0%Z, Some EOF) /\
  Some EOF <> (None : option error).
Proof.
  split; [reflexivity|]. split; [vm_compute; reflexivity|discriminate].
Qed.

(** ** The counter of a block *)

Lemma length_be_bytes B v : length (be_bytes B v) = B.
Proof.
  revert v. induction B as [|B IH]; intros v; cbn [be_bytes]; [reflexivity|].
  rewrite length_app, IH. simpl. lia.
Qed.

Lemma be_value_be_bytes B v :
  be_value (be_bytes B v) = (v mod 256 ^ Z.of_nat B)%Z.
Proof.
  revert v. induction B as [|B IH]; intros v; cbn [be_bytes].
  - rewrite be_value_nil. simpl. now rewrite Z.mod_1_r.
  - rewrite be_value_snoc, IH, byte.unsigned_of_Z. unfold byte.wrap.
    rewrite Nat2Z.inj_succ, Z.pow_succ_r by lia.
    change (2 ^ 8)%Z with 256%Z.
    rewrite (Z.rem_mul_r v 256 (256 ^ Z.of_nat B)) by lia. lia.
Qed.

Lemma length_counter_plus iv0 n : length (counter_plus iv0 n) = length iv0.
Proof. apply length_be_bytes. Qed.

Lemma be_value_counter_plus iv0 n :
  be_value (counter_plus iv0 n)
  = ((be_value iv0 + n) mod 256 ^ Z.of_nat (length iv0))%Z.
Proof. apply be_value_be_bytes. Qed.

Lemma counter_plus_0 iv0 : counter_plus iv0 0 = iv0.
Proof.
  apply be_value_inj; [apply length_counter_plus|].
  rewrite be_value_counter_plus, Z.add_0_r.
  apply Z.mod_small, be_value_range.
Qed.

Lemma counter_plus_succ iv0 n :
  counter_plus iv0 (n + 1) = incr (counter_plus iv0 n).
Proof.
  apply be_value_inj.
  - now rewrite length_incr, !length_counter_plus.
  - rewrite be_value_incr, length_counter_plus, !be_value_counter_plus.
    rewrite Zplus_mod_idemp_l. f_equal. lia.
Qed.

(** The counter after [k] increments is the initial counter plus [k]. *)
Lemma counter_at_plus iv0 k : counter_at iv0 k = counter_plus iv0 (Z.of_nat k).
Proof.
  apply be_value_inj.
  - now rewrite length_counter_at, length_counter_plus.
  - unfold counter_at. now rewrite be_value_iter_incr, be_value_counter_plus.
Qed.

Lemma blocks_from blk iv0 j0 k s :
  flat_map (fun j => Encrypt blk (counter_plus iv0 (j0 + Z.of_nat j))) (seq s k)
  = blocks blk k (counter_plus iv0 (j0 + Z.of_nat s)).
Proof.
  revert s. induction k as [|k IH]; intros s; [reflexivity|].
  cbn [seq flat_map blocks]. rewrite IH, <- counter_plus_succ.
  do 3 f_equal. lia.
Qed.

Lemma blocks_counter_blocks blk iv0 j0 k :
  blocks blk k (counter_plus iv0 j0) = counter_blocks blk iv0 j0 k.
Proof.
  unfold counter_blocks. rewrite blocks_from. do 2 f_equal. lia.
Qed.

Lemma blocks_counter_at blk iv0 j k :
  blocks blk k (counter_at iv0 j) = counter_blocks blk iv0 (Z.of_nat j) k.
Proof. now rewrite counter_at_plus, blocks_counter_blocks. Qed.

Lemma xor_with_take (p l : list byte) n :
  length p <= n -> xor_with p (take n l) = xor_with p l.
Proof.
  revert l n. induction p as [|a p IH]; intros l n Hn; [reflexivity|].
  destruct l as [|e l]; [now rewrite take_nil|].
  destruct n as [|n]; [simpl in Hn; lia|].
  cbn. f_equal. apply IH. simpl in Hn. lia.
Qed.

Section CounterBlocks.

Variable blk : Block.
Hypothesis blk_ok : Block_ok blk.
Hypothesis blk_pos : 0 < BlockSize blk.

(** [initCTR] for any block index and any offset inside the blocks it
    buffers: the buffer holds the cipher applied to the counters of the
    blocks [bN], [bN + 1], ..., less the first [bOff] bytes. *)
Lemma initCTR_at c bN bOff :
  Stateless.b c = blk -> Stateless.engine_ok c -> (0 <= bN < 2 ^ 63)%Z ->
  let k := fitting blk (Stateless.bs c) 0 in
  (0 <= bOff <= Z.of_nat (k * BlockSize blk))%Z ->
  exists s,
    Stateless.initCTR c bN bOff = Ok s /\
    elems (State.out s)
      = drop (Z.to_nat bOff) (counter_blocks blk (Stateless.iv c) bN k) /\
    State.ctr s = counter_plus (Stateless.iv c) (bN + Z.of_nat k).
Proof.
  intros Hb [Hiv Hbs] HbN k HbOff. rewrite Hb in *.
  unfold Stateless.initCTR. rewrite Hb.
  rewrite initCTR_counter_iter by lia.
  set (c0 := counter_at (Stateless.iv c) (Z.to_nat bN)).
  assert (Hc0 : length c0 = BlockSize blk)
    by (unfold c0; now rewrite length_counter_at).
  set (x0 := {| State.ctr := c0;
                State.out := {| arr := replicate (Stateless.bs c) byte_zero; len := 0 |};
                State.outUsed := 0 |}).
  assert (Hok0 : state_ok x0) by (unfold state_ok, x0; simpl; lia).
  assert (Hun0 : unconsumed x0 = []) by reflexivity.
  destruct (refill_spec blk blk_ok blk_pos x0 Hc0 Hok0)
    as (x1 & Hr & He & Hctr & Hu & Hcap & Hlen & Hle & Hfree).
  rewrite Hun0 in *. cbn [length app] in *.
  change (State.ctr x0) with c0 in *.
  assert (Hcap0 : cap (State.out x0) = Stateless.bs c)
    by (unfold cap, x0; simpl; apply length_replicate).
  rewrite Hcap0 in *. fold k in He, Hctr, Hlen.
  rewrite !Nat.add_0_l in *.
  rewrite Hr. cbn [bind]. unfold slice_from.
  destruct (Z.leb_spec 0 bOff) as [_|]; [|lia].
  destruct (Z.leb_spec bOff (Z.of_nat (len (State.out x1)))) as [_|]; [|lia].
  cbn [andb bind]. eexists. split; [reflexivity|].
  cbn [State.ctr State.out State.outUsed]. unfold elems in *. cbn [arr len].
  split.
  - rewrite take_drop_commute.
    replace (Z.to_nat bOff + (len (State.out x1) - Z.to_nat bOff))
      with (len (State.out x1)) by lia.
    rewrite He. unfold c0. rewrite blocks_counter_at. now rewrite Z2Nat.id by lia.
  - rewrite Hctr. unfold c0. rewrite <- counter_at_add, counter_at_plus.
    f_equal. lia.
Qed.

(** [setCTR] for any block index: the buffer holds the cipher applied to
    the counters of as many blocks from [bN] on as fit in its previous
    length, and the counter stands after them. *)
Lemma setCTR_at x bN :
  Shared.b x = blk -> Shared.engine_ok x -> (0 <= bN)%Z ->
  let k := fitting blk (len (State.out (Shared.st x))) 0 in
  exists x1,
    Shared.setCTR x bN = Ok x1 /\
    elems (State.out (Shared.st x1)) = counter_blocks blk (Shared.iv x) bN k /\
    State.ctr (Shared.st x1) = counter_plus (Shared.iv x) (bN + Z.of_nat k).
Proof.
  intros Hb (Hiv & Hctr & Hlen & Hcap) HbN k. rewrite Hb in *.
  unfold Shared.setCTR. rewrite Hb.
  rewrite setCTR_counter_iter by congruence.
  set (c0 := counter_at (Shared.iv x) (Z.to_nat bN)).
  assert (Hc0 : length c0 = BlockSize blk)
    by (unfold c0; now rewrite length_counter_at).
  set (o := State.out (Shared.st x)) in *.
  rewrite (refill_loop_enough blk blk_ok blk_pos c0 o 0 Hc0 Hlen ltac:(lia)).
  fold k. cbn [bind]. eexists. split; [reflexivity|].
  cbn [Shared.st State.ctr State.out]. unfold elems. cbn [arr len].
  rewrite take_0. cbn [app]. rewrite !Nat.add_0_l.
  assert (Hlenb : length (blocks blk k c0) = k * BlockSize blk)
    by now apply length_blocks.
  split.
  - rewrite (take_app_length' (blocks blk k c0) _ (k * BlockSize blk) (eq_sym Hlenb)).
    unfold c0. rewrite blocks_counter_at. now rewrite Z2Nat.id by lia.
  - unfold c0. rewrite <- counter_at_add, counter_at_plus. f_equal. lia.
Qed.

(** The keystream of a read in terms of the counters of its blocks. *)
Lemma xor_keystream_at iv0 (p1 : list byte) bN bOff :
  length iv0 = BlockSize blk -> (0 <= bN)%Z ->
  (0 <= bOff < Z.of_nat (BlockSize blk))%Z ->
  xor_with p1
    (keystream_at blk iv0
       (Z.to_nat (bN * Z.of_nat (BlockSize blk) + bOff)) (length p1))
  = xor_with p1
      (drop (Z.to_nat bOff) (counter_blocks blk iv0 bN (S (length p1)))).
Proof.
  intros Hiv HbN HbOff.
  replace (Z.to_nat (bN * Z.of_nat (BlockSize blk) + bOff))
    with (Z.to_nat bN * BlockSize blk + Z.to_nat bOff) by nia.
  rewrite (keystream_at_block blk blk_ok blk_pos iv0 _ _ _ (S (length p1)))
    by (assumption || nia).
  rewrite xor_with_take by lia.
  rewrite blocks_counter_at. now rewrite Z2Nat.id by lia.
Qed.

Lemma xor_keystream iv0 (p1 : list byte) bN :
  length iv0 = BlockSize blk -> (0 <= bN)%Z ->
  xor_with p1 (keystream blk (counter_at iv0 (Z.to_nat bN)) (length p1))
  = xor_with p1 (counter_blocks blk iv0 bN (length p1)).
Proof.
  intros Hiv HbN. unfold keystream. rewrite xor_with_take by lia.
  rewrite blocks_counter_at. now rewrite Z2Nat.id by lia.
Qed.

Lemma offset_of_block bN bOff :
  (0 <= bN)%Z -> (0 <= bOff < Z.of_nat (BlockSize blk))%Z ->
  let off := (bN * Z.of_nat (BlockSize blk) + bOff)%Z in
  Z.rem off (Z.of_nat (BlockSize blk)) = bOff /\
  Z.quot (off - Z.rem off (Z.of_nat (BlockSize blk))) (Z.of_nat (BlockSize blk)) = bN.
Proof.
  intros HbN HbOff off.
  assert (Hrem : Z.rem off (Z.of_nat (BlockSize blk)) = bOff).
  { rewrite Z.rem_mod_nonneg by (unfold off; nia).
    unfold off. rewrite Z.add_comm, Z.mod_add by lia. now apply Z.mod_small. }
  split; [exact Hrem|]. rewrite Hrem.
  replace (off - bOff)%Z with (bN * Z.of_nat (BlockSize blk))%Z by (unfold off; lia).
  rewrite Z.quot_div_nonneg by nia. apply Z.div_mul. lia.
Qed.

(** A read on the shared engine for which the source reports no error. *)
Lemma Shared_ReadAt_no_error fuel x p off p1 n :
  Shared.b x = blk -> Shared.engine_ok x ->
  read_at (Shared.r x) p off = (p1, n, None) -> length p1 <= fuel ->
  exists x',
    Shared.ReadAt fuel x p off
    = Ok (x',
          xor_with p1
            (keystream blk
               (counter_at (Shared.iv x)
                  (Z.to_nat (Z.quot (off - Z.rem off (Z.of_nat (BlockSize blk)))
                                    (Z.of_nat (BlockSize blk)))))
               (length p1)),
          n, None).
Proof.
  intros Hb Hok Hread Hfuel. unfold Shared.ReadAt. rewrite Hb.
  destruct (Nat.eqb_spec (BlockSize blk) 0) as [|_]; [lia|].
  set (bN := Z.quot _ _).
  destruct (setCTR_spec blk blk_ok blk_pos x bN Hb Hok)
    as (x1 & Hset & Hb1 & Hiv1 & Hr1 & Hok1 & Hst1 & Hpend).
  rewrite Hset. cbn [bind]. rewrite Hr1, Hb1, Hread.
  destruct Hok1 as (_ & Hctr' & _ & Hcap'). rewrite Hb1 in *.
  destruct (XORKeyStream_returns blk blk_ok blk_pos fuel (Shared.st x1) p1 p1
              Hctr' Hst1 eq_refl Hcap' Hfuel) as (s2 & Hx & _).
  rewrite Hx. cbn [bind]. rewrite Hpend. eexists. reflexivity.
Qed.

End CounterBlocks.

(** C2.  On the engines made by [NewCTRReaderAt] over a cipher with blocks
    of [B >= 1] bytes and an initial counter [iv0] (the shared engine also
    after any earlier reads), and for every block index [0 <= bN < 2^63] (an
    [int64]).  The counter of block [bN], [counter_plus iv0 bN], is made of
    the [B] bytes whose big-endian value is that of [iv0] plus [bN] modulo
    [2^(8*B)]; block 0 has [iv0] itself, and the counter of the next block
    is the byte-wise increment with carry of this one.  The direct addition
    of [initCTR] and the repeated increment of [setCTR] both compute that
    counter, and it is the one the engines hand to the cipher: [initCTR]
    returns with a buffer that holds [Encrypt] of the counters of the blocks
    [bN], [bN + 1], ... of its buffer, less the offset in the block, and with
    its counter set for the block after them; [setCTR] does the same within
    the previous length of the buffer; and a read at offset
    [bN * B + bOff] for which the source reports no error returns the bytes
    read combined with [Encrypt] of the counters of the blocks [bN],
    [bN + 1], ... (on the stateless engine when its buffer size less [bOff]
    leaves room for a block, and from byte [bOff] of these blocks; on the
    shared engine from their first byte). *)
Theorem counter_block_is_iv_plus_index :
  forall (blk : Block) (iv0 : list byte) (rd : ReaderAt)
         (c : Stateless.ctr) (x0 x : Shared.ctr) (bN : Z),
    Block_ok blk -> 0 < BlockSize blk ->
    Stateless.NewCTRReaderAt blk iv0 rd = Ok c ->
    Shared.NewCTRReaderAt blk iv0 rd = Ok x0 -> Shared.reachable x0 x ->
    (0 <= bN < 2 ^ 63)%Z ->
    (length (counter_plus iv0 bN) = length iv0 /\
     be_value (counter_plus iv0 bN)
     = ((be_value iv0 + bN) mod 2 ^ (8 * Z.of_nat (length iv0)))%Z /\
     counter_plus iv0 0 = iv0 /\
     counter_plus iv0 (bN + 1) = incr (counter_plus iv0 bN)) /\
    (Stateless.initCTR_counter c bN = counter_plus iv0 bN /\
     forall bOff,
       let k := bufSize_for blk / BlockSize blk in
       (0 <= bOff <= Z.of_nat (k * BlockSize blk))%Z ->
       exists s,
         Stateless.initCTR c bN bOff = Ok s /\
         elems (State.out s)
         = drop (Z.to_nat bOff) (counter_blocks blk iv0 bN k) /\
         State.ctr s = counter_plus iv0 (bN + Z.of_nat k)) /\
    (Shared.setCTR_counter x bN = counter_plus iv0 bN /\
     let k := len (State.out (Shared.st x)) / BlockSize blk in
     exists x1,
       Shared.setCTR x bN = Ok x1 /\
       elems (State.out (Shared.st x1)) = counter_blocks blk iv0 bN k /\
       State.ctr (Shared.st x1) = counter_plus iv0 (bN + Z.of_nat k)) /\
    (forall fuel p bOff p1 n,
       (0 <= bOff < Z.of_nat (BlockSize blk))%Z ->
       let off := (bN * Z.of_nat (BlockSize blk) + bOff)%Z in
       (off < 2 ^ 63)%Z ->
       read_at rd p off = (p1, n, None) -> length p1 <= fuel ->
       (BlockSize blk + Z.to_nat bOff <= bufSize_for blk ->
        Stateless.ReadAt fuel c p off
        = Ok (xor_with p1
                (drop (Z.to_nat bOff)
                   (counter_blocks blk iv0 bN (S (length p1)))),
              n, None)) /\
       exists x',
         Shared.ReadAt fuel x p off
         = Ok (x', xor_with p1 (counter_blocks blk iv0 bN (length p1)), n, None)).
Proof.
  intros blk iv0 rd c x0 x bN Hblk Hpos HnewA HnewB Hreach HbN.
  destruct (Stateless_new_inv _ _ _ _ HnewA) as [Hiv ->].
  destruct (Shared_new_ok blk iv0 rd Hiv) as (x0' & Hnew' & Hb0 & Hiv0 & Hr0 & Hok0).
  rewrite HnewB in Hnew'. injection Hnew' as <-.
  destruct (Shared_reachable_inv blk Hblk Hpos x0 x Hb0 Hok0 Hreach)
    as (Hbx & Hivx & Hrx & Hokx).
  set (cA := {| Stateless.b := blk; Stateless.iv := iv0;
                Stateless.bs := bufSize_for blk; Stateless.r := rd |}).
  assert (HbA : Stateless.b cA = blk) by reflexivity.
  assert (HokA : Stateless.engine_ok cA).
  { split; [exact Hiv|apply bufSize_for_ge]. }
  assert (Hivx0 : Shared.iv x = iv0) by congruence.
  split; [|split; [|split]].
  - split; [apply length_counter_plus|].
    split; [rewrite <- pow256_pow2; apply be_value_counter_plus|].
    split; [apply counter_plus_0|apply counter_plus_succ].
  - split.
    + rewrite initCTR_counter_iter by lia. cbn [Stateless.iv cA].
      rewrite counter_at_plus. now rewrite Z2Nat.id by lia.
    + intros bOff k HbOff.
      destruct (initCTR_at blk Hblk Hpos cA bN bOff HbA HokA HbN) as (s & Hs).
      { unfold fitting. cbn [Stateless.bs cA]. now rewrite Nat.sub_0_r. }
      unfold fitting in Hs. cbn [Stateless.bs Stateless.iv cA] in Hs.
      rewrite Nat.sub_0_r in Hs. exists s. exact Hs.
  - split.
    + destruct Hokx as (Hivl & Hctrl & _).
      rewrite setCTR_counter_iter by congruence.
      rewrite counter_at_plus, Hivx0. now rewrite Z2Nat.id by lia.
    + intros k.
      destruct (setCTR_at blk Hblk Hpos x bN Hbx Hokx ltac:(lia)) as (x1 & Hx1).
      unfold fitting in Hx1. rewrite Nat.sub_0_r, Hivx0 in Hx1.
      exists x1. exact Hx1.
  - intros fuel p bOff p1 n HbOff off Hoff Hread Hfuel.
    destruct (offset_of_block blk Hpos bN bOff ltac:(lia) HbOff) as [Hrem Hquot].
    fold off in Hrem, Hquot. split.
    + intros Hroom.
      rewrite (Stateless_ReadAt_spec blk Hblk Hpos fuel cA p off p1 n HbA HokA
                 ltac:(unfold off; nia) Hread ltac:(now rewrite Hrem) Hfuel).
      cbn [Stateless.iv cA]. unfold off.
      now rewrite (xor_keystream_at blk Hblk Hpos iv0 p1 bN bOff Hiv ltac:(lia) HbOff).
    + destruct (Shared_ReadAt_no_error blk Hblk Hpos fuel x p off p1 n Hbx Hokx
                  ltac:(now rewrite Hrx, Hr0) Hfuel) as (x' & Hx').
      exists x'. rewrite Hx', Hquot, Hivx0.
      now rewrite (xor_keystream blk Hpos iv0 p1 bN Hiv ltac:(lia)).
Qed.


(** ** The theorems at concrete inputs *)


(** C2 at block index 3 of the example engines: the initial counter
    [00 00 00 FF] plus 3 is [00 00 01 02], and the toy cipher adds 7 to
    every byte of the counters of the blocks 3 and 4. *)
Lemma counter_block_at_index_3 :
  counter_plus ex_iv 3 = bytes_of [0; 0; 1; 2]%Z /\
  counter_blocks ex_blk ex_iv 3 2 = bytes_of [7; 7; 8; 9; 7; 7; 8; 10]%Z /\
  (length (counter_plus ex_iv 3) = length ex_iv /\
   be_value (counter_plus ex_iv 3)
   = ((be_value ex_iv + 3) mod 2 ^ (8 * Z.of_nat (length ex_iv)))%Z /\
   counter_plus ex_iv 0 = ex_iv /\
   counter_plus ex_iv (3 + 1) = incr (counter_plus ex_iv 3)) /\
  (Stateless.initCTR_counter ex_stateless 3 = counter_plus ex_iv 3 /\
   forall bOff,
     let k := bufSize_for ex_blk / BlockSize ex_blk in
     (0 <= bOff <= Z.of_nat (k * BlockSize ex_blk))%Z ->
     exists s,
       Stateless.initCTR ex_stateless 3 bOff = Ok s /\
       elems (State.out s)
       = drop (Z.to_nat bOff) (counter_blocks ex_blk ex_iv 3 k) /\
       State.ctr s = counter_plus ex_iv (3 + Z.of_nat k)) /\
  (Shared.setCTR_counter ex_shared 3 = counter_plus ex_iv 3 /\
   let k := len (State.out (Shared.st ex_shared)) / BlockSize ex_blk in
   exists x1,
     Shared.setCTR ex_shared 3 = Ok x1 /\
     elems (State.out (Shared.st x1)) = counter_blocks ex_blk ex_iv 3 k /\
     State.ctr (Shared.st x1) = counter_plus ex_iv (3 + Z.of_nat k)) /\
  (forall fuel p bOff p1 n,
     (0 <= bOff < Z.of_nat (BlockSize ex_blk))%Z ->
     let off := (3 * Z.of_nat (BlockSize ex_blk) + bOff)%Z in
     (off < 2 ^ 63)%Z ->
     read_at ex_src p off = (p1, n, None) -> length p1 <= fuel ->
     (BlockSize ex_blk + Z.to_nat bOff <= bufSize_for ex_blk ->
      Stateless.ReadAt fuel ex_stateless p off
      = Ok (xor_with p1
              (drop (Z.to_nat bOff)
                 (counter_blocks ex_blk ex_iv 3 (S (length p1)))),
            n, None)) /\
     exists x',
       Shared.ReadAt fuel ex_shared p off
       = Ok (x', xor_with p1 (counter_blocks ex_blk ex_iv 3 (length p1)), n, None)).
Proof.
  split; [vm_compute; reflexivity|]. split; [vm_compute; reflexivity|].
  apply (counter_block_is_iv_plus_index
           ex_blk ex_iv ex_src ex_stateless ex_shared ex_shared 3).
  - apply toyBlock_ok.
  - simpl. lia.
  - reflexivity.
  - reflexivity.
  - apply Shared.reach_init.
  - lia.
Defined.

(** C7 at a state with one unconsumed byte. *)
Lemma refill_of_example_state :
  exists (k : nat) (x' : ctrState),
    refill ex_blk ex_state = Ok x' /\
    elems (State.out x') = unconsumed ex_state ++ blocks ex_blk k (State.ctr ex_state) /\
    State.ctr x' = Nat.iter k incr (State.ctr ex_state) /\
    len (State.out x') = length (unconsumed ex_state) + k * BlockSize ex_blk /\
    cap (State.out x') = cap (State.out ex_state) /\
    len (State.out x') <= cap (State.out x') /\
    cap (State.out x') - len (State.out x') < BlockSize ex_blk /\
    State.outUsed x' = 0.
Proof.
  apply (refill_moves_tail_then_fills ex_blk ex_state).
  - apply toyBlock_ok.
  - simpl. lia.
  - reflexivity.
  - unfold state_ok, cap. simpl. lia.
Defined.

(** C8 at the same state, for three source bytes. *)
Lemma cursor_invariant_of_example_state :
  (exists x', refill ex_blk ex_state = Ok x' /\ state_ok x') /\
  (exists x' dst' n,
      consume ex_state (bytes_of [1; 2; 3]%Z) (bytes_of [1; 2; 3]%Z) = Ok (x', dst', n) /\
      state_ok x') /\
  (length (unconsumed ex_state) < BlockSize ex_blk ->
   XORKeyStream_step ex_blk ex_state (bytes_of [1; 2; 3]%Z) (bytes_of [1; 2; 3]%Z)
   = (do x1 <- refill ex_blk ex_state;
      consume x1 (bytes_of [1; 2; 3]%Z) (bytes_of [1; 2; 3]%Z))) /\
  (exists x' dst' n,
      XORKeyStream_step ex_blk ex_state (bytes_of [1; 2; 3]%Z) (bytes_of [1; 2; 3]%Z)
      = Ok (x', dst', n) /\ state_ok x') /\
  (forall fuel x' q,
      XORKeyStream fuel ex_blk ex_state (bytes_of [1; 2; 3]%Z) (bytes_of [1; 2; 3]%Z)
      = Ok (x', q) -> state_ok x').
Proof.
  apply (cursor_within_buffer_is_preserved ex_blk ex_state).
  - apply toyBlock_ok.
  - simpl. lia.
  - reflexivity.
  - unfold state_ok, cap. simpl. lia.
  - reflexivity.
Defined.

(** C5 on the example engine. *)
Lemma example_reads_do_not_depend_on_history :
  (forall (x : Shared.ctr) (fuel : nat) (p : list byte) (off : Z),
      Shared.reachable ex_shared x -> length p <= fuel ->
      exists x' x0' q n e,
        Shared.ReadAt fuel x p off = Ok (x', q, n, e) /\
        Shared.ReadAt fuel ex_shared p off = Ok (x0', q, n, e)) /\
  (forall (fuel : nat) (p1 p2 : list byte) (o1 o2 : Z),
      (o1 < o2)%Z -> length p1 <= fuel -> length p2 <= fuel ->
      exists xa xb xa' xb' q1 n1 e1 q2 n2 e2,
        Shared.ReadAt fuel ex_shared p2 o2 = Ok (xa, q2, n2, e2) /\
        Shared.ReadAt fuel xa p1 o1 = Ok (xb, q1, n1, e1) /\
        Shared.ReadAt fuel ex_shared p1 o1 = Ok (xa', q1, n1, e1) /\
        Shared.ReadAt fuel xa' p2 o2 = Ok (xb', q2, n2, e2)).
Proof.
  apply (shared_reads_do_not_depend_on_history ex_blk ex_iv ex_src ex_shared).
  - apply toyBlock_ok.
  - simpl. lia.
  - apply bytesReader_ok.
  - reflexivity.
Defined.


(** C9 (amended) on the example engines, at offset 12. *)
Lemma example_zero_length_read :
  Stateless.ReadAt 0 ex_stateless [] 12 = Ok (read_at ex_src [] 12) /\
  (exists x',
      Shared.ReadAt 0 ex_shared [] 12
      = Ok (x', (read_at ex_src [] 12).1.1, (read_at ex_src [] 12).1.2,
                (read_at ex_src [] 12).2)) /\
  (read_at ex_src [] 12 = ([], 0%Z, None) ->
   Stateless.ReadAt 0 ex_stateless [] 12 = Ok ([], 0%Z, None) /\
   exists x', Shared.ReadAt 0 ex_shared [] 12 = Ok (x', [], 0%Z, None)).
Proof.
  apply (zero_length_read_returns_what_the_source_returns
           ex_blk ex_iv ex_src ex_stateless ex_shared ex_shared).
  - apply toyBlock_ok.
  - simpl. lia.
  - apply bytesReader_ok.
  - lia.
  - reflexivity.
  - reflexivity.
  - apply Shared.reach_init.
Defined.

(** * Further properties of the code *)

(** ** [xorBytes] *)

(** X6.  [xorBytes(dst, a, b)] on a [dst] at least as long as the shorter of
    [a] and [b] returns the length [n] of the shorter; [dst] keeps its
    length, its first [n] bytes are the bytes of [a] combined with those of
    [b], and its other bytes are untouched; combining the result with [b]
    once more gives back the first [n] bytes of [a].  On a shorter [dst] it
    panics with an index out of range. *)
Theorem xorBytes_count_prefix_and_involution :
  forall (dst a c : list byte),
    let n := Nat.min (length a) (length c) in
    (n <= length dst ->
     exists d',
       xorBytes dst a c = Ok (d', n) /\
       length d' = length dst /\
       take n d' = xor_with (take n a) (take n c) /\
       drop n d' = drop n dst /\
       exists d'',
         xorBytes d' (take n d') c = Ok (d'', n) /\
         take n d'' = take n a /\ drop n d'' = drop n dst) /\
    (length dst < n -> xorBytes dst a c = Panic "index out of range").
Proof.
  intros dst a c n.
  assert (Hn : (if length c <? length a then length c else length a) = n).
  { unfold n. destruct (Nat.ltb_spec (length c) (length a)); lia. }
  assert (Hz : length (xor_with (take n a) (take n c)) = n).
  { unfold xor_with. rewrite length_zip_with, !length_take. lia. }
  split.
  - intros Hdst. unfold xorBytes. rewrite Hn.
    destruct (Nat.leb_spec n (length dst)) as [_|]; [|lia].
    fold (xor_with (take n a) (take n c)).
    set (d' := xor_with (take n a) (take n c) ++ drop n dst).
    assert (Htake : take n d' = xor_with (take n a) (take n c)).
    { unfold d'. now apply take_app_length'. }
    assert (Hdrop : drop n d' = drop n dst).
    { unfold d'. now apply drop_app_length'. }
    assert (Hlen : length d' = length dst).
    { unfold d'. rewrite length_app, Hz, length_drop. lia. }
    exists d'. repeat split; try assumption.
    assert (Hn' : (if length c <? length (take n d') then length c
                   else length (take n d')) = n).
    { rewrite Htake, Hz. destruct (Nat.ltb_spec (length c) n); lia. }
    rewrite Hn'. rewrite Hlen.
    destruct (Nat.leb_spec n (length dst)) as [_|]; [|lia].
    eexists. split; [reflexivity|]. rewrite take_take, Nat.min_id, Htake.
    fold (xor_with (xor_with (take n a) (take n c)) (take n c)).
    assert (Hinv : xor_with (xor_with (take n a) (take n c)) (take n c) = take n a).
    { apply xor_with_involutive. rewrite !length_take. lia. }
    rewrite Hinv. split.
    + apply take_app_length'. rewrite length_take. lia.
    + rewrite drop_app_length' by (rewrite length_take; lia). exact Hdrop.
  - intros Hshort. unfold xorBytes. rewrite Hn.
    destruct (Nat.leb_spec n (length dst)) as [|_]; [lia|reflexivity].
Qed.

(** ** [refill], [setCTR] and [initCTR] on the buffer *)

Section BufferOperations.

Variable blk : Block.
Hypothesis blk_ok : Block_ok blk.
Hypothesis blk_pos : 0 < BlockSize blk.

Lemma refill_fixed x :
  State.outUsed x = 0 -> len (State.out x) <= cap (State.out x) ->
  cap (State.out x) - len (State.out x) < BlockSize blk ->
  refill blk x = Ok x.
Proof.
  intros Hused Hle Hfree. unfold refill. rewrite Hused.
  cbn [Nat.leb]. rewrite Nat.sub_0_r, drop_0.
  unfold copy_slice, elems, cap in *. cbn [arr len].
  rewrite length_take.
  replace (Nat.min (len (State.out x))
             (Nat.min (len (State.out x)) (length (arr (State.out x)))))
    with (len (State.out x)) by lia.
  rewrite take_take, Nat.min_id, take_drop. cbn [refill_loop len].
  destruct (Z.leb_spec (Z.of_nat (len (State.out x)))
              (Z.of_nat (length (arr (State.out x))) - Z.of_nat (BlockSize blk)))
    as [|_]; [lia|].
  cbn [bind arr]. destruct x as [c [a l] u]. cbn in *. subst u. reflexivity.
Qed.

Lemma setCTR_buffer x bN :
  Shared.b x = blk -> Shared.engine_ok x ->
  let k := fitting blk (len (State.out (Shared.st x))) 0 in
  exists x1,
    Shared.setCTR x bN = Ok x1 /\
    Shared.b x1 = blk /\ Shared.iv x1 = Shared.iv x /\ Shared.r x1 = Shared.r x /\
    State.ctr (Shared.st x1) = counter_at (Shared.iv x) (Z.to_nat bN + k) /\
    elems (State.out (Shared.st x1))
      = blocks blk k (counter_at (Shared.iv x) (Z.to_nat bN)) /\
    len (State.out (Shared.st x1)) = k * BlockSize blk /\
    State.outUsed (Shared.st x1) = 0 /\
    cap (State.out (Shared.st x1)) = cap (State.out (Shared.st x)).
Proof.
  intros Hb (Hiv & Hctr & Hlen & Hcap) k. rewrite Hb in *.
  unfold Shared.setCTR. rewrite Hb.
  rewrite setCTR_counter_iter by congruence.
  set (c0 := counter_at (Shared.iv x) (Z.to_nat bN)).
  assert (Hc0 : length c0 = BlockSize blk)
    by (unfold c0; now rewrite length_counter_at).
  set (o := State.out (Shared.st x)) in *.
  rewrite (refill_loop_enough blk blk_ok blk_pos c0 o 0 Hc0 Hlen ltac:(lia)).
  fold k.
  pose proof (fitting_bounds blk blk_pos (len o) 0 ltac:(lia)) as Hk. fold k in Hk.
  cbn [bind]. eexists. split; [reflexivity|].
  cbn [Shared.b Shared.iv Shared.r Shared.st State.ctr State.out State.outUsed
       arr len].
  rewrite take_0. cbn [app]. rewrite !Nat.add_0_l in *.
  assert (Hlenb : length (blocks blk k c0) = k * BlockSize blk)
    by now apply length_blocks.
  unfold cap, elems in *. cbn [arr len].
  repeat split; try reflexivity.
  - unfold c0. symmetry. apply counter_at_add.
  - apply take_app_length'. now rewrite Hlenb.
  - rewrite length_app, length_drop, Hlenb. lia.
Qed.

Lemma initCTR_buffer c off :
  Stateless.b c = blk -> Stateless.engine_ok c -> (0 <= off < 2 ^ 63)%Z ->
  let bOff := Z.rem off (Z.of_nat (BlockSize blk)) in
  let bN := Z.quot (off - bOff) (Z.of_nat (BlockSize blk)) in
  let k := fitting blk (Stateless.bs c) 0 in
  exists x,
    Stateless.initCTR c bN bOff = Ok x /\
    State.ctr x = counter_at (Stateless.iv c) (Z.to_nat bN + k) /\
    elems (State.out x)
      = drop (Z.to_nat bOff) (blocks blk k (counter_at (Stateless.iv c) (Z.to_nat bN))) /\
    len (State.out x) = k * BlockSize blk - Z.to_nat bOff /\
    State.outUsed x = 0 /\
    cap (State.out x) = Stateless.bs c - Z.to_nat bOff /\
    1 <= k.
Proof.
  intros Hb [Hiv Hbs] Hoff bOff bN k. rewrite Hb in *.
  destruct (offset_split off (BlockSize blk) blk_pos ltac:(lia))
    as (HbOff & HbN & Hsplit). fold bOff bN in HbOff, HbN, Hsplit.
  unfold Stateless.initCTR. rewrite Hb.
  rewrite initCTR_counter_iter by lia.
  set (c0 := counter_at (Stateless.iv c) (Z.to_nat bN)).
  assert (Hc0 : length c0 = BlockSize blk)
    by (unfold c0; now rewrite length_counter_at).
  set (x0 := {| State.ctr := c0;
                State.out := {| arr := replicate (Stateless.bs c) byte_zero; len := 0 |};
                State.outUsed := 0 |}).
  assert (Hok0 : state_ok x0) by (unfold state_ok, x0; simpl; lia).
  assert (Hun0 : unconsumed x0 = []) by reflexivity.
  destruct (refill_spec blk blk_ok blk_pos x0 Hc0 Hok0)
    as (x1 & Hr & He & Hctr & Hu & Hcap & Hlen & Hle & Hfree).
  rewrite Hun0 in *. cbn [length app] in *.
  change (State.ctr x0) with c0 in *.
  assert (Hcap0 : cap (State.out x0) = Stateless.bs c)
    by (unfold cap, x0; simpl; apply length_replicate).
  rewrite Hcap0 in *. fold k in He, Hctr, Hlen.
  pose proof (fitting_bounds blk blk_pos (Stateless.bs c) 0 ltac:(lia)) as Hk.
  fold k in Hk. rewrite !Nat.add_0_l in *.
  assert (Hk1 : 1 <= k) by (destruct k; [simpl in Hk; lia|lia]).
  rewrite Hr. cbn [bind]. unfold slice_from.
  destruct (Z.leb_spec 0 bOff) as [_|]; [|lia].
  destruct (Z.leb_spec bOff (Z.of_nat (len (State.out x1)))) as [_|]; [|nia].
  cbn [andb bind]. eexists. split; [reflexivity|].
  cbn [State.ctr State.out State.outUsed]. unfold elems, cap in *. cbn [arr len].
  rewrite length_drop, Hcap, Hlen.
  repeat split; try assumption; try lia.
  - rewrite Hctr. unfold c0. symmetry. apply counter_at_add.
  - rewrite take_drop_commute, <- He. do 2 f_equal. nia.
Qed.

End BufferOperations.

(** X12.  [refill] applied to a state that [refill] has just returned
    returns that state again: nothing is moved, no block is added and the
    counter does not advance. *)
Theorem refill_twice_is_refill_once :
  forall (blk : Block) (x x' : ctrState),
    Block_ok blk -> 0 < BlockSize blk ->
    length (State.ctr x) = BlockSize blk -> state_ok x ->
    refill blk x = Ok x' ->
    refill blk x' = Ok x'.
Proof.
  intros blk x x' Hblk Hpos Hc Hok Hr.
  destruct (refill_spec blk Hblk Hpos x Hc Hok)
    as (x1 & Hr1 & _ & _ & Hu & _ & _ & Hle & Hfree).
  rewrite Hr in Hr1. injection Hr1 as <-.
  now apply refill_fixed.
Qed.

Lemma refill_twice_on_example_state :
  refill ex_blk ex_state
    = Ok {| State.ctr := counter_at ex_iv 2;
            State.out := {| arr := bytes_of [4; 7; 7; 7; 6; 7; 7; 8; 7; 0]%Z; len := 9 |};
            State.outUsed := 0 |} /\
  refill ex_blk
      {| State.ctr := counter_at ex_iv 2;
         State.out := {| arr := bytes_of [4; 7; 7; 7; 6; 7; 7; 8; 7; 0]%Z; len := 9 |};
         State.outUsed := 0 |}
    = Ok {| State.ctr := counter_at ex_iv 2;
            State.out := {| arr := bytes_of [4; 7; 7; 7; 6; 7; 7; 8; 7; 0]%Z; len := 9 |};
            State.outUsed := 0 |}.
Proof.
  assert (H : refill ex_blk ex_state
              = Ok {| State.ctr := counter_at ex_iv 2;
                      State.out := {| arr := bytes_of [4; 7; 7; 7; 6; 7; 7; 8; 7; 0]%Z;
                                      len := 9 |};
                      State.outUsed := 0 |}) by (vm_compute; reflexivity).
  split; [exact H|].
  apply (refill_twice_is_refill_once ex_blk ex_state).
  - apply toyBlock_ok.
  - simpl. lia.
  - reflexivity.
  - unfold state_ok, cap. simpl. lia.
  - exact H.
Defined.

(** X10.  On an engine made by [NewCTRReaderAt], [initCTR] at the block
    index and the offset in the block of a non-negative offset [off] returns
    a state with the cursor at zero whose buffer holds the
    [bufSize / BlockSize] blocks from the counter of block [bN] on, less
    their first [bOff] bytes, that is the keystream from byte [off] on; the
    counter stands after those blocks, and the capacity of the buffer is the
    buffer size less [bOff]. *)
Theorem initCTR_buffers_keystream_from_offset :
  forall (blk : Block) (iv0 : list byte) (rd : ReaderAt) (c : Stateless.ctr) (off : Z),
    Block_ok blk -> 0 < BlockSize blk ->
    Stateless.NewCTRReaderAt blk iv0 rd = Ok c ->
    (0 <= off < 2 ^ 63)%Z ->
    let bOff := Z.rem off (Z.of_nat (BlockSize blk)) in
    let bN := Z.quot (off - bOff) (Z.of_nat (BlockSize blk)) in
    let k := bufSize_for blk / BlockSize blk in
    exists x,
      Stateless.initCTR c bN bOff = Ok x /\
      State.ctr x = counter_at iv0 (Z.to_nat bN + k) /\
      elems (State.out x)
        = drop (Z.to_nat bOff) (blocks blk k (counter_at iv0 (Z.to_nat bN))) /\
      len (State.out x) = k * BlockSize blk - Z.to_nat bOff /\
      State.outUsed x = 0 /\
      cap (State.out x) = bufSize_for blk - Z.to_nat bOff /\
      (forall n, n <= len (State.out x) ->
                 take n (elems (State.out x)) = keystream_at blk iv0 (Z.to_nat off) n).
Proof.
  intros blk iv0 rd c off Hblk Hpos Hnew Hoff bOff bN k.
  destruct (Stateless_new_inv _ _ _ _ Hnew) as [Hiv ->].
  set (cA := {| Stateless.b := blk; Stateless.iv := iv0;
                Stateless.bs := bufSize_for blk; Stateless.r := rd |}).
  assert (HokA : Stateless.engine_ok cA) by (split; [exact Hiv|apply bufSize_for_ge]).
  destruct (initCTR_buffer blk Hblk Hpos cA off eq_refl HokA Hoff)
    as (x & Hinit & Hctr & Hel & Hlen & Hu & Hcap & Hk1).
  cbv zeta in Hinit, Hctr, Hel, Hlen, Hcap, Hk1.
  unfold fitting in *.
  change (Stateless.bs cA) with (bufSize_for blk) in *.
  change (Stateless.iv cA) with iv0 in *.
  rewrite Nat.sub_0_r in *. fold bOff bN k in Hinit, Hctr, Hel, Hlen, Hcap, Hk1.
  exists x. repeat split; try assumption.
  intros n Hn. rewrite Hel.
  destruct (offset_split off (BlockSize blk) Hpos ltac:(lia)) as (HbOff & _ & Hsplit).
  fold bOff bN in Hsplit, HbOff. rewrite Hsplit.
  symmetry. apply (keystream_at_block blk Hblk Hpos); [assumption|nia].
Qed.

Lemma initCTR_on_example_engine :
  exists x,
    Stateless.initCTR ex_stateless
      (Z.quot (5 - Z.rem 5 (Z.of_nat (BlockSize ex_blk))) (Z.of_nat (BlockSize ex_blk)))
      (Z.rem 5 (Z.of_nat (BlockSize ex_blk))) = Ok x /\
    State.ctr x
      = counter_at ex_iv
          (Z.to_nat (Z.quot (5 - Z.rem 5 (Z.of_nat (BlockSize ex_blk)))
                            (Z.of_nat (BlockSize ex_blk)))
           + bufSize_for ex_blk / BlockSize ex_blk) /\
    elems (State.out x)
      = drop (Z.to_nat (Z.rem 5 (Z.of_nat (BlockSize ex_blk))))
          (blocks ex_blk (bufSize_for ex_blk / BlockSize ex_blk)
             (counter_at ex_iv
                (Z.to_nat (Z.quot (5 - Z.rem 5 (Z.of_nat (BlockSize ex_blk)))
                                  (Z.of_nat (BlockSize ex_blk)))))) /\
    len (State.out x)
      = bufSize_for ex_blk / BlockSize ex_blk * BlockSize ex_blk
        - Z.to_nat (Z.rem 5 (Z.of_nat (BlockSize ex_blk))) /\
    State.outUsed x = 0 /\
    cap (State.out x)
      = bufSize_for ex_blk - Z.to_nat (Z.rem 5 (Z.of_nat (BlockSize ex_blk))) /\
    (forall n, n <= len (State.out x) ->
               take n (elems (State.out x)) = keystream_at ex_blk ex_iv (Z.to_nat 5) n).
Proof.
  apply (initCTR_buffers_keystream_from_offset ex_blk ex_iv ex_src ex_stateless 5).
  - apply toyBlock_ok.
  - simpl. lia.
  - reflexivity.
  - lia.
Defined.

Section SharedInvariant.

Variable blk : Block.
Hypothesis blk_ok : Block_ok blk.
Hypothesis blk_pos : 0 < BlockSize blk.

(** The state of the shared engine between calls. *)
Lemma Shared_ReadAt_keeps fuel x p off x' q n e :
  Shared.b x = blk -> Shared.engine_ok x ->
  Shared.ReadAt fuel x p off = Ok (x', q, n, e) ->
  Shared.b x' = blk /\ Shared.iv x' = Shared.iv x /\ Shared.r x' = Shared.r x /\
  length (State.ctr (Shared.st x')) = BlockSize blk /\
  state_ok (Shared.st x') /\
  cap (State.out (Shared.st x')) = cap (State.out (Shared.st x)).
Proof.
  intros Hb Hok. unfold Shared.ReadAt.
  rewrite Hb. destruct (Nat.eqb_spec (BlockSize blk) 0) as [|_]; [lia|].
  set (bN := Z.quot _ _).
  destruct (setCTR_buffer blk blk_ok blk_pos x bN Hb Hok)
    as (x1 & Hset & Hb1 & Hiv1 & Hr1 & Hctr1 & Hel1 & Hlen1 & Hu1 & Hcap1).
  cbv zeta in Hctr1, Hel1, Hlen1.
  destruct Hok as (Hiv & Hctr & Hlen & Hcap).
  pose proof (fitting_bounds blk blk_pos (len (State.out (Shared.st x))) 0 ltac:(lia))
    as Hk.
  assert (Hc1 : length (State.ctr (Shared.st x1)) = BlockSize blk).
  { rewrite Hctr1, length_counter_at. congruence. }
  assert (Hst1 : state_ok (Shared.st x1)).
  { unfold state_ok. rewrite Hu1, Hcap1, Hlen1. lia. }
  rewrite Hset. cbn [bind].
  destruct (read_at (Shared.r x1) p off) as [[p1 n1] err].
  destruct err as [e1|].
  - intros [= <- _ _ _]. auto 10.
  - rewrite Hb1.
    pose proof (XORKeyStream_spec blk blk_ok blk_pos fuel (Shared.st x1) p1 p1
                  Hc1 Hst1 eq_refl) as Hx.
    destruct (XORKeyStream fuel blk (Shared.st x1) p1 p1) as [[s2 q2]| |];
      cbn [bind]; try discriminate.
    destruct Hx as (_ & Hok2 & Hc2 & Hcap2).
    intros [= <- _ _ _]. cbn [Shared.b Shared.iv Shared.r Shared.st].
    repeat split; try assumption; try reflexivity; try apply Hok2. congruence.
Qed.

Lemma Shared_reachable_keeps x0 x :
  Shared.b x0 = blk -> Shared.engine_ok x0 -> state_ok (Shared.st x0) ->
  Shared.reachable x0 x ->
  Shared.b x = blk /\ Shared.iv x = Shared.iv x0 /\ Shared.r x = Shared.r x0 /\
  length (State.ctr (Shared.st x)) = BlockSize blk /\
  state_ok (Shared.st x) /\
  cap (State.out (Shared.st x)) = cap (State.out (Shared.st x0)).
Proof.
  intros Hb Hok Hst Hreach.
  induction Hreach as [|fuel x p off x' q n e Hreach IH Hread].
  - destruct Hok as (_ & Hc & _). rewrite Hb in Hc. auto 10.
  - destruct IH as (Hbx & Hivx & Hrx & Hcx & Hstx & Hcapx).
    destruct (Shared_reachable_inv blk blk_ok blk_pos x0 x Hb Hok Hreach)
      as (_ & _ & _ & Hokx).
    destruct (Shared_ReadAt_keeps fuel x p off x' q n e Hbx Hokx Hread)
      as (Hb' & Hiv' & Hr' & Hc' & Hst' & Hcap').
    repeat split; try assumption; try congruence; apply Hst'.
Qed.

End SharedInvariant.

(** X9.  Whatever reads have been made on an engine of
    [src/unnamed/part_000] since [NewCTRReaderAt] returned it, the engine
    still has the cipher, the initial counter and the source it was made
    with, a counter of one block, a cursor within the buffer, and a buffer
    of the capacity chosen at construction. *)
Theorem shared_engine_invariant :
  forall (blk : Block) (iv0 : list byte) (rd : ReaderAt) (x0 x : Shared.ctr),
    Block_ok blk -> 0 < BlockSize blk ->
    Shared.NewCTRReaderAt blk iv0 rd = Ok x0 -> Shared.reachable x0 x ->
    Shared.b x = blk /\ Shared.iv x = iv0 /\ Shared.r x = rd /\
    length (State.ctr (Shared.st x)) = BlockSize blk /\
    State.outUsed (Shared.st x) <= len (State.out (Shared.st x)) /\
    len (State.out (Shared.st x)) <= cap (State.out (Shared.st x)) /\
    cap (State.out (Shared.st x)) = bufSize_for blk.
Proof.
  intros blk iv0 rd x0 x Hblk Hpos Hnew Hreach.
  assert (Hlen : length iv0 = BlockSize blk).
  { unfold Shared.NewCTRReaderAt in Hnew.
    destruct (Nat.eqb_spec (length iv0) (BlockSize blk)); [assumption|discriminate]. }
  destruct (Shared_new_ok blk iv0 rd Hlen) as (x0' & Hnew' & Hb & Hiv & Hr & Hok).
  rewrite Hnew in Hnew'. injection Hnew' as <-.
  assert (Hcap0 : cap (State.out (Shared.st x0)) = bufSize_for blk).
  { unfold Shared.NewCTRReaderAt in Hnew.
    destruct (Nat.eqb_spec (length iv0) (BlockSize blk)); [|contradiction].
    cbn [negb] in Hnew. injection Hnew as <-. unfold cap. simpl.
    apply length_replicate. }
  assert (Hst0 : state_ok (Shared.st x0)).
  { unfold Shared.NewCTRReaderAt in Hnew.
    destruct (Nat.eqb_spec (length iv0) (BlockSize blk)); [|contradiction].
    cbn [negb] in Hnew. injection Hnew as <-. unfold state_ok. simpl. lia. }
  destruct (Shared_reachable_keeps blk Hblk Hpos x0 x Hb Hok Hst0 Hreach)
    as (Hbx & Hivx & Hrx & Hcx & [Hu Hl] & Hcapx).
  repeat split; try assumption; congruence.
Qed.

Lemma shared_engine_invariant_after_a_read :
  exists x' q n e,
    Shared.ReadAt 5 ex_shared (replicate 5 byte_zero) 5 = Ok (x', q, n, e) /\
    Shared.b x' = ex_blk /\ Shared.iv x' = ex_iv /\ Shared.r x' = ex_src /\
    length (State.ctr (Shared.st x')) = BlockSize ex_blk /\
    State.outUsed (Shared.st x') <= len (State.out (Shared.st x')) /\
    len (State.out (Shared.st x')) <= cap (State.out (Shared.st x')) /\
    cap (State.out (Shared.st x')) = bufSize_for ex_blk.
Proof.
  assert (Hok : Shared.engine_ok ex_shared).
  { unfold Shared.engine_ok, cap. simpl. repeat split; lia. }
  destruct (Shared_ReadAt_spec ex_blk (toyBlock_ok 4) ltac:(simpl; lia) 5 ex_shared
              (replicate 5 byte_zero) 5 eq_refl Hok (bytesReader_ok _)
              ltac:(simpl; lia)) as (x' & Hread & _).
  exists x'. do 3 eexists. split; [exact Hread|].
  apply (shared_engine_invariant ex_blk ex_iv ex_src ex_shared x').
  - apply toyBlock_ok.
  - simpl. lia.
  - reflexivity.
  - eapply Shared.reach_read; [apply Shared.reach_init|exact Hread].
Defined.

(** X11.  [setCTR(bN)] on an engine of [src/unnamed/part_000], fresh or
    used: it sets the cursor to zero and fills the buffer, within the length
    the buffer had, with the blocks of the counters of block [bN] on (the
    initial counter for a negative [bN]); the counter stands after those
    blocks; the capacity is unchanged.  On the fresh engine, whose buffer
    has length zero, it therefore buffers nothing. *)
Theorem setCTR_refills_within_the_old_length :
  forall (blk : Block) (iv0 : list byte) (rd : ReaderAt) (x0 x : Shared.ctr) (bN : Z),
    Block_ok blk -> 0 < BlockSize blk ->
    Shared.NewCTRReaderAt blk iv0 rd = Ok x0 -> Shared.reachable x0 x ->
    let k := len (State.out (Shared.st x)) / BlockSize blk in
    (exists x1,
        Shared.setCTR x bN = Ok x1 /\
        Shared.b x1 = blk /\ Shared.iv x1 = iv0 /\ Shared.r x1 = rd /\
        State.ctr (Shared.st x1) = counter_at iv0 (Z.to_nat bN + k) /\
        elems (State.out (Shared.st x1)) = blocks blk k (counter_at iv0 (Z.to_nat bN)) /\
        len (State.out (Shared.st x1)) = k * BlockSize blk /\
        State.outUsed (Shared.st x1) = 0 /\
        cap (State.out (Shared.st x1)) = cap (State.out (Shared.st x))) /\
    (exists x1,
        Shared.setCTR x0 bN = Ok x1 /\
        len (State.out (Shared.st x1)) = 0 /\
        State.ctr (Shared.st x1) = counter_at iv0 (Z.to_nat bN)).
Proof.
  intros blk iv0 rd x0 x bN Hblk Hpos Hnew Hreach k.
  assert (Hlen : length iv0 = BlockSize blk).
  { unfold Shared.NewCTRReaderAt in Hnew.
    destruct (Nat.eqb_spec (length iv0) (BlockSize blk)); [assumption|discriminate]. }
  destruct (Shared_new_ok blk iv0 rd Hlen) as (x0' & Hnew' & Hb & Hiv & Hr & Hok).
  rewrite Hnew in Hnew'. injection Hnew' as <-.
  destruct (Shared_reachable_inv blk Hblk Hpos x0 x Hb Hok Hreach)
    as (Hbx & Hivx & Hrx & Hokx).
  split.
  - destruct (setCTR_buffer blk Hblk Hpos x bN Hbx Hokx)
      as (x1 & Hset & Hb1 & Hiv1 & Hr1 & Hctr1 & Hel1 & Hlen1 & Hu1 & Hcap1).
    cbv zeta in Hctr1, Hel1, Hlen1. unfold fitting in *.
    rewrite Nat.sub_0_r in *. fold k in Hctr1, Hel1, Hlen1.
    rewrite Hivx, Hiv in *. rewrite Hrx, Hr in Hr1.
    exists x1. repeat split; assumption.
  - destruct (setCTR_buffer blk Hblk Hpos x0 bN Hb Hok)
      as (x1 & Hset & _ & _ & _ & Hctr1 & _ & Hlen1 & _).
    cbv zeta in Hctr1, Hlen1.
    assert (Hl0 : len (State.out (Shared.st x0)) = 0).
    { unfold Shared.NewCTRReaderAt in Hnew.
      destruct (Nat.eqb_spec (length iv0) (BlockSize blk)); [|contradiction].
      cbn [negb] in Hnew. now injection Hnew as <-. }
    rewrite Hl0 in *. unfold fitting in *. cbn [Nat.sub] in *.
    rewrite Nat.Div0.div_0_l in *. rewrite Nat.add_0_r, Hiv in Hctr1.
    exists x1. repeat split; assumption.
Qed.

Lemma setCTR_on_example_engine :
  (exists x1,
      Shared.setCTR ex_shared 2 = Ok x1 /\
      Shared.b x1 = ex_blk /\ Shared.iv x1 = ex_iv /\ Shared.r x1 = ex_src /\
      State.ctr (Shared.st x1)
        = counter_at ex_iv
            (Z.to_nat 2 + len (State.out (Shared.st ex_shared)) / BlockSize ex_blk) /\
      elems (State.out (Shared.st x1))
        = blocks ex_blk (len (State.out (Shared.st ex_shared)) / BlockSize ex_blk)
            (counter_at ex_iv (Z.to_nat 2)) /\
      len (State.out (Shared.st x1))
        = len (State.out (Shared.st ex_shared)) / BlockSize ex_blk * BlockSize ex_blk /\
      State.outUsed (Shared.st x1) = 0 /\
      cap (State.out (Shared.st x1)) = cap (State.out (Shared.st ex_shared))) /\
  (exists x1,
      Shared.setCTR ex_shared 2 = Ok x1 /\
      len (State.out (Shared.st x1)) = 0 /\
      State.ctr (Shared.st x1) = counter_at ex_iv (Z.to_nat 2)).
Proof.
  apply (setCTR_refills_within_the_old_length ex_blk ex_iv ex_src ex_shared ex_shared 2).
  - apply toyBlock_ok.
  - simpl. lia.
  - reflexivity.
  - apply Shared.reach_init.
Defined.

(** ** [XORKeyStream] as a stream *)

Section Streaming.

Variable blk : Block.
Hypothesis blk_ok : Block_ok blk.
Hypothesis blk_pos : 0 < BlockSize blk.

Lemma length_pending x n :
  length (State.ctr x) = BlockSize blk -> length (pending blk x n) = n.
Proof.
  intros Hc. unfold pending.
  rewrite length_take, length_app, length_blocks by assumption. nia.
Qed.

Lemma take_pending x m n :
  length (State.ctr x) = BlockSize blk -> m <= n ->
  take m (pending blk x n) = pending blk x m.
Proof.
  intros Hc Hmn. unfold pending. rewrite take_take, Nat.min_l by lia.
  apply take_tail_blocks_irrel; try assumption; nia.
Qed.

(** What a state can hand out after a turn is what it could hand out before,
    less the bytes of the turn. *)
Lemma pending_after_turn (t c : list byte) k n m :
  length c = BlockSize blk ->
  n <= length (t ++ blocks blk k c) ->
  take m (drop n (t ++ blocks blk k c) ++ blocks blk m (counter_at c k))
  = drop n (take (n + m) (t ++ blocks blk (n + m) c)).
Proof.
  intros Hc Hn.
  assert (Hl : length (t ++ blocks blk k c) = length t + k * BlockSize blk).
  { now rewrite length_app, length_blocks. }
  rewrite <- drop_app_le by exact Hn.
  rewrite <- app_assoc, <- blocks_add, take_drop_commute. f_equal.
  apply take_tail_blocks_irrel; try assumption; nia.
Qed.

Lemma XORKeyStream_pending_after fuel :
  forall x dst src x' q,
    length (State.ctr x) = BlockSize blk -> state_ok x ->
    length dst = length src ->
    XORKeyStream fuel blk x dst src = Ok (x', q) ->
    forall m, pending blk x' m = drop (length src) (pending blk x (length src + m)).
Proof.
  induction fuel as [|fuel IH]; intros x dst src x' q Hc Hok Hlen Hrun m.
  - destruct src as [|s src]; [|discriminate].
    simpl in Hrun. injection Hrun as <- _. now rewrite drop_0.
  - destruct src as [|s src].
    { simpl in Hrun. injection Hrun as <- _. now rewrite drop_0. }
    rewrite XORKeyStream_cons in Hrun.
    destruct (XORKeyStream_step_spec blk blk_ok blk_pos x dst (s :: src) Hc Hok Hlen)
      as (k & x1 & Hstep & Hun1 & Hctr1 & Hok1 & Hcap1 & _ & _).
    cbv zeta in Hstep, Hun1.
    set (t1 := unconsumed x ++ blocks blk k (State.ctr x)) in *.
    set (n := Nat.min (length (s :: src)) (length t1)) in *.
    rewrite Hstep in Hrun. cbn [bind] in Hrun.
    assert (Hz : length (xor_with (take n (s :: src)) (take n t1)) = n).
    { unfold xor_with. rewrite length_zip_with, !length_take. lia. }
    rewrite (drop_app_length' _ _ n (eq_sym Hz)) in Hrun.
    assert (Hc1 : length (State.ctr x1) = BlockSize blk).
    { now rewrite Hctr1, length_counter_at. }
    assert (Hlen1 : length (drop n dst) = length (drop n (s :: src))).
    { rewrite !length_drop. lia. }
    destruct (XORKeyStream fuel blk x1 (drop n dst) (drop n (s :: src)))
      as [[x2 rest]| |] eqn:Hrec; cbn [bind] in Hrun; try discriminate.
    injection Hrun as <- _.
    rewrite (IH x1 _ _ x2 rest Hc1 Hok1 Hlen1 Hrec).
    assert (Hstep1 : forall m', pending blk x1 m' = drop n (pending blk x (n + m'))).
    { intros m'. unfold pending. rewrite Hun1, Hctr1.
      unfold t1. apply pending_after_turn; [assumption|]. unfold n, t1. lia. }
    rewrite Hstep1, drop_drop, length_drop. do 2 f_equal; unfold n; lia.
Qed.

(** A source no longer than the unconsumed bytes is served in one turn,
    whatever the capacity of the buffer. *)
Lemma XORKeyStream_short fuel x dst src :
  length (State.ctr x) = BlockSize blk -> state_ok x ->
  length dst = length src ->
  length src <= length (unconsumed x) -> length src <= fuel ->
  exists x',
    XORKeyStream fuel blk x dst src
    = Ok (x', xor_with src (pending blk x (length src))).
Proof.
  intros Hc Hok Hlen Hshort Hfuel.
  pose proof (XORKeyStream_spec blk blk_ok blk_pos fuel x dst src Hc Hok Hlen) as Hspec.
  destruct src as [|s src].
  { rewrite XORKeyStream_nil in *. destruct Hspec as (-> & _). now exists x. }
  destruct fuel as [|fuel]; [simpl in Hfuel; lia|].
  rewrite XORKeyStream_cons in *.
  destruct (XORKeyStream_step_spec blk blk_ok blk_pos x dst (s :: src) Hc Hok Hlen)
    as (k & x1 & Hstep & _).
  cbv zeta in Hstep.
  replace (Nat.min (length (s :: src))
             (length (unconsumed x ++ blocks blk k (State.ctr x))))
    with (length (s :: src)) in Hstep by (rewrite length_app; lia).
  rewrite Hstep in *. cbn [bind] in *.
  rewrite drop_all, XORKeyStream_nil in *. cbn [bind] in *.
  destruct Hspec as (Hq & _). rewrite Hq. now exists x1.
Qed.

End Streaming.

(** X5.  From a state of the engine whose buffer can hold a block,
    [XORKeyStream] can be fed a source in two pieces: running it on the
    first piece and then, from the state it leaves, on the second gives the
    bytes that one run on the whole source gives; every run returns within
    as many turns as the source has bytes. *)
Theorem XORKeyStream_in_two_pieces :
  forall (blk : Block) (x : ctrState) (d1 s1 d2 s2 : list byte) (fuel : nat),
    Block_ok blk -> 0 < BlockSize blk ->
    length (State.ctr x) = BlockSize blk -> state_ok x ->
    BlockSize blk <= cap (State.out x) ->
    length d1 = length s1 -> length d2 = length s2 ->
    length s1 + length s2 <= fuel ->
    exists x1 x2 x12 o1 o2,
      XORKeyStream fuel blk x d1 s1 = Ok (x1, o1) /\
      XORKeyStream fuel blk x1 d2 s2 = Ok (x2, o2) /\
      XORKeyStream fuel blk x (d1 ++ d2) (s1 ++ s2) = Ok (x12, o1 ++ o2).
Proof.
  intros blk x d1 s1 d2 s2 fuel Hblk Hpos Hc Hok Hcap Hl1 Hl2 Hfuel.
  destruct (XORKeyStream_returns blk Hblk Hpos fuel x d1 s1 Hc Hok Hl1 Hcap ltac:(lia))
    as (x1 & Hrun1 & Hok1 & Hc1 & Hcap1).
  destruct (XORKeyStream_returns blk Hblk Hpos fuel x1 d2 s2 Hc1 Hok1 Hl2
              ltac:(lia) ltac:(lia)) as (x2 & Hrun2 & _).
  destruct (XORKeyStream_returns blk Hblk Hpos fuel x (d1 ++ d2) (s1 ++ s2) Hc Hok
              ltac:(rewrite !length_app; lia) Hcap ltac:(rewrite length_app; lia))
    as (x12 & Hrun12 & _).
  exists x1, x2, x12. do 2 eexists.
  split; [exact Hrun1|]. split; [exact Hrun2|].
  rewrite Hrun12. do 2 f_equal.
  rewrite (XORKeyStream_pending_after blk Hblk Hpos fuel x d1 s1 x1 _ Hc Hok Hl1 Hrun1).
  rewrite <- (take_pending blk Hblk Hpos x (length s1) (length s1 + length s2) Hc)
    by lia.
  rewrite length_app. unfold xor_with.
  rewrite <- zip_with_app.
  - now rewrite take_drop.
  - rewrite length_take, length_pending by assumption. lia.
Qed.

Lemma XORKeyStream_in_two_pieces_example :
  exists x1 x2 x12 o1 o2,
    XORKeyStream 5 ex_blk ex_state (bytes_of [1; 2]%Z) (bytes_of [1; 2]%Z) = Ok (x1, o1) /\
    XORKeyStream 5 ex_blk x1 (bytes_of [3; 4; 5]%Z) (bytes_of [3; 4; 5]%Z) = Ok (x2, o2) /\
    XORKeyStream 5 ex_blk ex_state (bytes_of [1; 2]%Z ++ bytes_of [3; 4; 5]%Z)
      (bytes_of [1; 2]%Z ++ bytes_of [3; 4; 5]%Z) = Ok (x12, o1 ++ o2).
Proof.
  apply (XORKeyStream_in_two_pieces ex_blk ex_state).
  - apply toyBlock_ok.
  - simpl. lia.
  - reflexivity.
  - unfold state_ok, cap. simpl. lia.
  - unfold cap. simpl. lia.
  - reflexivity.
  - reflexivity.
  - simpl. lia.
Defined.

(** ** Reads on the two engines *)

Section Reads.

Variable blk : Block.
Hypothesis blk_ok : Block_ok blk.
Hypothesis blk_pos : 0 < BlockSize blk.

(** At an offset on a block boundary the keystream of the block is the
    keystream from the offset. *)
Lemma aligned_keystream iv0 off L :
  length iv0 = BlockSize blk -> (0 <= off)%Z ->
  Z.rem off (Z.of_nat (BlockSize blk)) = 0%Z ->
  keystream blk
    (counter_at iv0
       (Z.to_nat (Z.quot (off - Z.rem off (Z.of_nat (BlockSize blk)))
                         (Z.of_nat (BlockSize blk))))) L
  = keystream_at blk iv0 (Z.to_nat off) L.
Proof.
  intros Hiv Hoff Hrem.
  destruct (offset_split off (BlockSize blk) blk_pos Hoff) as (_ & _ & Hsplit).
  rewrite Hrem in Hsplit at 2. change (Z.to_nat 0) with 0 in Hsplit.
  rewrite Hsplit.
  rewrite (keystream_at_block blk blk_ok blk_pos iv0 _ 0 L L Hiv) by nia.
  now rewrite drop_0.
Qed.

Lemma Stateless_ReadAt_short fuel c p off p1 n :
  Stateless.b c = blk -> Stateless.engine_ok c -> (0 <= off < 2 ^ 63)%Z ->
  read_at (Stateless.r c) p off = (p1, n, None) ->
  length p1 <= fitting blk (Stateless.bs c) 0 * BlockSize blk
               - Z.to_nat (Z.rem off (Z.of_nat (BlockSize blk))) ->
  length p1 <= fuel ->
  Stateless.ReadAt fuel c p off
    = Ok (xor_with p1 (keystream_at blk (Stateless.iv c) (Z.to_nat off) (length p1)),
          n, None).
Proof.
  intros Hb Hok Hoff Hread Hshort Hfuel. unfold Stateless.ReadAt. rewrite Hb.
  destruct (Nat.eqb_spec (BlockSize blk) 0) as [|_]; [lia|].
  destruct (initCTR_spec blk blk_ok blk_pos c off Hb Hok Hoff)
    as (x & Hinit & Hokx & Hcx & _ & Hlenx & _ & Hpend).
  cbv zeta in Hinit, Hlenx. rewrite Hinit. cbn [bind]. rewrite Hread.
  destruct (XORKeyStream_short blk blk_ok blk_pos fuel x p1 p1 Hcx Hokx eq_refl
              ltac:(lia) Hfuel) as (x' & Hx).
  rewrite Hx. cbn [bind]. now rewrite Hpend.
Qed.

Lemma Stateless_ReadAt_negative fuel c p off :
  Stateless.b c = blk -> Stateless.engine_ok c ->
  (Z.rem off (Z.of_nat (BlockSize blk)) < 0)%Z ->
  Stateless.ReadAt fuel c p off = Panic "slice bounds out of range".
Proof.
  intros Hb [Hiv Hbs] Hneg. rewrite Hb in *. unfold Stateless.ReadAt. rewrite Hb.
  destruct (Nat.eqb_spec (BlockSize blk) 0) as [|_]; [lia|].
  unfold Stateless.initCTR. rewrite Hb.
  set (bN := Z.quot _ _).
  set (x0 := {| State.ctr := Stateless.initCTR_counter c bN;
                State.out := {| arr := replicate (Stateless.bs c) byte_zero; len := 0 |};
                State.outUsed := 0 |}).
  assert (Hc0 : length (State.ctr x0) = BlockSize blk).
  { unfold x0. cbn [State.ctr]. now rewrite length_initCTR_counter. }
  assert (Hok0 : state_ok x0) by (unfold state_ok, x0; simpl; lia).
  destruct (refill_spec blk blk_ok blk_pos x0 Hc0 Hok0) as (x1 & Hr & _).
  rewrite Hr. cbn [bind]. unfold slice_from.
  destruct (Z.leb_spec 0 (Z.rem off (Z.of_nat (BlockSize blk)))) as [|_]; [lia|].
  reflexivity.
Qed.

End Reads.

(** X1.  Decryption on the engine of [src/aesctr/ctr.go].  A plaintext is
    encrypted sequentially in counter mode and the engine is made over a
    reader of the ciphertext: for a cipher with blocks of at most 256
    bytes at every offset, and for any cipher at every offset on a block
    boundary, a read of [len(p)] bytes at [off], within the plaintext,
    returns the bytes [off .. off + len(p)) of the plaintext, their count
    and no error, within [len(p)] turns of the loop. *)
Theorem stateless_read_decrypts :
  forall (blk : Block) (iv0 pt : list byte) (c : Stateless.ctr)
         (p : list byte) (off fuel : nat),
    Block_ok blk -> 0 < BlockSize blk ->
    BlockSize blk <= 256 \/ off mod BlockSize blk = 0 ->
    Stateless.NewCTRReaderAt blk iv0 (bytesReader (stdCTR blk iv0 pt)) = Ok c ->
    off < length pt -> off + length p <= length pt ->
    (Z.of_nat off < 2 ^ 63)%Z ->
    length p <= fuel ->
    Stateless.ReadAt fuel c p (Z.of_nat off)
    = Ok (take (length p) (drop off pt), Z.of_nat (length p), None).
Proof.
  intros blk iv0 pt c p off fuel Hblk Hpos Hcase Hnew Hoff Hend Hint Hfuel.
  apply (Stateless_roundtrip blk Hblk Hpos iv0 pt c p off fuel); try assumption.
  pose proof (bufSize_for_min blk) as Hmin. unfold streamBufferSize in Hmin.
  pose proof (bufSize_for_ge blk) as Hge.
  pose proof (Nat.mod_upper_bound off (BlockSize blk) ltac:(lia)).
  destruct Hcase as [Hsmall|Haligned]; lia.
Qed.

Lemma stateless_read_decrypts_example :
  Stateless.ReadAt 5 ex_stateless (replicate 5 byte_zero) (Z.of_nat 5)
  = Ok (take (length (replicate 5 byte_zero)) (drop 5 ex_plain),
        Z.of_nat (length (replicate 5 byte_zero)), None).
Proof.
  apply (stateless_read_decrypts ex_blk ex_iv ex_plain ex_stateless
           (replicate 5 byte_zero) 5 5).
  - apply toyBlock_ok.
  - simpl. lia.
  - left. simpl. lia.
  - reflexivity.
  - simpl. lia.
  - simpl. lia.
  - simpl. lia.
  - simpl. lia.
Defined.

(** X2.  Encryption on the engine of [src/aesctr/ctr.go].  Over a reader of
    a plaintext, under the conditions of X1, a read at [off] returns the
    bytes [off .. off + len(p)) of the sequential counter-mode encryption of
    the whole plaintext. *)
Theorem stateless_read_encrypts :
  forall (blk : Block) (iv0 pt : list byte) (c : Stateless.ctr)
         (p : list byte) (off fuel : nat),
    Block_ok blk -> 0 < BlockSize blk ->
    BlockSize blk <= 256 \/ off mod BlockSize blk = 0 ->
    Stateless.NewCTRReaderAt blk iv0 (bytesReader pt) = Ok c ->
    off < length pt -> off + length p <= length pt ->
    (Z.of_nat off < 2 ^ 63)%Z ->
    length p <= fuel ->
    Stateless.ReadAt fuel c p (Z.of_nat off)
    = Ok (take (length p) (drop off (stdCTR blk iv0 pt)), Z.of_nat (length p), None).
Proof.
  intros blk iv0 pt c p off fuel Hblk Hpos Hcase Hnew Hoff Hend Hint Hfuel.
  destruct (Stateless_new_inv _ _ _ _ Hnew) as [Hiv ->].
  pose proof (bufSize_for_min blk) as Hmin. unfold streamBufferSize in Hmin.
  pose proof (bufSize_for_ge blk) as Hge.
  pose proof (Nat.mod_upper_bound off (BlockSize blk) ltac:(lia)) as Hmod.
  assert (Hlt : length (take (length p) (drop off pt)) = length p).
  { rewrite length_take, length_drop. lia. }
  rewrite (Stateless_ReadAt_spec blk Hblk Hpos fuel _ p (Z.of_nat off)
             (take (length p) (drop off pt)) (Z.of_nat (length p)));
    cbn [Stateless.b Stateless.iv Stateless.bs Stateless.r]; try reflexivity.
  - rewrite Hlt, Nat2Z.id, stdCTR_slice by assumption. reflexivity.
  - split; assumption.
  - lia.
  - apply bytesReader_read; lia.
  - rewrite Z.rem_mod_nonneg by lia. rewrite <- Nat2Z.inj_mod, Nat2Z.id.
    destruct Hcase as [Hsmall|Haligned]; lia.
  - lia.
Qed.

Lemma stateless_read_encrypts_example :
  Stateless.ReadAt 5 ex_stateless_plain (replicate 5 byte_zero) (Z.of_nat 5)
  = Ok (take (length (replicate 5 byte_zero)) (drop 5 (stdCTR ex_blk ex_iv ex_plain)),
        Z.of_nat (length (replicate 5 byte_zero)), None).
Proof.
  apply (stateless_read_encrypts ex_blk ex_iv ex_plain ex_stateless_plain
           (replicate 5 byte_zero) 5 5).
  - apply toyBlock_ok.
  - simpl. lia.
  - left. simpl. lia.
  - reflexivity.
  - simpl. lia.
  - simpl. lia.
  - simpl. lia.
  - simpl. lia.
Defined.

(** X3.  When the source reports no error, a read on the engine of
    [src/aesctr/ctr.go] at a non-negative offset returns, and returns the
    source's bytes combined with the keystream from [off] on, if the buffer
    size less the offset in the block leaves room for a block or the read is
    no longer than what [initCTR] buffered; otherwise it never returns. *)
Theorem stateless_read_returns_iff_room_or_short :
  forall (blk : Block) (iv0 : list byte) (rd : ReaderAt) (c : Stateless.ctr)
         (p p1 : list byte) (off n : Z),
    Block_ok blk -> 0 < BlockSize blk ->
    Stateless.NewCTRReaderAt blk iv0 rd = Ok c ->
    (0 <= off < 2 ^ 63)%Z ->
    read_at rd p off = (p1, n, None) ->
    let bOff := Z.to_nat (Z.rem off (Z.of_nat (BlockSize blk))) in
    let buffered := bufSize_for blk / BlockSize blk * BlockSize blk - bOff in
    (BlockSize blk + bOff <= bufSize_for blk \/ length p1 <= buffered ->
     forall fuel, length p1 <= fuel ->
       Stateless.ReadAt fuel c p off
       = Ok (xor_with p1 (keystream_at blk iv0 (Z.to_nat off) (length p1)), n, None)) /\
    (bufSize_for blk < BlockSize blk + bOff /\ buffered < length p1 ->
     forall fuel, Stateless.ReadAt fuel c p off = Timeout).
Proof.
  intros blk iv0 rd c p p1 off n Hblk Hpos Hnew Hoff Hread bOff buffered.
  destruct (Stateless_new_inv _ _ _ _ Hnew) as [Hiv ->].
  set (cA := {| Stateless.b := blk; Stateless.iv := iv0;
                Stateless.bs := bufSize_for blk; Stateless.r := rd |}).
  assert (HbA : Stateless.b cA = blk) by reflexivity.
  assert (HokA : Stateless.engine_ok cA) by (split; [exact Hiv|apply bufSize_for_ge]).
  assert (Hfit : fitting blk (Stateless.bs cA) 0 * BlockSize blk
                 = bufSize_for blk / BlockSize blk * BlockSize blk).
  { unfold fitting. change (Stateless.bs cA) with (bufSize_for blk).
    now rewrite Nat.sub_0_r. }
  split.
  - intros [Hroom|Hshort] fuel Hfuel.
    + now apply (Stateless_ReadAt_spec blk Hblk Hpos fuel cA p off p1 n HbA HokA Hoff Hread).
    + apply (Stateless_ReadAt_short blk Hblk Hpos fuel cA p off p1 n HbA HokA Hoff Hread);
        [|exact Hfuel].
      rewrite Hfit. exact Hshort.
  - intros [Hnoroom Hlong] fuel.
    apply (Stateless_ReadAt_diverges blk Hblk Hpos fuel cA p off p1 n HbA HokA Hoff Hread).
    + change (Stateless.bs cA) with (bufSize_for blk). fold bOff. lia.
    + rewrite Hfit. fold bOff. exact Hlong.
Qed.

Lemma stateless_read_returns_iff_room_or_short_example :
  (BlockSize big_blk + Z.to_nat (Z.rem 1 (Z.of_nat (BlockSize big_blk)))
     <= bufSize_for big_blk \/
   length (replicate 1024 byte_zero)
     <= bufSize_for big_blk / BlockSize big_blk * BlockSize big_blk
        - Z.to_nat (Z.rem 1 (Z.of_nat (BlockSize big_blk))) ->
   forall fuel, length (replicate 1024 byte_zero) <= fuel ->
     Stateless.ReadAt fuel big_stateless (replicate 1024 byte_zero) 1
     = Ok (xor_with (replicate 1024 byte_zero)
             (keystream_at big_blk big_iv (Z.to_nat 1)
                (length (replicate 1024 byte_zero))), 1024%Z, None)) /\
  (bufSize_for big_blk
     < BlockSize big_blk + Z.to_nat (Z.rem 1 (Z.of_nat (BlockSize big_blk))) /\
   bufSize_for big_blk / BlockSize big_blk * BlockSize big_blk
     - Z.to_nat (Z.rem 1 (Z.of_nat (BlockSize big_blk)))
     < length (replicate 1024 byte_zero) ->
   forall fuel,
     Stateless.ReadAt fuel big_stateless (replicate 1024 byte_zero) 1 = Timeout).
Proof.
  apply (stateless_read_returns_iff_room_or_short big_blk big_iv big_src big_stateless
           (replicate 1024 byte_zero) (replicate 1024 byte_zero) 1 1024%Z).
  - apply toyBlock_ok.
  - vm_compute. lia.
  - vm_compute. reflexivity.
  - lia.
  - vm_compute. reflexivity.
Defined.

(** X4.  On the engine of [src/aesctr/ctr.go] a read at a negative offset
    that is not a multiple of the block size panics in [initCTR], on the
    slice [x.out[bOff:]] with its negative bound, before the source is
    asked. *)
Theorem stateless_read_at_negative_unaligned_offset_panics :
  forall (blk : Block) (iv0 : list byte) (rd : ReaderAt) (c : Stateless.ctr)
         (p : list byte) (off : Z) (fuel : nat),
    Block_ok blk -> 0 < BlockSize blk ->
    Stateless.NewCTRReaderAt blk iv0 rd = Ok c ->
    (- 2 ^ 63 <= off < 0)%Z ->
    Z.rem off (Z.of_nat (BlockSize blk)) <> 0%Z ->
    Stateless.ReadAt fuel c p off = Panic "slice bounds out of range".
Proof.
  intros blk iv0 rd c p off fuel Hblk Hpos Hnew Hoff Hrem.
  destruct (Stateless_new_inv _ _ _ _ Hnew) as [Hiv ->].
  apply (Stateless_ReadAt_negative blk Hblk Hpos); try reflexivity.
  - split; [exact Hiv|apply bufSize_for_ge].
  - pose proof (Z.rem_nonpos off (Z.of_nat (BlockSize blk)) ltac:(lia) ltac:(lia)).
    lia.
Qed.

Lemma stateless_read_at_minus_one_panics :
  Stateless.ReadAt 5 ex_stateless (replicate 5 byte_zero) (-1)
  = Panic "slice bounds out of range".
Proof.
  apply (stateless_read_at_negative_unaligned_offset_panics ex_blk ex_iv ex_src).
  - apply toyBlock_ok.
  - simpl. lia.
  - reflexivity.
  - lia.
  - vm_compute. discriminate.
Defined.

(** X7.  At a non-negative offset on a block boundary the two engines agree:
    the stateless engine and the shared engine, fresh or used, made over the
    same cipher, initial counter and source, return the same bytes, count
    and error. *)
Theorem engines_agree_on_block_boundaries :
  forall (blk : Block) (iv0 : list byte) (rd : ReaderAt)
         (c : Stateless.ctr) (x0 x : Shared.ctr)
         (p : list byte) (off : Z) (fuel : nat),
    Block_ok blk -> 0 < BlockSize blk -> ReaderAt_ok rd ->
    Stateless.NewCTRReaderAt blk iv0 rd = Ok c ->
    Shared.NewCTRReaderAt blk iv0 rd = Ok x0 -> Shared.reachable x0 x ->
    (0 <= off < 2 ^ 63)%Z ->
    Z.rem off (Z.of_nat (BlockSize blk)) = 0%Z ->
    length p <= fuel ->
    exists x' q n e,
      Stateless.ReadAt fuel c p off = Ok (q, n, e) /\
      Shared.ReadAt fuel x p off = Ok (x', q, n, e).
Proof.
  intros blk iv0 rd c x0 x p off fuel Hblk Hpos Hrd HnewA HnewB Hreach Hoff Hrem Hfuel.
  destruct (Stateless_new_inv _ _ _ _ HnewA) as [Hiv ->].
  destruct (Shared_new_ok blk iv0 rd Hiv) as (x0' & Hnew' & Hb0 & Hiv0 & Hr0 & Hok0).
  rewrite HnewB in Hnew'. injection Hnew' as <-.
  destruct (Shared_reachable_outcome blk Hblk Hpos x0 x fuel p off Hb0 Hok0
              ltac:(now rewrite Hr0) Hreach Hfuel) as (x' & Hshared & _).
  rewrite Hiv0, Hr0 in Hshared. unfold Shared_outcome in Hshared.
  set (cA := {| Stateless.b := blk; Stateless.iv := iv0;
                Stateless.bs := bufSize_for blk; Stateless.r := rd |}).
  assert (HbA : Stateless.b cA = blk) by reflexivity.
  assert (HokA : Stateless.engine_ok cA) by (split; [exact Hiv|apply bufSize_for_ge]).
  pose proof (Hrd p off) as Hlenp.
  destruct (read_at rd p off) as [[p1 n] [e|]] eqn:Hread; cbn [fst snd] in *.
  - exists x', p1, n, (Some e). split; [|exact Hshared].
    now apply (Stateless_ReadAt_error blk Hblk Hpos fuel cA p off p1 n e HbA HokA).
  - eexists x', _, n, None. split; [|exact Hshared].
    rewrite (aligned_keystream blk Hblk Hpos iv0 off (length p1) Hiv ltac:(lia) Hrem).
    apply (Stateless_ReadAt_spec blk Hblk Hpos fuel cA p off p1 n HbA HokA Hoff Hread).
    + rewrite Hrem. change (Z.to_nat 0) with 0. rewrite Nat.add_0_r. apply HokA.
    + lia.
Qed.

Lemma engines_agree_on_block_boundaries_example :
  exists x' q n e,
    Stateless.ReadAt 5 ex_stateless (replicate 5 byte_zero) 4 = Ok (q, n, e) /\
    Shared.ReadAt 5 ex_shared (replicate 5 byte_zero) 4 = Ok (x', q, n, e).
Proof.
  apply (engines_agree_on_block_boundaries ex_blk ex_iv ex_src ex_stateless
           ex_shared ex_shared).
  - apply toyBlock_ok.
  - simpl. lia.
  - apply bytesReader_ok.
  - reflexivity.
  - reflexivity.
  - apply Shared.reach_init.
  - lia.
  - reflexivity.
  - simpl. lia.
Defined.

(** X8.  Decryption on the engine of [src/unnamed/part_000] at offsets on a
    block boundary.  Over a reader of the sequential counter-mode encryption
    of a plaintext, the engine, fresh or used, answers a read of [len(p)]
    bytes at a multiple [off] of the block size, within the plaintext, with
    the bytes [off .. off + len(p)) of the plaintext, their count and no
    error. *)
Theorem shared_read_decrypts_on_block_boundaries :
  forall (blk : Block) (iv0 pt : list byte) (x0 x : Shared.ctr)
         (p : list byte) (off fuel : nat),
    Block_ok blk -> 0 < BlockSize blk ->
    Shared.NewCTRReaderAt blk iv0 (bytesReader (stdCTR blk iv0 pt)) = Ok x0 ->
    Shared.reachable x0 x ->
    off mod BlockSize blk = 0 ->
    off < length pt -> off + length p <= length pt ->
    (Z.of_nat off < 2 ^ 63)%Z ->
    length p <= fuel ->
    exists x',
      Shared.ReadAt fuel x p (Z.of_nat off)
      = Ok (x', take (length p) (drop off pt), Z.of_nat (length p), None).
Proof.
  intros blk iv0 pt x0 x p off fuel Hblk Hpos Hnew Hreach Hal Hoff Hend Hint Hfuel.
  assert (Hiv : length iv0 = BlockSize blk).
  { unfold Shared.NewCTRReaderAt in Hnew.
    destruct (Nat.eqb_spec (length iv0) (BlockSize blk)); [assumption|discriminate]. }
  destruct (Shared_new_ok blk iv0 (bytesReader (stdCTR blk iv0 pt)) Hiv)
    as (x0' & Hnew' & Hb0 & Hiv0 & Hr0 & Hok0).
  rewrite Hnew in Hnew'. injection Hnew' as <-.
  destruct (Shared_reachable_outcome blk Hblk Hpos x0 x fuel p (Z.of_nat off) Hb0 Hok0
              ltac:(rewrite Hr0; apply bytesReader_ok) Hreach Hfuel)
    as (x' & Hshared & _).
  rewrite Hiv0, Hr0 in Hshared. unfold Shared_outcome in Hshared.
  assert (Hct : length (stdCTR blk iv0 pt) = length pt).
  { unfold stdCTR. apply length_xor_with. now rewrite length_keystream. }
  rewrite bytesReader_read in Hshared by lia.
  cbn [fst snd] in Hshared.
  assert (Hrem : Z.rem (Z.of_nat off) (Z.of_nat (BlockSize blk)) = 0%Z).
  { rewrite Z.rem_mod_nonneg by lia. rewrite <- Nat2Z.inj_mod, Hal. reflexivity. }
  rewrite (aligned_keystream blk Hblk Hpos iv0 (Z.of_nat off) _ Hiv ltac:(lia) Hrem)
    in Hshared.
  rewrite length_take, length_drop, Hct, Nat2Z.id in Hshared.
  replace (Nat.min (length p) (length pt - off)) with (length p) in Hshared by lia.
  rewrite (stdCTR_slice blk Hblk Hpos iv0 pt off (length p) Hiv Hend) in Hshared.
  rewrite xor_with_involutive in Hshared.
  - exists x'. exact Hshared.
  - rewrite (length_keystream_at blk Hblk Hpos) by assumption.
    rewrite length_take, length_drop. lia.
Qed.

Lemma shared_read_decrypts_on_block_boundaries_example :
  exists x',
    Shared.ReadAt 5 ex_shared (replicate 5 byte_zero) (Z.of_nat 4)
    = Ok (x', take (length (replicate 5 byte_zero)) (drop 4 ex_plain),
              Z.of_nat (length (replicate 5 byte_zero)), None).
Proof.
  apply (shared_read_decrypts_on_block_boundaries ex_blk ex_iv ex_plain
           ex_shared ex_shared (replicate 5 byte_zero) 4 5).
  - apply toyBlock_ok.
  - simpl. lia.
  - reflexivity.
  - apply Shared.reach_init.
  - reflexivity.
  - simpl. lia.
  - simpl. lia.
  - simpl. lia.
  - simpl. lia.
Defined.

(** X13.  What the engine of [src/unnamed/part_000] computes at any
    non-negative offset: a read on the engine, fresh or used, returns within
    [len(p)] turns; when the source reports no error, the bytes returned are
    the source's bytes combined with the keystream from the first byte of
    the block that contains [off], and the count is the source's. *)
Theorem shared_read_uses_keystream_of_block_start :
  forall (blk : Block) (iv0 : list byte) (rd : ReaderAt) (x0 x : Shared.ctr)
         (p p1 : list byte) (n : Z) (off fuel : nat),
    Block_ok blk -> 0 < BlockSize blk -> ReaderAt_ok rd ->
    Shared.NewCTRReaderAt blk iv0 rd = Ok x0 -> Shared.reachable x0 x ->
    read_at rd p (Z.of_nat off) = (p1, n, None) ->
    length p <= fuel ->
    exists x',
      Shared.ReadAt fuel x p (Z.of_nat off)
      = Ok (x',
            xor_with p1
              (keystream_at blk iv0 (off - off mod BlockSize blk) (length p1)),
            n, None).
Proof.
  intros blk iv0 rd x0 x p p1 n off fuel Hblk Hpos Hrd Hnew Hreach Hread Hfuel.
  assert (Hiv : length iv0 = BlockSize blk).
  { unfold Shared.NewCTRReaderAt in Hnew.
    destruct (Nat.eqb_spec (length iv0) (BlockSize blk)); [assumption|discriminate]. }
  destruct (Shared_new_ok blk iv0 rd Hiv) as (x0' & Hnew' & Hb0 & Hiv0 & Hr0 & Hok0).
  rewrite Hnew in Hnew'. injection Hnew' as <-.
  destruct (Shared_reachable_outcome blk Hblk Hpos x0 x fuel p (Z.of_nat off) Hb0 Hok0
              ltac:(now rewrite Hr0) Hreach Hfuel) as (x' & Hshared & _).
  rewrite Hiv0, Hr0 in Hshared. unfold Shared_outcome in Hshared.
  rewrite Hread in Hshared. cbn [fst snd] in Hshared.
  exists x'. rewrite Hshared. do 4 f_equal.
  destruct (offset_split (Z.of_nat off) (BlockSize blk) Hpos ltac:(lia))
    as (HbOff & HbN & Hsplit).
  set (bN := Z.quot _ _) in *.
  assert (Hrem : Z.to_nat (Z.rem (Z.of_nat off) (Z.of_nat (BlockSize blk)))
                 = off mod BlockSize blk).
  { rewrite Z.rem_mod_nonneg by lia. now rewrite <- Nat2Z.inj_mod, Nat2Z.id. }
  rewrite Nat2Z.id, Hrem in Hsplit.
  replace (off - off mod BlockSize blk) with (Z.to_nat bN * BlockSize blk + 0) by lia.
  rewrite (keystream_at_block blk Hblk Hpos iv0 _ 0 (length p1) (length p1) Hiv) by nia.
  now rewrite drop_0.
Qed.

Lemma shared_read_uses_keystream_of_block_start_example :
  exists x',
    Shared.ReadAt 5 ex_shared (replicate 5 byte_zero) (Z.of_nat 5)
    = Ok (x',
          xor_with (take 5 (drop 5 ex_cipher))
            (keystream_at ex_blk ex_iv (5 - 5 mod BlockSize ex_blk)
               (length (take 5 (drop 5 ex_cipher)))),
          5%Z, None).
Proof.
  apply (shared_read_uses_keystream_of_block_start ex_blk ex_iv ex_src
           ex_shared ex_shared (replicate 5 byte_zero)).
  - apply toyBlock_ok.
  - simpl. lia.
  - apply bytesReader_ok.
  - reflexivity.
  - apply Shared.reach_init.
  - vm_compute. reflexivity.
  - simpl. lia.
Defined.
